(** * web2md: the asset-aware packaging pipeline

    A shallow embedding of [api/lib/tar.ts] (the ustar encoder) and of
    [api/download.ts] (path sanitising, de-duplication, asset download,
    text rewriting and the request handler), with the properties of the
    specification stated and settled against it.

    JavaScript strings are sequences of UTF-16 code units and Node buffers are
    sequences of bytes; both are lists of [N] here.  The registry
    [Set<string>] is a [gset].  Integers that the code receives as JS numbers
    (mode, size, mtime) are [Z]. *)

From Stdlib Require Import NArith ZArith Lia.
From Stdlib Require Strings.String Strings.Ascii.
Import Stdlib.Strings.String.StringSyntax.
Delimit Scope string_scope with string.
From stdpp Require Import base tactics option list numbers countable gmap sets
  relations sorting.

Local Open Scope N_scope.

(** ** JavaScript strings *)

Module JS.

(** A string is its sequence of UTF-16 code units. *)
Abbreviation jsstring := (list N) (only parsing).

(** A Node [Buffer]: a sequence of bytes. *)
Abbreviation buffer := (list N) (only parsing).

Fixpoint js (s : String.string) : jsstring :=
  match s with
  | String.EmptyString => []
  | String.String c s' => Ascii.N_of_ascii c :: js s'
  end.

Arguments js s%_string : simpl never.

Definition eqb (a b : jsstring) : bool := bool_decide (a = b).

(** [a || b] on strings: the empty string is falsy. *)
Definition orElse (a b : jsstring) : jsstring :=
  match a with [] => b | _ => a end.

(** [s.startsWith(p)] *)
Fixpoint startsWith (p s : jsstring) : bool :=
  match p, s with
  | [], _ => true
  | _ :: _, [] => false
  | a :: p', b :: s' => (a =? b) && startsWith p' s'
  end.

(** [s.endsWith(p)] *)
Definition endsWith (p s : jsstring) : bool :=
  startsWith (reverse p) (reverse s).

(** [s.includes(c)] for a one-character needle. *)
Definition includes (c : N) (s : jsstring) : bool :=
  existsb (N.eqb c) s.

(** [s.lastIndexOf(c)] for a one-character needle: the index of the last
    occurrence, or [-1]. *)
Fixpoint lastIndexOfFrom (c : N) (s : jsstring) (i : Z) (found : Z) : Z :=
  match s with
  | [] => found
  | x :: s' => lastIndexOfFrom c s' (i + 1)%Z (if x =? c then i else found)
  end.

Definition lastIndexOf (c : N) (s : jsstring) : Z :=
  lastIndexOfFrom c s 0%Z (-1)%Z.

(** [s.slice(0, n)] and [s.slice(n)] for [n >= 0]. *)
Definition sliceTo (n : Z) (s : jsstring) : jsstring := take (Z.to_nat n) s.
Definition sliceFrom (n : Z) (s : jsstring) : jsstring := drop (Z.to_nat n) s.

(** [parts.join(sep)] *)
Fixpoint join (sep : jsstring) (parts : list jsstring) : jsstring :=
  match parts with
  | [] => []
  | [p] => p
  | p :: rest => p ++ sep ++ join sep rest
  end.

(** [s.split(sep)] for a non-empty separator: the pieces between the
    occurrences of [sep], found from left to right without overlap.  [skip]
    counts the code units of the occurrence just matched that are still to be
    passed over; [cur] is the current piece, reversed. *)
Fixpoint splitAux (sep : jsstring) (skip : nat) (cur : jsstring) (s : jsstring)
    : list jsstring :=
  match s with
  | [] => [reverse cur]
  | c :: s' =>
      match skip with
      | S k => splitAux sep k cur s'
      | O =>
          if startsWith sep s
          then reverse cur :: splitAux sep (length sep - 1)%nat [] s'
          else splitAux sep 0 (c :: cur) s'
      end
  end.

Definition split (sep : jsstring) (s : jsstring) : list jsstring :=
  splitAux sep 0 [] s.

(** The white space of ECMAScript: what [\s] matches and [trim] removes
    (WhiteSpace and LineTerminator). *)
Definition isWhiteSpace (c : N) : bool :=
  ((9 <=? c) && (c <=? 13)) || (c =? 32) || (c =? 160) || (c =? 5760)
  || ((8192 <=? c) && (c <=? 8202)) || (c =? 8232) || (c =? 8233)
  || (c =? 8239) || (c =? 8287) || (c =? 12288) || (c =? 65279).

Fixpoint trimStart (s : jsstring) : jsstring :=
  match s with
  | c :: s' => if isWhiteSpace c then trimStart s' else s
  | [] => []
  end.

Definition trimEnd (s : jsstring) : jsstring := reverse (trimStart (reverse s)).

(** [s.trim()] *)
Definition trim (s : jsstring) : jsstring := trimEnd (trimStart s).

(** [s.replace(/\s+/g, ' ')]: every maximal run of white space becomes one
    space.  [inRun] tells that the previous code unit was white space, whose
    run has already been replaced. *)
Fixpoint collapseAux (inRun : bool) (s : jsstring) : jsstring :=
  match s with
  | [] => []
  | c :: s' =>
      if isWhiteSpace c
      then (if inRun then collapseAux true s' else 32 :: collapseAux true s')
      else c :: collapseAux false s'
  end.

Definition collapseWhiteSpace (s : jsstring) : jsstring := collapseAux false s.

(** [s.includes(needle)] for a needle of any length. *)
Fixpoint includesString (needle s : jsstring) : bool :=
  startsWith needle s
  || match s with
     | [] => false
     | _ :: s' => includesString needle s'
     end.

End JS.

(** ** Numbers as text, UTF-8 *)

Module Text.
Import JS.

(** The digit characters of [Number.prototype.toString(radix)]:
    ['0'..'9'] then ['a'..'z']. *)
Definition digitChar (d : N) : N := if d <? 10 then 48 + d else 87 + d.

Fixpoint toRadixAux (radix : N) (fuel : nat) (n : N) (acc : jsstring) : jsstring :=
  match fuel with
  | O => acc
  | S f =>
      let acc' := digitChar (n mod radix) :: acc in
      if n / radix =? 0 then acc' else toRadixAux radix f (n / radix) acc'
  end.

(** [n.toString(radix)] for a non-negative integer [n]; the fuel is the
    number of bits of [n], more than the number of its digits. *)
Definition toStringRadix (radix n : N) : jsstring :=
  toRadixAux radix (S (N.to_nat (N.log2 n))) n [].

(** [String(n)] *)
Definition toDecimal (n : N) : jsstring := toStringRadix 10 n.

(** [s.padStart(target, c)] with a one-character filler. *)
Definition padStart (target : nat) (c : N) (s : jsstring) : jsstring :=
  replicate (target - length s) c ++ s.

(** The value a string of digits denotes in a radix. *)
Definition digitValue (c : N) : N := if c <? 58 then c - 48 else c - 87.

Definition valueOfDigits (radix : N) (s : jsstring) : N :=
  foldl (fun acc c => acc * radix + digitValue c) 0 s.

Definition isHighSurrogate (c : N) : bool := (55296 <=? c) && (c <=? 56319).
Definition isLowSurrogate (c : N) : bool := (56320 <=? c) && (c <=? 57343).

(** The UTF-8 bytes of U+FFFD, written for a lone surrogate. *)
Definition replacementBytes : buffer := [239; 191; 189].

(** [Buffer.from(s, 'utf8')]: the UTF-8 encoding of a UTF-16 string. *)
Fixpoint utf8 (s : jsstring) : buffer :=
  match s with
  | [] => []
  | c :: s' =>
      if c <? 128 then c :: utf8 s'
      else if c <? 2048 then (192 + c / 64) :: (128 + c mod 64) :: utf8 s'
      else if isHighSurrogate c then
        match s' with
        | d :: s'' =>
            if isLowSurrogate d then
              let cp := 65536 + (c - 55296) * 1024 + (d - 56320) in
              (240 + cp / 262144) :: (128 + (cp / 4096) mod 64)
                :: (128 + (cp / 64) mod 64) :: (128 + cp mod 64) :: utf8 s''
            else replacementBytes ++ utf8 s'
        | [] => replacementBytes
        end
      else if isLowSurrogate c then replacementBytes ++ utf8 s'
      else (224 + c / 4096) :: (128 + (c / 64) mod 64) :: (128 + c mod 64) :: utf8 s'
  end.

(** [Buffer.byteLength(s)] *)
Definition byteLength (s : jsstring) : nat := length (utf8 s).

(** Two lower-case hexadecimal digits per byte: [digest('hex')]. *)
Definition hexOfBytes (bs : buffer) : jsstring :=
  flat_map (fun b => [digitChar (b / 16); digitChar (b mod 16)]) bs.

End Text.

(** ** SHA-256 ([crypto.createHash('sha256')], FIPS 180-4) *)

Module Sha256.
Import JS Text.

Definition w32 (x : N) : N := x mod 4294967296.
Definition add32 (a b : N) : N := w32 (a + b).
Definition rotr (n x : N) : N := N.lor (N.shiftr x n) (w32 (N.shiftl x (32 - n))).
Definition not32 (x : N) : N := N.lxor x 4294967295.
Definition xor3 (a b c : N) : N := N.lxor (N.lxor a b) c.

Definition Ch (x y z : N) : N := N.lxor (N.land x y) (N.land (not32 x) z).
Definition Maj (x y z : N) : N := xor3 (N.land x y) (N.land x z) (N.land y z).
Definition bigSigma0 (x : N) : N := xor3 (rotr 2 x) (rotr 13 x) (rotr 22 x).
Definition bigSigma1 (x : N) : N := xor3 (rotr 6 x) (rotr 11 x) (rotr 25 x).
Definition smallSigma0 (x : N) : N := xor3 (rotr 7 x) (rotr 18 x) (N.shiftr x 3).
Definition smallSigma1 (x : N) : N := xor3 (rotr 17 x) (rotr 19 x) (N.shiftr x 10).

Definition K : list N :=
  [ 1116352408; 1899447441; 3049323471; 3921009573; 961987163; 1508970993;
    2453635748; 2870763221; 3624381080; 310598401; 607225278; 1426881987;
    1925078388; 2162078206; 2614888103; 3248222580; 3835390401; 4022224774;
    264347078; 604807628; 770255983; 1249150122; 1555081692; 1996064986;
    2554220882; 2821834349; 2952996808; 3210313671; 3336571891; 3584528711;
    113926993; 338241895; 666307205; 773529912; 1294757372; 1396182291;
    1695183700; 1986661051; 2177026350; 2456956037; 2730485921; 2820302411;
    3259730800; 3345764771; 3516065817; 3600352804; 4094571909; 275423344;
    430227734; 506948616; 659060556; 883997877; 958139571; 1322822218;
    1537002063; 1747873779; 1955562222; 2024104815; 2227730452; 2361852424;
    2428436474; 2756734187; 3204031479; 3329325298 ].

Definition initialHash : list N :=
  [ 1779033703; 3144134277; 1013904242; 2773480762;
    1359893119; 2600822924; 528734635; 1541459225 ].

(** Big-endian bytes of a number, [k] of them. *)
Fixpoint bigEndian (k : nat) (x : N) : buffer :=
  match k with
  | O => []
  | S k' => (x / 256 ^ N.of_nat k') mod 256 :: bigEndian k' x
  end.

(** The message followed by [0x80], zeros up to 56 modulo 64, and its length
    in bits on eight bytes. *)
Definition pad (msg : buffer) : buffer :=
  let len := N.of_nat (length msg) in
  let zeros := N.to_nat ((119 - len mod 64) mod 64) in
  msg ++ [128] ++ replicate zeros 0 ++ bigEndian 8 (8 * len).

Fixpoint wordsOf (fuel : nat) (bs : buffer) : list N :=
  match fuel, bs with
  | S f, b0 :: b1 :: b2 :: b3 :: rest =>
      (((b0 * 256 + b1) * 256 + b2) * 256 + b3) :: wordsOf f rest
  | _, _ => []
  end.

(** The message schedule, most recent word first: [extend n w] adds [n]
    words to the reversed schedule [w]. *)
Fixpoint extend (n : nat) (w : list N) : list N :=
  match n with
  | O => w
  | S n' =>
      let at_ i := nth i w 0 in
      extend n'
        (add32 (add32 (smallSigma1 (at_ 1%nat)) (at_ 6%nat))
               (add32 (smallSigma0 (at_ 14%nat)) (at_ 15%nat)) :: w)
  end.

Definition schedule (block : list N) : list N :=
  reverse (extend 48 (reverse block)).

Definition round (st : list N) (kw : N * N) : list N :=
  match st with
  | [a; b; c; d; e; f; g; h] =>
      let t1 := add32 (add32 (add32 h (bigSigma1 e)) (add32 (Ch e f g) kw.1)) kw.2 in
      let t2 := add32 (bigSigma0 a) (Maj a b c) in
      [add32 t1 t2; a; b; c; add32 d t1; e; f; g]
  | _ => st
  end.

Definition compress (h : list N) (block : list N) : list N :=
  zip_with add32 h (foldl round h (zip K (schedule block))).

Fixpoint blocks (fuel : nat) (h : list N) (ws : list N) : list N :=
  match fuel, ws with
  | S f, _ :: _ => blocks f (compress h (take 16 ws)) (drop 16 ws)
  | _, _ => h
  end.

(** The 32 bytes of the digest. *)
Definition digest (msg : buffer) : buffer :=
  let p := pad msg in
  let ws := wordsOf (length p) p in
  flat_map (bigEndian 4) (blocks (length ws) initialHash ws).

(** [crypto.createHash('sha256').update(s).digest('hex')]: the string is
    hashed in its UTF-8 encoding. *)
Definition sha256hex (s : jsstring) : jsstring := hexOfBytes (digest (utf8 s)).

End Sha256.

(** ** The archive encoder: [api/lib/tar.ts] *)

Module Tar.
Import JS Text.

(** [TarEntry]: a file with its content, or a directory; [mode] and [mtime]
    are optional. *)
Inductive TarEntry :=
  | File (path : jsstring) (content : buffer) (mode mtime : option Z)
  | Dir (path : jsstring) (mode mtime : option Z).

Definition entryPath (e : TarEntry) : jsstring :=
  match e with File p _ _ _ => p | Dir p _ _ => p end.

Definition withPath (p : jsstring) (e : TarEntry) : TarEntry :=
  match e with
  | File _ c m t => File p c m t
  | Dir _ m t => Dir p m t
  end.

Definition slash : N := 47.
Definition backslash : N := 92.

(** [.replace(/^\/+/, '')] *)
Fixpoint stripLeadingSlashes (s : jsstring) : jsstring :=
  match s with
  | c :: s' => if c =? slash then stripLeadingSlashes s' else s
  | [] => []
  end.

Definition toPosixPath (path : jsstring) : jsstring :=
  stripLeadingSlashes (map (fun c => if c =? backslash then slash else c) path).

Definition ensureTrailingSlash (path : jsstring) : jsstring :=
  if endsWith [slash] path then path else path ++ [slash].

(** Bytes copied into a buffer at an offset; what does not fit is dropped
    and the buffer keeps its length. *)
Definition blit (buf : buffer) (offset : nat) (data : buffer) : buffer :=
  let d := take (length buf - offset) data in
  take offset buf ++ d ++ drop (offset + length d) buf.

(** [buffer.write(str, offset, length, 'ascii')]: at most [length] bytes, one
    per code unit, its low eight bits. *)
Definition bufferWriteAscii (buf : buffer) (str : jsstring) (offset len : nat)
    : buffer :=
  blit buf offset (take len (map (fun c => c mod 256) str)).

(** [buffer.fill(value, start, end)] *)
Definition bufferFill (buf : buffer) (value : N) (start stop : nat) : buffer :=
  blit buf start (replicate (stop - start) value).

Definition writeString (buf : buffer) (offset len : nat) (value : jsstring)
    : buffer :=
  let str := take len value in
  bufferWriteAscii buf str offset (Nat.min len (byteLength str)).

Definition writeOctal (buf : buffer) (offset len : nat) (value : Z) : buffer :=
  let oct := toStringRadix 8 (Z.to_N (Z.max 0 value)) in
  let padded := padStart (len - 1) 48 oct in
  let buf := writeString buf offset (len - 1) padded in
  <[(offset + len - 1)%nat := 0]> buf.

Record SplitPath := { name : jsstring; prefix : jsstring }.

Definition splitTarPath (path : jsstring) : SplitPath :=
  let normalized := toPosixPath path in
  if bool_decide (byteLength normalized <= 100)%nat then
    {| name := normalized; prefix := [] |}
  else
    let idx := lastIndexOf slash normalized in
    let split :=
      if bool_decide (0 < idx)%Z then
        let prefix := sliceTo idx normalized in
        let name := sliceFrom (idx + 1) normalized in
        if bool_decide (byteLength name <= 100)%nat
           && bool_decide (byteLength prefix <= 155)%nat
        then Some {| name := name; prefix := prefix |}
        else None
      else None in
    match split with
    | Some r => r
    | None =>
        let hash := take 16 (Sha256.sha256hex normalized) in
        {| name := js "path_" ++ hash; prefix := [] |}
    end.

(** The type flag: ['0'] for a file, ['5'] for a directory. *)
Inductive TypeFlag := Flag0 | Flag5.

Definition charCode (t : TypeFlag) : N :=
  match t with Flag0 => 48 | Flag5 => 53 end.

(** The sum of the 512 bytes of a header: [for (i = 0; i < 512; i++) sum += header[i]]. *)
Definition byteSum (header : buffer) : N :=
  foldl (fun sum i => sum + nth i header 0) 0 (seq 0 512).

(** The header as it stands when the checksum is computed: every field
    written, the checksum field filled with spaces. *)
Definition headerBeforeChecksum (path : jsstring) (size mode mtime : Z)
    (typeflag : TypeFlag) : buffer :=
  let header := replicate 512 0 in
  let '{| name := name; prefix := prefix |} := splitTarPath path in
  let header := writeString header 0 100 name in
  let header := writeOctal header 100 8 mode in
  let header := writeOctal header 108 8 0 in
  let header := writeOctal header 116 8 0 in
  let header := writeOctal header 124 12 size in
  let header := writeOctal header 136 12 mtime in
  let header := bufferFill header 32 148 156 in
  let header := <[156%nat := charCode typeflag]> header in
  let header := writeString header 257 6 (js "ustar") in
  let header := <[262%nat := 0]> header in
  let header := writeString header 263 2 (js "00") in
  let header := writeString header 265 32 (js "root") in
  let header := writeString header 297 32 (js "root") in
  let header := writeOctal header 329 8 0 in
  let header := writeOctal header 337 8 0 in
  writeString header 345 155 prefix.

(** The checksum written over the placeholder: the second half of
    [createHeader]. *)
Definition writeChecksum (header : buffer) : buffer :=
  let sum := byteSum header in
  let chk := padStart 6 48 (toStringRadix 8 sum) in
  let header := writeString header 148 6 chk in
  let header := <[154%nat := 0]> header in
  <[155%nat := 32]> header.

Definition createHeader (path : jsstring) (size mode mtime : Z)
    (typeflag : TypeFlag) : buffer :=
  writeChecksum (headerBeforeChecksum path size mode mtime typeflag).

Definition padTo512 (buf : buffer) : buffer :=
  let remainder := (length buf mod 512)%nat in
  if (remainder =? 0)%nat then buf else buf ++ replicate (512 - remainder) 0.

(** The order of [Array.prototype.sort] without a comparator, on strings:
    by code units. *)
Fixpoint ltb (a b : jsstring) : bool :=
  match a, b with
  | _, [] => false
  | [], _ :: _ => true
  | x :: a', y :: b' => (x <? y) || ((x =? y) && ltb a' b')
  end.

Fixpoint insertSorted (x : jsstring) (l : list jsstring) : list jsstring :=
  match l with
  | [] => [x]
  | y :: l' => if ltb y x then y :: insertSorted x l' else x :: l
  end.

Definition sort (l : list jsstring) : list jsstring :=
  foldr insertSorted [] l.

(** The ancestors of a path: [current] grows by one part at a time, for every
    part but the last. *)
Fixpoint ancestors (current : jsstring) (parts : list jsstring) : list jsstring :=
  match parts with
  | [] | [_] => []
  | p :: rest =>
      let current := match current with [] => p | _ => current ++ [slash] ++ p end in
      ensureTrailingSlash current :: ancestors current rest
  end.

(** A [Set] keeps one copy of each element, in the order of first insertion. *)
Definition setAdd (dirs : list jsstring) (d : jsstring) : list jsstring :=
  if bool_decide (d ∈ dirs) then dirs else dirs ++ [d].

Definition isNonEmpty (s : jsstring) : bool :=
  match s with [] => false | _ => true end.

Definition addParentDirs (paths : list jsstring) : list TarEntry :=
  let dirs :=
    foldl (fun dirs p =>
             let parts := filter (fun x => isNonEmpty x = true) (split [slash] (toPosixPath p)) in
             foldl setAdd dirs (ancestors [] parts))
          [] paths in
  map (fun d => Dir d None None) (sort dirs).

Definition encodeEntry (now : Z) (entry : TarEntry) : list buffer :=
  match entry with
  | Dir path mode mtime =>
      [createHeader (ensureTrailingSlash path) 0 (default 493%Z mode)
         (default now mtime) Flag5]
  | File path content mode mtime =>
      [createHeader path (Z.of_nat (length content)) (default 420%Z mode)
         (default now mtime) Flag0;
       padTo512 content]
  end.

(** [createTar]; [now] is [Math.floor(Date.now() / 1000)]. *)
Definition createTar (now : Z) (entries : list TarEntry) : buffer :=
  let normalizedEntries :=
    filter (fun e => isNonEmpty (entryPath e) = true)
           (map (fun e => withPath (toPosixPath (entryPath e)) e) entries) in
  let filePaths := map entryPath normalizedEntries in
  let dirEntries := addParentDirs filePaths in
  let all := dirEntries ++ normalizedEntries in
  concat (flat_map (encodeEntry now) all ++ [replicate 1024 0]).

End Tar.

(** ** Paths, names and text: the pure part of [api/download.ts] *)

Module Download.
Import JS Text Tar.

Definition MAX_URLS : nat := 20.
Definition ARTICLE_CONCURRENCY : nat := 2.
Definition ASSET_CONCURRENCY : nat := 6.
Definition MAX_ASSET_BYTES : Z := 25 * 1024 * 1024.
Definition MAX_TOTAL_ASSET_BYTES : Z := 150 * 1024 * 1024.

Record PackageOptions := { downloadImages : bool; downloadFiles : bool }.

Inductive AssetKind := Images | Files.

#[export] Instance AssetKind_eq_dec : EqDecision AssetKind.
Proof. solve_decision. Defined.

(** The kind as the text it is in the source: ['images'] or ['files']. *)
Definition kindName (k : AssetKind) : jsstring :=
  match k with Images => js "images" | Files => js "files" end.

Record DownloadedAsset := {
  originalUrl : jsstring;
  relativePath : jsstring;
  content : buffer
}.

Definition shortHash (input : jsstring) : jsstring :=
  take 10 (Sha256.sha256hex input).

(** The nine characters of the class that [sanitizeSegment] replaces:
    backslash, slash, colon, star, question mark, double quote, less-than,
    greater-than and bar. *)
Definition isPathUnsafe (c : N) : bool :=
  (c =? 92) || (c =? 47) || (c =? 58) || (c =? 42) || (c =? 63)
  || (c =? 34) || (c =? 60) || (c =? 62) || (c =? 124).

Definition underscore : N := 95.
Definition dot : N := 46.

Definition sanitizeSegment (input : jsstring) : jsstring :=
  let s := filter (fun c => c <> 0) input in
  let s := map (fun c => if isPathUnsafe c then underscore else c) s in
  let s := collapseWhiteSpace s in
  let s := trim s in
  take 80 s.

Definition sanitizePath (input : jsstring) : jsstring :=
  let parts := split [slash] (map (fun c => if c =? backslash then slash else c) input) in
  let parts := filter (fun x => isNonEmpty x = true) parts in
  let parts := map sanitizeSegment parts in
  let parts := filter (fun x => isNonEmpty x = true) parts in
  join [slash] parts.

(** The table of [guessExtFromContentType]. *)
Definition extensionTable : list (jsstring * jsstring) :=
  [ (js "image/jpeg", js ".jpg"); (js "image/jpg", js ".jpg");
    (js "image/png", js ".png"); (js "image/gif", js ".gif");
    (js "image/webp", js ".webp"); (js "image/svg+xml", js ".svg");
    (js "application/pdf", js ".pdf"); (js "application/zip", js ".zip");
    (js "application/x-zip-compressed", js ".zip");
    (js "application/x-rar-compressed", js ".rar");
    (js "application/msword", js ".doc");
    (js "application/vnd.openxmlformats-officedocument.wordprocessingml.document", js ".docx");
    (js "application/vnd.ms-powerpoint", js ".ppt");
    (js "application/vnd.openxmlformats-officedocument.presentationml.presentation", js ".pptx");
    (js "application/vnd.ms-excel", js ".xls");
    (js "application/vnd.openxmlformats-officedocument.spreadsheetml.sheet", js ".xlsx");
    (js "text/plain", js ".txt"); (js "text/markdown", js ".md");
    (js "text/csv", js ".csv"); (js "application/json", js ".json") ].

Fixpoint tableLookup (key : jsstring) (table : list (jsstring * jsstring))
    : option jsstring :=
  match table with
  | [] => None
  | (k, v) :: rest => if eqb k key then Some v else tableLookup key rest
  end.

(** [mapping[ct]] as the template literal prints it.  The table is a plain
    object, so the two lower-case names that it inherits answer too:
    [constructor] is the function [Object] and [__proto__] is
    [Object.prototype]; both are truthy. *)
Definition mappingText (ct : jsstring) : jsstring :=
  match tableLookup ct extensionTable with
  | Some ext => ext
  | None =>
      if eqb ct (js "constructor") then js "function Object() { [native code] }"
      else if eqb ct (js "__proto__") then js "[object Object]"
      else []
  end.

(** Leading and trailing double quotes removed (the [replace] of
    [parseFilenameFromContentDisposition]). *)
Fixpoint stripLeadingQuotes (s : jsstring) : jsstring :=
  match s with
  | c :: s' => if c =? 34 then stripLeadingQuotes s' else s
  | [] => []
  end.

Definition stripQuotes (s : jsstring) : jsstring :=
  reverse (stripLeadingQuotes (reverse (stripLeadingQuotes s))).

(** [base] and [ext] of a name: split at its last dot, when it has one. *)
Definition baseOf (path : jsstring) : jsstring :=
  let idx := lastIndexOf dot path in
  if bool_decide (0 <= idx)%Z then sliceTo idx path else path.

Definition extOf (path : jsstring) : jsstring :=
  let idx := lastIndexOf dot path in
  if bool_decide (0 <= idx)%Z then sliceFrom idx path else [].

(** The candidate [`${base}_${i}${ext}`]. *)
Definition candidate (base ext : jsstring) (i : N) : jsstring :=
  base ++ [underscore] ++ toDecimal i ++ ext.

(** [for (let i = ...; i < 1000; i++)]: [count] iterations from [i]; the
    first candidate that is not in [used], if there is one. *)
Fixpoint dedupeLoop (base ext : jsstring) (used : gset jsstring) (i : N)
    (count : nat) : option jsstring :=
  match count with
  | O => None
  | S count' =>
      let c := candidate base ext i in
      if bool_decide (c ∉ used) then Some c
      else dedupeLoop base ext used (i + 1) count'
  end.

(** [dedupePath]: the returned path, and the registry after the call. *)
Definition dedupePath (path : jsstring) (used : gset jsstring)
    : jsstring * gset jsstring :=
  if bool_decide (path ∉ used) then (path, {[path]} ∪ used)
  else
    let base := baseOf path in
    let ext := extOf path in
    match dedupeLoop base ext used 2 998 with
    | Some c => (c, {[c]} ∪ used)
    | None =>
        let fallback := base ++ [underscore] ++ shortHash path ++ ext in
        (fallback, {[fallback]} ∪ used)
    end.

(** Calls of [dedupePath] one after the other on one registry: the returned
    paths, in order, and the final registry. *)
Fixpoint dedupeAll (paths : list jsstring) (used : gset jsstring)
    : list jsstring * gset jsstring :=
  match paths with
  | [] => ([], used)
  | p :: rest =>
      let '(r, used) := dedupePath p used in
      let '(rs, used) := dedupeAll rest used in
      (r :: rs, used)
  end.

Definition replaceAll (text search replacement : jsstring) : jsstring :=
  match search with
  | [] => text
  | _ => join replacement (split search text)
  end.

Record ExtractResult := {
  title : option jsstring;
  resultContent : jsstring;
  author : option jsstring;
  date : option jsstring;
  resultUrl : jsstring
}.

Record AssetManifest := { images : list jsstring; files : list jsstring }.

(** What [extractArticleWithAssets] resolves to. *)
Inductive Extracted :=
  | ExtractError (error : jsstring)
  | ExtractOk (result : ExtractResult) (assets : AssetManifest).

Definition newline : N := 10.

(** [lines.push(...)] under a truthiness test of an optional string. *)
Definition lineIf (label : jsstring) (v : option jsstring) : list jsstring :=
  match v with
  | Some (c :: s) => [label ++ c :: s]
  | _ => []
  end.

(** The three labels are the code units of [**来源**: ], [**作者**: ] and
    [**日期**: ]. *)
Definition buildArticleMarkdown (result : ExtractResult) : jsstring :=
  let lines :=
    lineIf (js "# ") (title result)
    ++ [ [42; 42; 26469; 28304; 42; 42; 58; 32] ++ resultUrl result ]
    ++ lineIf [42; 42; 20316; 32773; 42; 42; 58; 32] (author result)
    ++ lineIf [42; 42; 26085; 26399; 42; 42; 58; 32] (date result)
    ++ [ []; js "---"; []; resultContent result ] in
  trim (join [newline] lines) ++ [newline].

Definition pickAssets (manifest : AssetManifest) (options : PackageOptions)
    : AssetManifest :=
  {| images := if downloadImages options then images manifest else [];
     files := if downloadFiles options then files manifest else [] |}.

(** The successful assets, one after the other: the text rewritten and the
    entries pushed ([for (const asset of okAssets)]). *)
Definition rewriteText (markdown : jsstring) (okAssets : list DownloadedAsset)
    : jsstring :=
  foldl (fun md asset => replaceAll md (originalUrl asset) (relativePath asset))
        markdown okAssets.

Definition assetEntries (folder : jsstring) (okAssets : list DownloadedAsset)
    : list TarEntry :=
  map (fun asset =>
         File (folder ++ [slash] ++ relativePath asset) (content asset) None None)
      okAssets.

(** ** The world around the handler *)

(** What [new URL(s)] gives, as far as the code reads it. *)
Record URL := { protocol : jsstring; hostname : jsstring; pathname : jsstring }.

(** [await response.arrayBuffer()]: the bytes, or a rejection. *)
Inductive Body := BodyBytes (bytes : buffer) | BodyError (message : jsstring).

(** A [Response] as far as [downloadAsset] reads it; a header that is absent
    is [None] ([headers.get] gives [null]). *)
Record Response := {
  ok : bool;
  contentType : option jsstring;
  contentDisposition : option jsstring;
  body : Body
}.

(** One record of [manifest.results]: [{ url, folder, ok: false, error }] or
    [{ url, folder, ok: true, images, files, downloaded }]. *)
Inductive JobRecord :=
  | JobFailed (url folder error : jsstring)
  | JobOk (url folder : jsstring) (nImages nFiles nDownloaded : nat).

Record Manifest := {
  total : nat;
  success : nat;
  failed : nat;
  results : list JobRecord
}.

(** Everything the handler gets from outside the repository's own code: the
    platform's functions, the extractor, the network and the scheduler.
    - [parseURL s] is [new URL(s)], [None] when it throws;
    - [decodeURIComponent s] is [None] when it throws;
    - [matchFilenameStar] and [matchFilenamePlain] give the first group of the
      two regular expressions of [parseFilenameFromContentDisposition];
    - [extractArticleWithAssets index url] is what the extraction started for
      the URL at [index] of the request resolves to;
    - [fetch j i url referer] is the outcome of the request that the download
      of asset [i] of job [j] issues, [None] when it rejects or times out;
    - [completionOrder j] is the order in which the downloads of job [j] get
      their body and run on: between its two awaits and the end a download
      runs without suspension, so a run is one such order of whole
      continuations, each download once and after it was started; the
      calls of [fetch] are made before, when a worker takes an index;
    - [dateNow] is [Date.now()]. *)
Record World := {
  parseURL : jsstring -> option URL;
  decodeURIComponent : jsstring -> option jsstring;
  toLowerCase : jsstring -> jsstring;
  matchFilenameStar : jsstring -> option jsstring;
  matchFilenamePlain : jsstring -> option jsstring;
  extractArticleWithAssets : nat -> jsstring -> Extracted;
  fetch : nat -> nat -> jsstring -> jsstring -> option Response;
  completionOrder : nat -> list nat;
  jsonStringify : Manifest -> jsstring;
  gzipSync : buffer -> buffer;
  dateNow : Z
}.

(** A computation that returns or throws. *)
Inductive Completion (A : Type) :=
  | Normal (a : A)
  | Throw (message : jsstring).
Arguments Normal {A} a.
Arguments Throw {A} message.

#[export] Instance Completion_bind : MBind Completion :=
  fun A B k c =>
    match c with
    | Normal a => k a
    | Throw m => Throw m
    end.

Definition invalidURL : jsstring := js "Invalid URL".

Definition newURL (w : World) (s : jsstring) : Completion URL :=
  match parseURL w s with
  | Some u => Normal u
  | None => Throw invalidURL
  end.

Definition safeArticleFolder (w : World) (url : jsstring)
    (title : option jsstring) (index : nat) : Completion jsstring :=
  let prefix := padStart 3 48 (toDecimal (N.of_nat (index + 1))) in
  match sanitizeSegment (default [] title) with
  | c :: s => Normal (prefix ++ [underscore] ++ c :: s)
  | [] =>
      u ← newURL w url;
      Normal (prefix ++ [underscore]
                ++ orElse (sanitizeSegment (hostname u)) (js "article_" ++ prefix))
  end.

Definition guessExtFromContentType (w : World) (contentType : jsstring)
    : jsstring :=
  let ct := toLowerCase w (trim (default [] (head (split (js ";") contentType)))) in
  mappingText ct.

Definition parseFilenameFromContentDisposition (w : World)
    (contentDisposition : option jsstring) : option jsstring :=
  match contentDisposition with
  | None | Some [] => None
  | Some cd =>
      match matchFilenameStar w cd with
      | Some (c :: s) =>
          match decodeURIComponent w (c :: s) with
          | Some decoded => Some (stripQuotes (trim decoded))
          | None => Some (stripQuotes (trim (c :: s)))
          end
      | _ =>
          match matchFilenamePlain w cd with
          | Some (c :: s) => Some (trim (c :: s))
          | _ => None
          end
      end
  end.

Definition buildRelativeAssetPath (w : World) (assetUrl : jsstring)
    (kind : AssetKind) (filename : jsstring) : Completion jsstring :=
  u ← newURL w assetUrl;
  let host := orElse (sanitizeSegment (hostname u)) (js "host") in
  let segments := split [slash] (pathname u) in
  let dir := sanitizePath (join [slash] (take (length segments - 1) segments)) in
  let safeFilename :=
    orElse (sanitizeSegment filename)
           (kindName kind ++ [underscore] ++ shortHash assetUrl) in
  let base := match dir with [] => safeFilename | _ => dir ++ [slash] ++ safeFilename end in
  Normal (js "assets/" ++ kindName kind ++ [slash] ++ host ++ [slash] ++ base).

(** The last part of the URL's path, percent-decoded; empty when anything
    throws. *)
Definition urlName (w : World) (assetUrl : jsstring) : jsstring :=
  match parseURL w assetUrl with
  | None => []
  | Some u =>
      let base :=
        default [] (last (filter (fun x => isNonEmpty x = true)
                                 (split [slash] (pathname u)))) in
      match base with
      | [] => []
      | _ => default [] (decodeURIComponent w base)
      end
  end.

(** The file name of an accepted body: lines 178 to 203 of the source. *)
Definition resolveFilename (w : World) (assetUrl : jsstring) (kind : AssetKind)
    (contentType : jsstring) (cd : option jsstring) : jsstring :=
  let fallback := kindName kind ++ [underscore] ++ shortHash assetUrl in
  let filename :=
    orElse (orElse (default [] (parseFilenameFromContentDisposition w cd))
                   (urlName w assetUrl))
           fallback in
  let filename := orElse (sanitizeSegment filename) fallback in
  let extFromName :=
    if includes dot filename then sliceFrom (lastIndexOf dot filename) filename else [] in
  let filename :=
    match extFromName with
    | [] =>
        match guessExtFromContentType w contentType with
        | [] => filename
        | ext => filename ++ ext
        end
    | _ => filename
    end in
  if includes 63 assetUrl
  then baseOf filename ++ js "__" ++ shortHash assetUrl ++ extOf filename
  else filename.

(** The state that the downloads of one job share: the job's registry of
    paths and the run's counter of bytes. *)
Record Shared := { usedPaths : gset jsstring; totalBytes : Z }.

(** [downloadAsset] from the answer of [fetch] to its second await, lines 139
    to 169: the response whose body is read next, or nothing when the
    download returns null before that. *)
Definition afterFetch (w : World) (kind : AssetKind) (fetched : option Response)
    : option Response :=
  match fetched with
  | None => None
  | Some response =>
      if negb (ok response) then None else
      if bool_decide (kind = Files)
         && startsWith (js "text/html")
                       (toLowerCase w (default [] (contentType response)))
      then None else Some response
  end.

(** Lines 173 to 176: the three checks on the length of the body and the
    increment of the counter; [None] when the download returns null. *)
Definition countBytes (content : buffer) (st : Shared) : option Shared :=
  let len := Z.of_nat (length content) in
  if bool_decide (len = 0)%Z then None else
  if bool_decide (MAX_ASSET_BYTES < len)%Z then None else
  if bool_decide (MAX_TOTAL_ASSET_BYTES < totalBytes st + len)%Z then None else
  Some {| usedPaths := usedPaths st; totalBytes := (totalBytes st + len)%Z |}.

(** Lines 178 to 208: the name, the path and its registration. *)
Definition placeAsset (w : World) (assetUrl : jsstring) (kind : AssetKind)
    (response : Response) (content : buffer) (st : Shared)
    : Completion (DownloadedAsset * Shared) :=
  let filename :=
    resolveFilename w assetUrl kind (default [] (contentType response))
                    (contentDisposition response) in
  relativePath ← buildRelativeAssetPath w assetUrl kind filename;
  let '(relativePath, used) := dedupePath relativePath (usedPaths st) in
  Normal ({| originalUrl := assetUrl;
             relativePath := relativePath;
             content := content |},
          {| usedPaths := used; totalBytes := totalBytes st |}).

(** [downloadAsset] from the bytes of the body to its end: there is no await
    on the way, so this runs in one piece on the shared state. *)
Definition afterBody (w : World) (assetUrl : jsstring) (kind : AssetKind)
    (response : Response) (content : buffer) (st : Shared)
    : Completion (option DownloadedAsset * Shared) :=
  match countBytes content st with
  | None => Normal (None, st)
  | Some st =>
      match placeAsset w assetUrl kind response content st with
      | Throw m => Throw m
      | Normal (asset, st) => Normal (Some asset, st)
      end
  end.

(** [downloadAsset] for asset [i] of job [j], with its two awaits taken one
    after the other. *)
Definition downloadAsset (w : World) (j i : nat) (assetUrl referer : jsstring)
    (kind : AssetKind) (st : Shared)
    : Completion (option DownloadedAsset * Shared) :=
  match afterFetch w kind (fetch w j i assetUrl referer) with
  | None => Normal (None, st)
  | Some response =>
      match body response with
      | BodyError m => Throw m
      | BodyBytes content => afterBody w assetUrl kind response content st
      end
  end.

(** The extractions started and the calls of [fetch], in the order in which
    they are made, up to the answer of the handler. *)
Record Log := {
  extractions : list jsstring;
  requests : list (AssetKind * jsstring)
}.

Definition logRequest (log : Log) (kind : AssetKind) (assetUrl : jsstring) : Log :=
  {| extractions := extractions log;
     requests := requests log ++ [(kind, assetUrl)] |}.

(** [const index = cursor++; if (index >= items.length) break;] and the call
    of [fn]: a worker takes the index at the cursor and, when there is an
    item, calls [downloadAsset], which calls [fetch] before its first
    await. *)
Definition startNext (items : list (AssetKind * jsstring)) (cursor : nat)
    (log : Log) : Log :=
  match items !! cursor with
  | Some (kind, assetUrl) => logRequest log kind assetUrl
  | None => log
  end.

(** [Array.from({ length: Math.max(1, limit) }, async () => ...)]: the
    workers are created one after the other, and each runs up to its first
    await, so each takes an index at once. *)
Fixpoint startWorkers (items : list (AssetKind * jsstring)) (workers cursor : nat)
    (log : Log) : Log :=
  match workers with
  | O => log
  | S workers' => startWorkers items workers' (S cursor) (startNext items cursor log)
  end.

(** The workers of job [j] once they are started: the downloads run on in
    the order [order], each storing its result at its own index of
    [results]; the worker of a download that has returned takes the index
    at the cursor; a download that throws ends the call.  An index at or
    past the cursor has not been taken by a worker: there is no download of
    it that could run on.  The cursor that the workers leave comes with the
    result. *)
Fixpoint runWorkers (w : World) (j : nat) (referer : jsstring)
    (items : list (AssetKind * jsstring)) (order : list nat) (cursor : nat)
    (results : list (option DownloadedAsset)) (st : Shared) (log : Log)
    : Completion (list (option DownloadedAsset) * Shared) * nat * Log :=
  match order with
  | [] => (Normal (results, st), cursor, log)
  | index :: order' =>
      match items !! index with
      | None => runWorkers w j referer items order' cursor results st log
      | Some (kind, assetUrl) =>
          if (cursor <=? index)%nat
          then runWorkers w j referer items order' cursor results st log
          else
            match downloadAsset w j index assetUrl referer kind st with
            | Throw m => (Throw m, cursor, log)
            | Normal (r, st) =>
                runWorkers w j referer items order' (S cursor)
                           (<[index := r]> results) st
                           (startNext items cursor log)
            end
      end
  end.

(** [mapLimit(items, ASSET_CONCURRENCY, ...)] over the assets of job [j]. *)
Definition mapLimit (w : World) (j : nat) (referer : jsstring)
    (items : list (AssetKind * jsstring)) (order : list nat)
    (results : list (option DownloadedAsset)) (st : Shared) (log : Log)
    : Completion (list (option DownloadedAsset) * Shared) * Log :=
  let workers := Nat.max 1 ASSET_CONCURRENCY in
  let '(outcome, _, log) :=
    runWorkers w j referer items order workers results st
               (startWorkers items workers 0 log) in
  (outcome, log).

(** ** The downloads of a job, await by await *)

(** Where the download of one item stands: not started, waiting for the
    answer of [fetch], waiting for the body, returned, or thrown. *)
Inductive Task :=
  | Queued
  | Fetching
  | Reading (response : Response)
  | Returned (result : option DownloadedAsset)
  | Rejected (message : jsstring).

(** One call of [mapLimit] on the assets of a job while it runs: [cursor] is
    the index that the workers share, [shared] the registry of the job and
    the counter of the run, [failure] the first rejection, which is the one
    that [Promise.all] rejects with. *)
Record Pool := {
  tasks : list Task;
  cursor : nat;
  shared : Shared;
  failure : option jsstring
}.

Definition initialPool (n : nat) (st : Shared) : Pool :=
  {| tasks := replicate n Queued; cursor := 0; shared := st; failure := None |}.

(** A worker is taken while its download waits, and gone once it has thrown. *)
Definition occupiesWorker (t : Task) : bool :=
  match t with
  | Fetching | Reading _ | Rejected _ => true
  | Queued | Returned _ => false
  end.

Definition workersTaken (p : Pool) : nat :=
  length (filter (fun t => occupiesWorker t = true) (tasks p)).

Definition setTask (i : nat) (t : Task) (st : Shared) (p : Pool) : Pool :=
  {| tasks := <[i := t]> (tasks p); cursor := cursor p; shared := st;
     failure := failure p |}.

Definition reject (i : nat) (m : jsstring) (st : Shared) (p : Pool) : Pool :=
  {| tasks := <[i := Rejected m]> (tasks p); cursor := cursor p; shared := st;
     failure := Some (default m (failure p)) |}.

(** What runs when the first await of download [i] resumes. *)
Definition onResponse (w : World) (j i : nat) (assetUrl referer : jsstring)
    (kind : AssetKind) (p : Pool) : Pool :=
  match afterFetch w kind (fetch w j i assetUrl referer) with
  | None => setTask i (Returned None) (shared p) p
  | Some response => setTask i (Reading response) (shared p) p
  end.

(** What runs when the second await of download [i] resumes.  A throw of
    [placeAsset] comes after the bytes are counted. *)
Definition onBody (w : World) (i : nat) (assetUrl : jsstring) (kind : AssetKind)
    (response : Response) (p : Pool) : Pool :=
  match body response with
  | BodyError m => reject i m (shared p) p
  | BodyBytes content =>
      match countBytes content (shared p) with
      | None => setTask i (Returned None) (shared p) p
      | Some st =>
          match placeAsset w assetUrl kind response content st with
          | Throw m => reject i m st p
          | Normal (asset, st) => setTask i (Returned (Some asset)) st p
          end
      end
  end.

(** The event loop runs one of these at a time: a free worker takes the
    next index and issues its request; a request is answered; a body
    arrives. *)
Inductive step (w : World) (j : nat) (referer : jsstring)
    (items : list (AssetKind * jsstring)) : Pool -> Pool -> Prop :=
  | step_start p :
      (cursor p < length items)%nat ->
      (workersTaken p < Nat.max 1 ASSET_CONCURRENCY)%nat ->
      step w j referer items p
        {| tasks := <[cursor p := Fetching]> (tasks p); cursor := S (cursor p);
           shared := shared p; failure := failure p |}
  | step_response p i kind assetUrl :
      tasks p !! i = Some Fetching ->
      items !! i = Some (kind, assetUrl) ->
      step w j referer items p (onResponse w j i assetUrl referer kind p)
  | step_body p i kind assetUrl response :
      tasks p !! i = Some (Reading response) ->
      items !! i = Some (kind, assetUrl) ->
      step w j referer items p (onBody w i assetUrl kind response p).

(** The pools that a call of [mapLimit] goes through, from shared state
    [st]. *)
Definition reachable (w : World) (j : nat) (referer : jsstring)
    (items : list (AssetKind * jsstring)) (st : Shared) (p : Pool) : Prop :=
  rtc (step w j referer items) (initialPool (length items) st) p.

(** ** The handler *)

(** A value of the request body, as far as [!== false] tells values apart. *)
Inductive JSValue :=
  | JSUndefined
  | JSNull
  | JSBoolean (b : bool)
  | JSNumber (n : Z)
  | JSString (s : jsstring).

(** [v !== false] *)
Definition notFalse (v : JSValue) : bool :=
  match v with
  | JSBoolean false => false
  | _ => true
  end.

(** [req.body]: [bodyUrls] is [body.urls] when it is an array, [bodyUrl] is
    [body.url]. *)
Record RequestBody := {
  bodyUrls : option (list jsstring);
  bodyUrl : option jsstring;
  bodyDownloadImages : JSValue;
  bodyDownloadFiles : JSValue
}.

Record Request := { method : jsstring; reqBody : option RequestBody }.

(** What the handler answers: [res.status(s).end()], [res.status(s).json({ error })]
    or [res.status(s).send(bytes)]. *)
Inductive HandlerResult :=
  | End (status : nat)
  | Json (status : nat) (error : jsstring)
  | Send (status : nat) (bytes : buffer).

Definition emptyBody : RequestBody :=
  {| bodyUrls := None; bodyUrl := None;
     bodyDownloadImages := JSUndefined; bodyDownloadFiles := JSUndefined |}.

Definition requestUrls (b : RequestBody) : list jsstring :=
  match bodyUrls b with
  | Some l => l
  | None =>
      match bodyUrl b with
      | Some (c :: s) => [c :: s]
      | _ => []
      end
  end.

Definition requestOptions (b : RequestBody) : PackageOptions :=
  {| downloadImages := notFalse (bodyDownloadImages b);
     downloadFiles := notFalse (bodyDownloadFiles b) |}.

(** The body of the validation loop: [new URL(url)] succeeds and the protocol
    is one of the two. *)
Definition validUrl (w : World) (url : jsstring) : bool :=
  match parseURL w url with
  | Some u => eqb (protocol u) (js "http:") || eqb (protocol u) (js "https:")
  | None => false
  end.

(** The first URL that the validation loop refuses. *)
Fixpoint firstInvalid (w : World) (urls : list jsstring) : option jsstring :=
  match urls with
  | [] => None
  | url :: rest => if validUrl w url then firstInvalid w rest else Some url
  end.

(** One element of [articleResults]. *)
Record ArticleItem := {
  itemUrl : jsstring;
  itemIndex : nat;
  itemOutcome : Extracted
}.

(** [mapLimit(urls, ARTICLE_CONCURRENCY, ...)]: the extractions share no
    state, so their interleaving does not show; one result per URL, at its
    index. *)
Fixpoint extractAll (w : World) (index : nat) (urls : list jsstring)
    : list ArticleItem :=
  match urls with
  | [] => []
  | url :: rest =>
      {| itemUrl := url; itemIndex := index;
         itemOutcome := extractArticleWithAssets w index url |}
        :: extractAll w (S index) rest
  end.

(** What the loop over [articleResults] builds. *)
Record Package := {
  tarEntries : list TarEntry;
  manifest : Manifest;
  totalAssets : Z
}.

(** The text of [error.md]: the heading [# 提取失败], then the lines
    [**来源**: url] and [**错误**: error]. *)
Definition errorMarkdown (url error : jsstring) : jsstring :=
  [35; 32; 25552; 21462; 22833; 36133; 10; 10; 42; 42; 26469; 28304; 42; 42; 58; 32]
    ++ url ++ [10; 10; 42; 42; 38169; 35823; 42; 42; 58; 32] ++ error ++ [newline].

(** The work list of a job: its images, then its files. *)
Definition assetItems (assets : AssetManifest) : list (AssetKind * jsstring) :=
  map (fun u => (Images, u)) (images assets)
    ++ map (fun u => (Files, u)) (files assets).

Definition recordFailure (m : Manifest) (r : JobRecord) : Manifest :=
  {| total := total m; success := success m; failed := failed m + 1;
     results := results m ++ [r] |}.

Definition recordSuccess (m : Manifest) (r : JobRecord) : Manifest :=
  {| total := total m; success := success m + 1; failed := failed m;
     results := results m ++ [r] |}.

(** [downloaded.filter(Boolean)] *)
Definition okAssetsOf (downloaded : list (option DownloadedAsset))
    : list DownloadedAsset :=
  omap id downloaded.

(** One turn of the loop over [articleResults]. *)
Definition processItem (w : World) (options : PackageOptions)
    (item : ArticleItem) (pkg : Package) (log : Log) : Completion Package * Log :=
  let url := itemUrl item in
  match itemOutcome item with
  | ExtractError error =>
      match safeArticleFolder w url None (itemIndex item) with
      | Throw m => (Throw m, log)
      | Normal folder =>
          let errorMd := errorMarkdown url error in
          (Normal {| tarEntries :=
                       tarEntries pkg
                         ++ [File (folder ++ js "/error.md") (utf8 errorMd) None None];
                     manifest := recordFailure (manifest pkg) (JobFailed url folder error);
                     totalAssets := totalAssets pkg |},
           log)
      end
  | ExtractOk result found =>
      match safeArticleFolder w url (title result) (itemIndex item) with
      | Throw m => (Throw m, log)
      | Normal folder =>
          let markdown := buildArticleMarkdown result in
          let assets := pickAssets found options in
          let items := assetItems assets in
          match mapLimit w (itemIndex item) url items
                  (completionOrder w (itemIndex item))
                  (replicate (length items) None)
                  {| usedPaths := ∅; totalBytes := totalAssets pkg |} log with
          | (Throw m, log) => (Throw m, log)
          | (Normal (downloaded, st), log) =>
              let okAssets := okAssetsOf downloaded in
              let markdown := rewriteText markdown okAssets in
              (Normal {| tarEntries :=
                           tarEntries pkg ++ assetEntries folder okAssets
                             ++ [File (folder ++ js "/index.md") (utf8 markdown) None None];
                         manifest :=
                           recordSuccess (manifest pkg)
                             (JobOk url folder (length (images assets))
                                    (length (files assets)) (length okAssets));
                         totalAssets := totalBytes st |},
               log)
          end
      end
  end.

Fixpoint processItems (w : World) (options : PackageOptions)
    (items : list ArticleItem) (pkg : Package) (log : Log)
    : Completion Package * Log :=
  match items with
  | [] => (Normal pkg, log)
  | item :: rest =>
      match processItem w options item pkg log with
      | (Throw m, log) => (Throw m, log)
      | (Normal pkg, log) => processItems w options rest pkg log
      end
  end.

(** The run once the request is validated: lines 292 to 352. *)
Definition packageRun (w : World) (options : PackageOptions)
    (urls : list jsstring) : Completion Package * Log :=
  let pkg :=
    {| tarEntries := [];
       manifest := {| total := length urls; success := 0; failed := 0; results := [] |};
       totalAssets := 0 |} in
  processItems w options (extractAll w 0 urls) pkg
    {| extractions := urls; requests := [] |}.

Definition manifestEntry (w : World) (m : Manifest) : TarEntry :=
  File (js "manifest.json") (utf8 (jsonStringify w m ++ [newline])) None None.

Definition createTarGz (w : World) (entries : list TarEntry) : buffer :=
  gzipSync w (createTar (dateNow w / 1000) entries).

Definition noLog : Log := {| extractions := []; requests := [] |}.

(** [handler]: the answer and the requests that were issued up to it (the
    workers that are left after a throw run on, see [step]).  The response
    headers are left out; the three messages of the validation and the
    default message of the [catch] are given by their code units. *)
Definition handler (w : World) (req : Request) : HandlerResult * Log :=
  if eqb (method req) (js "OPTIONS") then (End 200, noLog) else
  if negb (eqb (method req) (js "POST"))
  then (Json 405 (js "Method not allowed"), noLog) else
  let body := default emptyBody (reqBody req) in
  let urls := requestUrls body in
  let options := requestOptions body in
  if bool_decide (length urls = 0%nat) then
    (Json 400 [35831; 27714; 20307; 24517; 39035; 21253; 21547; 32; 117; 114;
               108; 32; 25110; 32; 117; 114; 108; 115], noLog)
  else if bool_decide (MAX_URLS < length urls)%nat then
    (Json 400 ([21333; 27425; 26368; 22810; 22788; 29702; 32]
                 ++ toDecimal (N.of_nat MAX_URLS) ++ [32; 20010; 32; 85; 82; 76]),
     noLog)
  else
    match firstInvalid w urls with
    | Some url =>
        (Json 400 ([26080; 25928; 30340; 32; 85; 82; 76; 58; 32] ++ url), noLog)
    | None =>
        match packageRun w options urls with
        | (Normal pkg, log) =>
            (Send 200 (createTarGz w (tarEntries pkg ++ [manifestEntry w (manifest pkg)])),
             log)
        | (Throw m, log) =>
            (Json 400 (orElse m [26080; 25928; 30340; 35831; 27714]), log)
        end
    end.

(** ** What the properties are stated with *)

(** [sanitizeSegment] before its trim and cut. *)
Definition collapsed (input : jsstring) : jsstring :=
  collapseWhiteSpace
    (map (fun c => if isPathUnsafe c then underscore else c)
         (filter (fun c => c <> 0) input)).

(** A byte. *)
Definition isByte (b : N) : Prop := b < 256.

(** The plain sum of a list of bytes. *)
Definition sumBytes (l : buffer) : N := foldr N.add 0 l.

(** A digit of the radix, as a character: ['0'] to ['7'] in radix 8. *)
Definition isDigitOf (radix : N) (c : N) : Prop := 48 ≤ c ∧ c < 48 + radix.

(** The call finds the path itself or one of its numbered candidates unused:
    it does not reach the hash-suffixed name. *)
Definition hasFreeCandidate (path : jsstring) (used : gset jsstring) : bool :=
  bool_decide (path ∉ used)
  || bool_decide (is_Some (dedupeLoop (baseOf path) (extOf path) used 2 998)).

(** No call of the sequence reaches the hash-suffixed name. *)
Fixpoint noFallback (paths : list jsstring) (used : gset jsstring) : bool :=
  match paths with
  | [] => true
  | p :: rest => hasFreeCandidate p used && noFallback rest (dedupePath p used).2
  end.

(** The hash-suffixed name of a path. *)
Definition hashedName (path : jsstring) : jsstring :=
  baseOf path ++ [underscore] ++ shortHash path ++ extOf path.

(** The call finds a name that is not taken: the path, one of its numbered
    candidates, or at least its hash-suffixed name. *)
Definition findsNewName (path : jsstring) (used : gset jsstring) : bool :=
  hasFreeCandidate path used || bool_decide (hashedName path ∉ used).

(** Every call of the sequence finds a name that is not taken. *)
Fixpoint allFindNewNames (paths : list jsstring) (used : gset jsstring) : bool :=
  match paths with
  | [] => true
  | p :: rest =>
      findsNewName p used && allFindNewNames rest (dedupePath p used).2
  end.

(** The numbered candidates of a path, from [_2] on. *)
Definition numbered (path : jsstring) (k : nat) : list jsstring :=
  map (fun i => candidate (baseOf path) (extOf path) (N.of_nat i)) (seq 2 k).

(** The first segment of an entry path, and what is below it. *)
Fixpoint topFolder (p : jsstring) : jsstring :=
  match p with
  | [] => []
  | c :: p' => if c =? slash then [] else c :: topFolder p'
  end.

Fixpoint belowTopFolder (p : jsstring) : jsstring :=
  match p with
  | [] => []
  | c :: p' => if c =? slash then p' else belowTopFolder p'
  end.

(** Where the assets of a kind go in a job's folder: [assets/images/] or
    [assets/files/]. *)
Definition assetPrefix (kind : AssetKind) : jsstring :=
  js "assets/" ++ kindName kind ++ [slash].

(** An entry below [assets/] in its job's folder. *)
Definition isAssetEntry (e : TarEntry) : bool :=
  startsWith (js "assets/") (belowTopFolder (entryPath e)).

Definition entrySize (e : TarEntry) : Z :=
  match e with
  | File _ content _ _ => Z.of_nat (length content)
  | Dir _ _ _ => 0
  end.

(** The bytes of the asset entries of an archive. *)
Definition assetBytes (entries : list TarEntry) : Z :=
  foldr (fun e acc => ((if isAssetEntry e then entrySize e else 0) + acc)%Z) 0%Z entries.

(** The bytes of a list of downloaded assets. *)
Definition contentBytes (assets : list DownloadedAsset) : Z :=
  foldr (fun a acc => (Z.of_nat (length (content a)) + acc)%Z) 0%Z assets.

Definition enabled (options : PackageOptions) (kind : AssetKind) : bool :=
  match kind with
  | Images => downloadImages options
  | Files => downloadFiles options
  end.

Definition recordUrl (r : JobRecord) : jsstring :=
  match r with JobFailed url _ _ => url | JobOk url _ _ _ _ => url end.

Definition recordFolder (r : JobRecord) : jsstring :=
  match r with JobFailed _ folder _ => folder | JobOk _ folder _ _ _ => folder end.

(** The zero-padded number in front of a job's folder. *)
Definition indexPrefix (index : nat) : jsstring :=
  padStart 3 48 (toDecimal (N.of_nat (index + 1))).

(** The three checks of the handler on the list of URLs. *)
Definition passesValidation (w : World) (urls : list jsstring) : Prop :=
  urls ≠ [] ∧ (length urls ≤ MAX_URLS)%nat ∧ firstInvalid w urls = None.

(** A network whose responses can be read to the end and come from URLs that
    parse: no download throws. *)
Definition noDownloadThrows (w : World) : Prop :=
  ∀ j i assetUrl referer response,
    fetch w j i assetUrl referer = Some response →
    (∃ bytes, body response = BodyBytes bytes) ∧ is_Some (parseURL w assetUrl).

(** What a job leaves in the archive: a failed one its [error.md], a
    successful one its assets, each below [assets/images/] or [assets/files/]
    of a kind that is enabled, and then its [index.md]. *)
Definition jobEntries (options : PackageOptions) (r : JobRecord)
    (es : list TarEntry) : Prop :=
  match r with
  | JobFailed url folder error =>
      es = [File (folder ++ js "/error.md") (utf8 (errorMarkdown url error)) None None]
  | JobOk url folder _ _ nDownloaded =>
      ∃ assets markdown,
        es = assetEntries folder assets
               ++ [File (folder ++ js "/index.md") (utf8 markdown) None None]
        ∧ length assets = nDownloaded
        ∧ Forall (fun a => ∃ kind, enabled options kind = true
                             ∧ assetPrefix kind `prefix_of` relativePath a) assets
  end.

(** An asset that comes from one of the items of a work list: its URL is
    the item's, and its path lies below the folder of the item's kind. *)
Definition fromItems (items : list (AssetKind * jsstring)) (a : DownloadedAsset)
    : Prop :=
  ∃ kind url, (kind, url) ∈ items ∧ originalUrl a = url
              ∧ assetPrefix kind `prefix_of` relativePath a.

(** The bytes of what a download returned. *)
Definition resultBytes (r : option DownloadedAsset) : Z :=
  match r with
  | Some a => Z.of_nat (length (content a))
  | None => 0
  end.

(** What [results] of [mapLimit] holds while the pool runs: the value that a
    download returned, at its index. *)
Definition taskResult (t : Task) : option DownloadedAsset :=
  match t with
  | Returned r => r
  | _ => None
  end.

Definition poolResults (p : Pool) : list (option DownloadedAsset) :=
  map taskResult (tasks p).

(** The bytes of the assets that the downloads of a pool have returned. *)
Definition returnedBytes (p : Pool) : Z :=
  contentBytes (okAssetsOf (poolResults p)).

(** The downloads of a pool that have returned. *)
Definition hasReturned (t : Task) : bool :=
  match t with
  | Returned _ => true
  | _ => false
  end.

Definition returnedCount (p : Pool) : nat :=
  length (filter (fun t => hasReturned t = true) (tasks p)).

(** What the call of [mapLimit] gives to the handler. *)
Definition poolOutcome (p : Pool)
    : Completion (list (option DownloadedAsset) * Shared) :=
  match failure p with
  | Some m => Throw m
  | None => Normal (poolResults p, shared p)
  end.

(** The pool stands where the workers stand once the downloads of [order]
    have run on, one after the other: what has been returned, the shared
    state and the cursor are the same, or the first throw is. *)
Definition scheduledBy (w : World) (j : nat) (referer : jsstring)
    (items : list (AssetKind * jsstring)) (st : Shared) (order : list nat)
    (p : Pool) : Prop :=
  let workers := Nat.max 1 ASSET_CONCURRENCY in
  let run :=
    runWorkers w j referer items order workers
               (replicate (length items) None) st noLog in
  match failure p with
  | Some m => run.1.1 = Throw m
  | None =>
      run.1 = (Normal (poolResults p, shared p), (workers + returnedCount p)%nat)
  end.

(** What a pool on its way keeps true: one task per item; the indices from
    the cursor on are not started; a response that is being read is the one
    that the request of its item was answered with. *)
Definition wellFormed (w : World) (j : nat) (referer : jsstring)
    (items : list (AssetKind * jsstring)) (p : Pool) : Prop :=
  length (tasks p) = length items
  ∧ (∀ i t, tasks p !! i = Some t → (cursor p ≤ i)%nat → t = Queued)
  ∧ ∀ i response, tasks p !! i = Some (Reading response) →
      ∃ kind assetUrl, items !! i = Some (kind, assetUrl)
        ∧ afterFetch w kind (fetch w j i assetUrl referer) = Some response.

(** A failed extraction gives a failure record with its error, a successful
    one a success record. *)
Definition recordMatches (outcome : Extracted) (r : JobRecord) : Prop :=
  match outcome, r with
  | ExtractError e, JobFailed _ _ e' => e' = e
  | ExtractOk _ _, JobOk _ _ _ _ _ => True
  | _, _ => False
  end.

(** What one turn of the loop adds for its item: a record with the item's
    URL and a folder made of the item's number and a name without a slash,
    and the entries of that record; the folder has no backslash either. *)
Definition jobOf (options : PackageOptions) (item : ArticleItem)
    (out : JobRecord * list TarEntry) : Prop :=
  ∃ base,
    recordUrl out.1 = itemUrl item
    ∧ recordFolder out.1 = indexPrefix (itemIndex item) ++ [underscore] ++ base
    ∧ (slash ∉ base)
    ∧ recordMatches (itemOutcome item) out.1
    ∧ jobEntries options out.1 out.2
    ∧ backslash ∉ recordFolder out.1.

(** The requests of a log are those of an earlier one and then some, all of
    kinds that are enabled. *)
Definition extends (options : PackageOptions) (log log' : Log) : Prop :=
  extractions log' = extractions log
  ∧ ∃ extra, requests log' = requests log ++ extra
             ∧ Forall (fun x => enabled options x.1 = true) extra.

(** What a turn of the loop has done when it ends normally. *)
Definition turn (options : PackageOptions) (item : ArticleItem)
    (pkg pkg' : Package) (out : JobRecord * list TarEntry) : Prop :=
  tarEntries pkg' = tarEntries pkg ++ out.2
  ∧ results (manifest pkg') = results (manifest pkg) ++ [out.1]
  ∧ total (manifest pkg') = total (manifest pkg)
  ∧ (success (manifest pkg') + failed (manifest pkg')
     = S (success (manifest pkg) + failed (manifest pkg)))%nat
  ∧ jobOf options item out
  ∧ (totalAssets pkg ≤ totalAssets pkg')%Z
  ∧ ((totalAssets pkg ≤ MAX_TOTAL_ASSET_BYTES)%Z →
     (totalAssets pkg' ≤ MAX_TOTAL_ASSET_BYTES)%Z)
  ∧ (assetBytes out.2 ≤ totalAssets pkg' - totalAssets pkg)%Z.

(** What the loop has done over a list of items when it ends normally: one
    output per item, in order. *)
Definition turns (options : PackageOptions) (items : list ArticleItem)
    (pkg pkg' : Package) (outs : list (JobRecord * list TarEntry)) : Prop :=
  Forall2 (jobOf options) items outs
  ∧ tarEntries pkg' = tarEntries pkg ++ mjoin outs.*2
  ∧ results (manifest pkg') = results (manifest pkg) ++ outs.*1
  ∧ total (manifest pkg') = total (manifest pkg)
  ∧ (success (manifest pkg') + failed (manifest pkg')
     = success (manifest pkg) + failed (manifest pkg) + length items)%nat
  ∧ (totalAssets pkg ≤ totalAssets pkg')%Z
  ∧ ((totalAssets pkg ≤ MAX_TOTAL_ASSET_BYTES)%Z →
     (totalAssets pkg' ≤ MAX_TOTAL_ASSET_BYTES)%Z)
  ∧ (assetBytes (mjoin outs.*2) ≤ totalAssets pkg' - totalAssets pkg)%Z.

(** What the record at [index] of the manifest stands for among the entries
    of the archive.  A failed job: the extraction of the URL at that index
    reported that error, and the folder holds the placeholder [error.md] and
    nothing else; its text is a heading, the URL, a label, the error and a
    newline.  A successful job: the extraction returned a result, and the
    folder holds an [index.md]. *)
Definition jobLeaves (w : World) (entries : list TarEntry) (index : nat)
    (r : JobRecord) : Prop :=
  match r with
  | JobFailed url folder error =>
      extractArticleWithAssets w index url = ExtractError error
      ∧ ∃ heading label,
          ∀ e, (e ∈ entries ∧ topFolder (entryPath e) = folder)
               ↔ e = File (folder ++ js "/error.md")
                          (utf8 (heading ++ url ++ label ++ error ++ [newline]))
                          None None
  | JobOk url folder _ _ _ =>
      (∃ result found,
          extractArticleWithAssets w index url = ExtractOk result found)
      ∧ ∃ content, File (folder ++ js "/index.md") content None None ∈ entries
  end.

(** A control character: C0, DEL and C1. *)
Definition isControl (c : N) : bool :=
  (c <? 32) || ((127 <=? c) && (c <=? 159)).

Definition startsWithWhiteSpace (s : jsstring) : bool :=
  match s with
  | c :: _ => isWhiteSpace c
  | [] => false
  end.

Definition endsWithWhiteSpace (s : jsstring) : bool :=
  startsWithWhiteSpace (reverse s).

(** Two white-space code units next to each other. *)
Fixpoint hasWhiteSpaceRun (s : jsstring) : bool :=
  match s with
  | a :: s' =>
      (isWhiteSpace a && startsWithWhiteSpace s') || hasWhiteSpaceRun s'
  | [] => false
  end.

End Download.

(** ** Concrete inputs *)

Module Examples.
Import JS Text Tar Download.

(** A directory of 120 bytes and a short file name: 126 bytes in all. *)
Definition deepPath : jsstring := replicate 120 97 ++ js "/b.txt".

(** 212 bytes with two slashes: [150 x a / 50 x b / 10 x c].  Cut at the
    first slash it is a prefix of 150 bytes and a name of 61; cut at the last
    one the prefix has 201 bytes. *)
Definition twoSlashPath : jsstring :=
  replicate 150 97 ++ [slash] ++ replicate 50 98 ++ [slash] ++ replicate 10 99.

(** A small world to run the handler in.  Its URL parser knows
    [scheme://host/path] and cuts the query and the fragment off the path. *)
Fixpoint untilAny (stops : list N) (s : jsstring) : jsstring :=
  match s with
  | [] => []
  | c :: s' => if bool_decide (c ∈ stops) then [] else c :: untilAny stops s'
  end.

Definition demoParseURL (s : jsstring) : option URL :=
  let scheme := untilAny [58] s in
  let rest := drop (length scheme) s in
  if startsWith (js "://") rest then
    let rest := drop 3 rest in
    let host := untilAny [47; 63; 35] rest in
    let path := untilAny [63; 35] (drop (length host) rest) in
    match host with
    | [] => None
    | _ => Some {| protocol := scheme ++ [58]; hostname := host;
                   pathname := orElse path [slash] |}
    end
  else None.

Definition demoLowerCase (s : jsstring) : jsstring :=
  map (fun c => if (65 <=? c) && (c <=? 90) then c + 32 else c) s.

Definition articleUrl : jsstring := js "https://blog.example/post".
Definition brokenUrl : jsstring := js "https://down.example/gone".
Definition plainImage : jsstring := js "http://h/a.png".
Definition queryImage : jsstring := js "http://h/a.png?v=2".
Definition paper : jsstring := js "http://h/docs/paper.pdf".

(** The article has two images, the second being the first with a query,
    and one file; the other page cannot be extracted. *)
Definition demoExtract (index : nat) (url : jsstring) : Extracted :=
  if eqb url articleUrl then
    ExtractOk
      {| title := Some (js "A post"); author := None; date := None;
         resultUrl := url;
         resultContent := js "![a](http://h/a.png) ![b](http://h/a.png?v=2)" |}
      {| images := [plainImage; queryImage]; files := [paper] |}
  else ExtractError (js "boom").

(** Every URL that parses is served, with three bytes. *)
Definition demoFetch (j i : nat) (assetUrl referer : jsstring) : option Response :=
  match demoParseURL assetUrl with
  | None => None
  | Some _ =>
      Some {| ok := true;
              contentType := Some (if endsWith (js ".pdf") assetUrl
                                   then js "application/pdf" else js "image/png");
              contentDisposition := None;
              body := BodyBytes [1; 2; 3] |}
  end.

Definition demoWorld : World :=
  {| parseURL := demoParseURL;
     decodeURIComponent := Some;
     toLowerCase := demoLowerCase;
     matchFilenameStar := fun _ => None;
     matchFilenamePlain := fun _ => None;
     extractArticleWithAssets := demoExtract;
     fetch := demoFetch;
     completionOrder := fun _ => [0; 1; 2]%nat;
     jsonStringify := fun m => toDecimal (N.of_nat (total m));
     gzipSync := fun b => b;
     dateNow := 1700000000000 |}.

(** The article's text and its two images as [downloadAsset] returns them in
    this world. *)
Definition demoText : jsstring :=
  js "![a](http://h/a.png) ![b](http://h/a.png?v=2)".

Definition demoAssets : list DownloadedAsset :=
  [ {| originalUrl := plainImage;
       relativePath := js "assets/images/h/a.png";
       content := [1; 2; 3] |};
    {| originalUrl := queryImage;
       relativePath := js "assets/images/h/a__c8ef17d874.png";
       content := [1; 2; 3] |} ].

(** The run over the article and the broken page, everything enabled. *)
Definition demoRun : Completion Package * Log :=
  Eval vm_compute in
    packageRun demoWorld {| downloadImages := true; downloadFiles := true |}
      [articleUrl; brokenUrl].

Definition demoPackage : Package :=
  match demoRun.1 with
  | Normal pkg => pkg
  | Throw _ =>
      {| tarEntries := [];
         manifest := {| total := 0; success := 0; failed := 0; results := [] |};
         totalAssets := 0 |}
  end.

(** A work list that names the same image twice. *)
Definition twinItems : list (AssetKind * jsstring) :=
  [(Images, plainImage); (Images, plainImage)].

Definition post (urls : list jsstring) (images files : JSValue) : Request :=
  {| method := js "POST";
     reqBody := Some {| bodyUrls := Some urls; bodyUrl := None;
                        bodyDownloadImages := images;
                        bodyDownloadFiles := files |} |}.

End Examples.

(** * Properties *)

(** ** Views

    What the statements about the code are written with. *)

Module Views.
Import JS Text Tar Download.

(** A lower-case hexadecimal digit, as a character. *)
Definition isHexDigit (c : N) : Prop := (48 ≤ c ∧ c ≤ 57) ∨ (97 ≤ c ∧ c ≤ 102).

(** The bytes of a header field: [len] of them from [offset]. *)
Definition field (offset len : nat) (header : buffer) : buffer :=
  take len (drop offset header).

(** One byte per code unit, its low eight bits: what an ['ascii'] write
    stores. *)
Definition lowBytes (s : jsstring) : buffer := map (fun c => c mod 256) s.

(** A text field: the bytes, cut at the width of the field or followed by
    NULs up to it. *)
Definition nulPadded (len : nat) (bytes : buffer) : buffer :=
  take len (bytes ++ replicate len 0).

(** A numeric field of a header: octal digits that denote [v], then a NUL. *)
Definition readsOctal (f : buffer) (v : N) : Prop :=
  ∃ digits, f = digits ++ [0] ∧ Forall (isDigitOf 8) digits
            ∧ valueOfDigits 8 digits = v.

(** The entries that [createTar] encodes, in order: the directories it adds,
    then the entries it was given, their paths normalised, without those
    whose path is empty. *)
Definition keptEntries (entries : list TarEntry) : list TarEntry :=
  filter (fun e => isNonEmpty (entryPath e) = true)
         (map (fun e => withPath (toPosixPath (entryPath e)) e) entries).

Definition archiveEntries (entries : list TarEntry) : list TarEntry :=
  addParentDirs (map entryPath (keptEntries entries)) ++ keptEntries entries.

(** The blocks of 512 bytes that an entry takes: its header, and its
    content rounded up. *)
Definition blocksOf (e : TarEntry) : nat :=
  match e with
  | Dir _ _ _ => 1
  | File _ content _ _ => 1 + (length content + 511) / 512
  end.

Definition blocksOfAll (es : list TarEntry) : nat :=
  foldr (fun e n => (blocksOf e + n)%nat) 0%nat es.

(** The parts of a path as [addParentDirs] takes them. *)
Definition pathParts (p : jsstring) : list jsstring :=
  filter (fun x => isNonEmpty x = true) (split [slash] (toPosixPath p)).

(** The directory made of the first [k] parts. *)
Definition dirOf (k : nat) (parts : list jsstring) : jsstring :=
  join [slash] (take k parts) ++ [slash].

(** The order of the code units, as a relation. *)
Definition before (a b : jsstring) : Prop := ltb a b = true.

(** A string as [sanitizeSegment] leaves it, but for its end: no NUL, none
    of the nine characters, single spaces for white space, nothing in front,
    at most 80 code units. *)
Definition tidy (s : jsstring) : Prop :=
  (∀ c, c ∈ s → c ≠ 0 ∧ isPathUnsafe c = false ∧ (isWhiteSpace c = true → c = 32))
  ∧ hasWhiteSpaceRun s = false
  ∧ startsWithWhiteSpace s = false
  ∧ (length s ≤ 80)%nat.

(** The parts that [sanitizePath] joins: the pieces of the input between
    slashes and backslashes, each sanitised, without the empty ones. *)
Definition sanitizedParts (input : jsstring) : list jsstring :=
  filter (fun x => isNonEmpty x = true)
    (map sanitizeSegment
       (filter (fun x => isNonEmpty x = true)
          (split [slash]
             (map (fun c => if c =? backslash then slash else c) input)))).

(** [u.pathname.split('/').slice(0, -1).join('/')]: a path without its last
    piece. *)
Definition directoryOf (pathname : jsstring) : jsstring :=
  join [slash] (take (length (split [slash] pathname) - 1)
                     (split [slash] pathname)).

(** The two texts that a content type naming an inherited property of the
    table adds to a file name. *)
Definition inheritedTexts : list jsstring :=
  [js "function Object() { [native code] }"; js "[object Object]"].

(** The lines of an article's text above its content: the title when there
    is one, the source, the author and the date when there are, an empty
    line and the rule. *)
Definition headerLines (result : ExtractResult) : list jsstring :=
  lineIf (js "# ") (title result)
  ++ [ [42; 42; 26469; 28304; 42; 42; 58; 32] ++ resultUrl result ]
  ++ lineIf [42; 42; 20316; 32773; 42; 42; 58; 32] (author result)
  ++ lineIf [42; 42; 26085; 26399; 42; 42; 58; 32] (date result)
  ++ [ []; js "---" ].

(** Every download of the pool has returned. *)
Definition allReturned (p : Pool) : Prop :=
  Forall (fun t => ∃ r, t = Returned r) (tasks p).

(** What a pool keeps true besides [wellFormed]: the cursor stays within the
    list and has passed every task that was started; no more workers are
    taken than there are; only a pool that has failed holds a task that has
    thrown; an asset that was returned stands at the index of its item. *)
Definition orderly (items : list (AssetKind * jsstring)) (p : Pool) : Prop :=
  (cursor p ≤ length items)%nat
  ∧ (∀ i, (i < cursor p)%nat → tasks p !! i ≠ Some Queued)
  ∧ (workersTaken p ≤ Nat.max 1 ASSET_CONCURRENCY)%nat
  ∧ (failure p = None → ∀ i m, tasks p !! i ≠ Some (Rejected m))
  ∧ ∀ i asset, tasks p !! i = Some (Returned (Some asset)) →
      ∃ kind, items !! i = Some (kind, originalUrl asset).





End Views.

(** ** A network that fails *)

Module FailureExamples.
Import JS Text Tar Download Examples.
(** The demo world with a network whose bodies cannot be read. *)
Definition brokenBodies : World :=
  {| parseURL := parseURL demoWorld;
     decodeURIComponent := decodeURIComponent demoWorld;
     toLowerCase := toLowerCase demoWorld;
     matchFilenameStar := matchFilenameStar demoWorld;
     matchFilenamePlain := matchFilenamePlain demoWorld;
     extractArticleWithAssets := extractArticleWithAssets demoWorld;
     fetch := fun _ _ _ _ =>
       Some {| ok := true; contentType := None; contentDisposition := None;
               body := BodyError (js "terminated") |};
     completionOrder := completionOrder demoWorld;
     jsonStringify := jsonStringify demoWorld;
     gzipSync := gzipSync demoWorld;
     dateNow := dateNow demoWorld |}.

(** Eight images, [http://h/0.png] to [http://h/7.png]. *)
Definition eightImages : list (AssetKind * jsstring) :=
  map (fun i => (Images, js "http://h/" ++ toDecimal (N.of_nat i) ++ js ".png"))
      (seq 0 8).

(** The demo world with a network on which the body of the second download
    of a job cannot be read. *)
Definition secondBodyBroken : World :=
  {| parseURL := parseURL demoWorld;
     decodeURIComponent := decodeURIComponent demoWorld;
     toLowerCase := toLowerCase demoWorld;
     matchFilenameStar := matchFilenameStar demoWorld;
     matchFilenamePlain := matchFilenamePlain demoWorld;
     extractArticleWithAssets := extractArticleWithAssets demoWorld;
     fetch := fun j i assetUrl referer =>
       if (i =? 1)%nat
       then Some {| ok := true; contentType := None; contentDisposition := None;
                    body := BodyError (js "terminated") |}
       else fetch demoWorld j i assetUrl referer;
     completionOrder := completionOrder demoWorld;
     jsonStringify := jsonStringify demoWorld;
     gzipSync := gzipSync demoWorld;
     dateNow := dateNow demoWorld |}.

End FailureExamples.

(** ** The platform's functions on known values *)

Module PlatformFacts.
Import JS Text Sha256.

(** The three vectors of the standard: one block, the empty message, two
    blocks. *)
Example sha256_abc :
  sha256hex (js "abc")
  = js "ba7816bf8f01cfea414140de5dae2223b00361a396177a9cb410ff61f20015ad".
Proof. by vm_compute. Qed.

Example sha256_empty :
  sha256hex []
  = js "e3b0c44298fc1c149afbf4c8996fb92427ae41e4649b934ca495991b7852b855".
Proof. by vm_compute. Qed.

Example sha256_two_blocks :
  sha256hex (js "abcdbcdecdefdefgefghfghighijhijkijkljklmklmnlmnomnopnopq")
  = js "248d6a61d20638b8e5c026930c3e6039a33ce45964ff2167f6ecedd419db06c1".
Proof. by vm_compute. Qed.

(** Two, three and four bytes, the last from a surrogate pair; a surrogate
    on its own is written as U+FFFD. *)
Example utf8_lengths :
  utf8 [233; 8364; 55348; 56606] = [195; 169; 226; 130; 172; 240; 157; 132; 158]
  ∧ utf8 [55348; 97] = [239; 191; 189; 97]
  ∧ byteLength [20013; 25991] = 6%nat.
Proof. by vm_compute. Qed.

Example toString_examples :
  toStringRadix 8 420 = js "644" ∧ toStringRadix 8 0 = js "0"
  ∧ toDecimal 1000 = js "1000" ∧ padStart 3 48 (toDecimal 7) = js "007".
Proof. by vm_compute. Qed.

End PlatformFacts.

(** ** Strings *)

Module StringFacts.
Import JS.

Lemma trimStart_suffix s : trimStart s `suffix_of` s.
Proof.
  induction s as [|c s IH]; simpl; [done|].
  destruct (isWhiteSpace c); [by apply suffix_cons_r|done].
Qed.

Lemma trimEnd_prefix s : trimEnd s `prefix_of` s.
Proof.
  unfold trimEnd. apply prefix_suffix_reverse.
  rewrite reverse_involutive. apply trimStart_suffix.
Qed.

Lemma trimStart_head s : Download.startsWithWhiteSpace (trimStart s) = false.
Proof.
  induction s as [|c s IH]; simpl; [done|].
  destruct (isWhiteSpace c) eqn:E; [done|]. simpl. by rewrite E.
Qed.

Lemma trimEnd_last s : Download.endsWithWhiteSpace (trimEnd s) = false.
Proof.
  unfold Download.endsWithWhiteSpace, trimEnd.
  rewrite reverse_involutive. apply trimStart_head.
Qed.

Lemma prefix_head (r t : jsstring) :
  r `prefix_of` t →
  Download.startsWithWhiteSpace t = false →
  Download.startsWithWhiteSpace r = false.
Proof. intros [k ->] H. destruct r; [done|]. exact H. Qed.

Lemma run_app (a b : jsstring) :
  Download.hasWhiteSpaceRun (a ++ b) = false →
  Download.hasWhiteSpaceRun a = false ∧ Download.hasWhiteSpaceRun b = false.
Proof.
  induction a as [|x a IH]; simpl; [done|].
  intros H. apply orb_false_iff in H as [H1 H2].
  destruct (IH H2) as [Ha Hb]. split; [|done].
  rewrite Ha, orb_false_r.
  destruct (isWhiteSpace x); [|done]. simpl in *.
  destruct a; [done|]. exact H1.
Qed.

Lemma run_prefix (r t : jsstring) :
  r `prefix_of` t →
  Download.hasWhiteSpaceRun t = false → Download.hasWhiteSpaceRun r = false.
Proof. intros [k ->] H. by apply run_app in H as [? _]. Qed.

Lemma run_suffix (r t : jsstring) :
  r `suffix_of` t →
  Download.hasWhiteSpaceRun t = false → Download.hasWhiteSpaceRun r = false.
Proof. intros [k ->] H. by apply run_app in H as [_ ?]. Qed.

(** What [collapseAux] writes: a space, or a code unit of the input that is
    not white space. *)
Lemma collapseAux_elem b s c :
  c ∈ collapseAux b s → c = 32 ∨ (c ∈ s ∧ isWhiteSpace c = false).
Proof.
  revert b. induction s as [|x s IH]; intros b; simpl.
  - by intros ?%elem_of_nil.
  - destruct (isWhiteSpace x) eqn:E.
    + destruct b.
      * intros H. destruct (IH _ H) as [?|[? ?]]; [by left|right].
        split; [by apply elem_of_cons; right|done].
      * intros [->|H]%elem_of_cons; [by left|].
        destruct (IH _ H) as [?|[? ?]]; [by left|right].
        split; [by apply elem_of_cons; right|done].
    + intros [->|H]%elem_of_cons.
      * right. split; [by apply elem_of_cons; left|done].
      * destruct (IH _ H) as [?|[? ?]]; [by left|right].
        split; [by apply elem_of_cons; right|done].
Qed.

(** After a run has been replaced, the next code unit written is not white
    space; and the output has no two white-space code units in a row. *)
Lemma collapseAux_run b s :
  Download.hasWhiteSpaceRun (collapseAux b s) = false
  ∧ Download.startsWithWhiteSpace (collapseAux true s) = false.
Proof.
  revert b. induction s as [|x s IH]; intros b; simpl; [done|].
  destruct (isWhiteSpace x) eqn:E.
  - destruct (IH true) as [Hr Hh]. split; [|done].
    destruct b; [done|]. simpl. by rewrite Hh, Hr.
  - destruct (IH false) as [Hr _]. simpl. rewrite E. simpl. done.
Qed.

End StringFacts.

(** ** [sanitizeSegment] *)

Module SanitizeFacts.
Import JS Download StringFacts.

Lemma sanitizeSegment_unfold input :
  sanitizeSegment input = take 80 (trim (collapsed input)).
Proof. reflexivity. Qed.

Lemma sanitizeSegment_sub input c :
  c ∈ sanitizeSegment input → c ∈ collapsed input.
Proof.
  rewrite sanitizeSegment_unfold. intros H.
  apply elem_of_take in H as (i & H & _). apply list_elem_of_lookup_2 in H.
  unfold trim in H.
  eapply elem_of_prefix in H; [|apply trimEnd_prefix].
  eapply elem_of_suffix; [exact H|apply trimStart_suffix].
Qed.

Lemma collapsed_elem input c :
  c ∈ collapsed input →
  c ≠ 0 ∧ isPathUnsafe c = false ∧ (isWhiteSpace c = true → c = 32).
Proof.
  unfold collapsed, collapseWhiteSpace. intros H.
  apply collapseAux_elem in H as [->|[H Hws]]; [done|].
  split_and!; [| |by rewrite Hws].
  - apply list_elem_of_fmap in H as (x & -> & Hx).
    apply list_elem_of_filter in Hx as [Hx _].
    destruct (isPathUnsafe x); [done|exact Hx].
  - apply list_elem_of_fmap in H as (x & -> & Hx).
    destruct (isPathUnsafe x) eqn:E; [done|exact E].
Qed.

Lemma sanitizeSegment_elem input c :
  c ∈ sanitizeSegment input →
  c ≠ 0 ∧ isPathUnsafe c = false ∧ (isWhiteSpace c = true → c = 32).
Proof. intros H. apply (collapsed_elem input), sanitizeSegment_sub, H. Qed.

Lemma sanitizeSegment_no_slash input :
  (Tar.slash ∉ sanitizeSegment input) ∧ (Tar.backslash ∉ sanitizeSegment input).
Proof.
  split; intros H; apply sanitizeSegment_elem in H as (_ & H & _);
    by vm_compute in H.
Qed.

Lemma sanitizeSegment_length input : (length (sanitizeSegment input) ≤ 80)%nat.
Proof. rewrite sanitizeSegment_unfold, length_take. lia. Qed.

(** C8 (as amended): the output of [sanitizeSegment] has no NUL and none of
    the nine path-unsafe characters, its only white space is single spaces
    (no two in a row, none in front), and it has at most 80 code units; it
    ends in white space only when it was cut at 80. *)
Theorem sanitizeSegment_safe (input : jsstring) :
  let r := sanitizeSegment input in
  (∀ c, c ∈ r → c ≠ 0 ∧ isPathUnsafe c = false ∧ (isWhiteSpace c = true → c = 32))
  ∧ hasWhiteSpaceRun r = false
  ∧ startsWithWhiteSpace r = false
  ∧ (length r ≤ 80)%nat
  ∧ (endsWithWhiteSpace r = false ∨ length r = 80%nat).
Proof.
  intros r. subst r. split_and!.
  - intros c. apply sanitizeSegment_elem.
  - rewrite sanitizeSegment_unfold.
    eapply run_prefix; [apply prefix_take|].
    eapply run_prefix; [apply trimEnd_prefix|].
    eapply run_suffix; [apply trimStart_suffix|].
    apply (collapseAux_run false).
  - rewrite sanitizeSegment_unfold.
    eapply prefix_head; [apply prefix_take|].
    eapply prefix_head; [apply trimEnd_prefix|].
    apply trimStart_head.
  - apply sanitizeSegment_length.
  - rewrite sanitizeSegment_unfold.
    destruct (decide (length (trim (collapsed input)) ≤ 80)%nat) as [Hle|Hgt].
    + left. rewrite take_ge by done. apply trimEnd_last.
    + right. rewrite length_take. lia.
Qed.

(** C8 (as stated) fails: U+0001 is a control character and is kept. *)
Lemma sanitizeSegment_keeps_control :
  sanitizeSegment [1] = [1] ∧ isControl 1 = true.
Proof. split; reflexivity. Qed.

(** The cut comes after the trim: a space at position 80 stays in the end. *)
Example sanitizeSegment_cut_after_trim :
  endsWithWhiteSpace (sanitizeSegment (replicate 79 97 ++ js " b")) = true.
Proof. vm_compute. reflexivity. Qed.

End SanitizeFacts.

(** ** [splitTarPath] *)

Module SplitFacts.
Import JS Text Tar.

(** The index that [lastIndexOfFrom] returns is the one it was given, or the
    place of an occurrence. *)
Lemma lastIndexOfFrom_spec c s i found :
  let r := lastIndexOfFrom c s i found in
  r = found ∨ ((i ≤ r)%Z ∧ s !! Z.to_nat (r - i) = Some c).
Proof.
  revert i found. induction s as [|x s IH]; intros i found; simpl; [by left|].
  destruct (IH (i + 1)%Z (if x =? c then i else found)) as [E|[Hle Hl]].
  - rewrite E. destruct (x =? c) eqn:Hx; [|by left].
    right. apply N.eqb_eq in Hx as ->. split; [lia|].
    by replace (i - i)%Z with 0%Z by lia.
  - right. split; [lia|].
    replace (Z.to_nat (lastIndexOfFrom c s (i + 1) (if x =? c then i else found) - i))
      with (S (Z.to_nat (lastIndexOfFrom c s (i + 1) (if x =? c then i else found) - (i + 1))))
      by lia.
    exact Hl.
Qed.

Lemma lastIndexOf_lookup c s :
  (0 ≤ lastIndexOf c s)%Z → s !! Z.to_nat (lastIndexOf c s) = Some c.
Proof.
  intros H. unfold lastIndexOf in *.
  destruct (lastIndexOfFrom_spec c s 0 (-1)) as [E|[_ Hl]]; [lia|].
  by rewrite Z.sub_0_r in Hl.
Qed.

Lemma stripLeadingSlashes_head s : head (stripLeadingSlashes s) ≠ Some slash.
Proof.
  induction s as [|c s IH]; simpl; [done|].
  destruct (c =? slash) eqn:E; [done|]. simpl.
  intros [= ->]. by rewrite N.eqb_refl in E.
Qed.

(** The normalised path does not begin with a slash, so its last slash, when
    it has one, is not at index 0. *)
Lemma lastIndexOf_toPosixPath path :
  (0 ≤ lastIndexOf slash (toPosixPath path))%Z →
  (0 < lastIndexOf slash (toPosixPath path))%Z.
Proof.
  intros H. pose proof (lastIndexOf_lookup _ _ H) as Hl.
  destruct (decide (lastIndexOf slash (toPosixPath path) = 0%Z)) as [E|]; [|lia].
  rewrite E in Hl. unfold toPosixPath in Hl.
  pose proof (stripLeadingSlashes_head
                (map (fun c => if c =? backslash then slash else c) path)) as Hh.
  destruct (stripLeadingSlashes _) as [|c t]; [done|].
  simpl in Hl, Hh. congruence.
Qed.

Lemma split_at_index (s : jsstring) (c : N) (idx : Z) :
  (0 ≤ idx)%Z → s !! Z.to_nat idx = Some c →
  s = sliceTo idx s ++ [c] ++ sliceFrom (idx + 1) s.
Proof.
  intros H Hl. unfold sliceTo, sliceFrom.
  replace (Z.to_nat (idx + 1)) with (S (Z.to_nat idx)) by lia.
  rewrite <- (take_drop_middle s _ c Hl) at 1. done.
Qed.

(** C3 (as amended): a path of at most 100 bytes goes whole into the name with
    an empty prefix; a longer one whose part after its last slash has at
    most 100 bytes and whose part before it has at most 155 is split there,
    prefix and name, and does not get the synthetic name. *)
Theorem splitTarPath_last_slash (path : jsstring) :
  let normalized := toPosixPath path in
  let idx := lastIndexOf slash normalized in
  ((byteLength normalized ≤ 100)%nat →
     splitTarPath path = {| name := normalized; prefix := [] |})
  ∧ ((100 < byteLength normalized)%nat →
     (0 ≤ idx)%Z →
     (byteLength (sliceFrom (idx + 1) normalized) ≤ 100)%nat →
     (byteLength (sliceTo idx normalized) ≤ 155)%nat →
     splitTarPath path
       = {| name := sliceFrom (idx + 1) normalized; prefix := sliceTo idx normalized |}
     ∧ sliceTo idx normalized ≠ []
     ∧ normalized = sliceTo idx normalized ++ [slash] ++ sliceFrom (idx + 1) normalized).
Proof.
  intros normalized idx. split.
  - intros H. unfold splitTarPath. fold normalized.
    by rewrite bool_decide_eq_true_2.
  - intros Hlong Hidx Hname Hprefix.
    pose proof (lastIndexOf_toPosixPath path Hidx) as Hpos. fold normalized idx in Hpos.
    split_and!.
    + unfold splitTarPath. fold normalized idx.
      rewrite bool_decide_eq_false_2 by lia.
      rewrite (bool_decide_eq_true_2 _ Hpos).
      by rewrite !bool_decide_eq_true_2.
    + unfold sliceTo. intros E. apply (f_equal length) in E.
      rewrite length_take in E. simpl in E.
      pose proof (lastIndexOf_lookup _ _ Hidx) as Hl. fold normalized idx in Hl.
      apply lookup_lt_Some in Hl. lia.
    + apply split_at_index; [done|]. by apply lastIndexOf_lookup.
Qed.

Lemma splitTarPath_last_slash_witness :
  splitTarPath (js "a/b.txt") = {| name := js "a/b.txt"; prefix := [] |}
  ∧ splitTarPath Examples.deepPath
    = {| name := js "b.txt"; prefix := replicate 120 97 |}.
Proof.
  split.
  - apply (proj1 (splitTarPath_last_slash (js "a/b.txt"))).
    vm_compute. lia.
  - refine (proj1 (proj2 (splitTarPath_last_slash Examples.deepPath) _ _ _ _));
      vm_compute; first [lia | discriminate].
Defined.

(** C3 (as stated) fails: this path splits cleanly at its first slash, into
    150 and 61 bytes, and still gets the synthetic name, because only the
    last slash is tried. *)
Lemma splitTarPath_only_last_slash :
  toPosixPath Examples.twoSlashPath = Examples.twoSlashPath
  ∧ byteLength Examples.twoSlashPath = 212%nat
  ∧ Examples.twoSlashPath
    = replicate 150 97 ++ [slash] ++ (replicate 50 98 ++ [slash] ++ replicate 10 99)
  ∧ byteLength (replicate 150 97) = 150%nat
  ∧ byteLength (replicate 50 98 ++ [slash] ++ replicate 10 99) = 61%nat
  ∧ splitTarPath Examples.twoSlashPath
    = {| name := js "path_8f16f3687eb166a2"; prefix := [] |}.
Proof. split_and!; vm_compute; reflexivity. Qed.

End SplitFacts.

(** ** The handler: options and validation *)

Module HandlerFacts.
Import JS Text Tar Download.


Lemma firstInvalid_None w urls :
  firstInvalid w urls = None → ∀ url, url ∈ urls → validUrl w url = true.
Proof.
  induction urls as [|u urls IH]; simpl.
  - by intros _ url ?%elem_of_nil.
  - destruct (validUrl w u) eqn:E; [|done].
    intros H url [->|Hin]%elem_of_cons; [done|]. by apply IH.
Qed.

(** The URLs that the claim speaks of: one that does not parse, or one whose
    protocol is neither of the two. *)
Lemma validUrl_false w url :
  parseURL w url = None
  ∨ (∃ u, parseURL w url = Some u
          ∧ protocol u ≠ js "http:" ∧ protocol u ≠ js "https:") →
  validUrl w url = false.
Proof.
  unfold validUrl, eqb. intros [->|(u & -> & H1 & H2)]; [done|].
  by rewrite !bool_decide_eq_false_2.
Qed.

(** C9: a POST whose URL list is empty, has more than 20 URLs, or has a URL
    that does not parse or is not http(s), is answered with status 400; no
    extraction and no request has been issued, and no archive is sent. *)
Theorem handler_rejects_invalid (w : World) (req : Request) :
  method req = js "POST" →
  let urls := requestUrls (default emptyBody (reqBody req)) in
  (urls = []
   ∨ (20 < length urls)%nat
   ∨ ∃ url, url ∈ urls
       ∧ (parseURL w url = None
          ∨ ∃ u, parseURL w url = Some u
                 ∧ protocol u ≠ js "http:" ∧ protocol u ≠ js "https:")) →
  ∃ error, handler w req = (Json 400 error, noLog).
Proof.
  intros Hm urls H. unfold handler. rewrite Hm.
  change (eqb (js "POST") (js "OPTIONS")) with false.
  change (negb (eqb (js "POST") (js "POST"))) with false.
  cbv beta iota. fold urls.
  case_bool_decide; [by eexists|].
  case_bool_decide; [by eexists|].
  destruct (firstInvalid w urls) as [bad|] eqn:E; [by eexists|].
  exfalso. destruct H as [->|[H|(url & Hin & Hbad)]].
  - done.
  - unfold MAX_URLS in *. lia.
  - apply validUrl_false in Hbad.
    by rewrite (firstInvalid_None w urls E url Hin) in Hbad.
Qed.

Lemma handler_rejects_invalid_witness :
  ∃ error,
    handler Examples.demoWorld
      (Examples.post [Examples.articleUrl; js "ftp://files.example/a.zip"]
                     JSUndefined JSUndefined)
    = (Json 400 error, noLog).
Proof.
  apply handler_rejects_invalid; [reflexivity|].
  right; right. exists (js "ftp://files.example/a.zip"). split.
  - apply elem_of_cons; right. apply elem_of_cons; by left.
  - right. eexists. split; [vm_compute; reflexivity|]. split; discriminate.
Defined.

End HandlerFacts.

(** ** Digits *)

Module DigitFacts.
Import JS Text Download.

Lemma valueOfDigits_foldl radix (s : jsstring) a :
  foldl (fun acc c => acc * radix + digitValue c) a s
  = a * radix ^ N.of_nat (length s) + valueOfDigits radix s.
Proof.
  unfold valueOfDigits. revert a.
  induction s as [|c s IH]; intros a; simpl foldl.
  - simpl. lia.
  - rewrite (IH (a * radix + digitValue c)), (IH (0 * radix + digitValue c)).
    replace (N.of_nat (length (c :: s))) with (N.succ (N.of_nat (length s)))
      by (simpl; lia).
    rewrite N.pow_succ_r'. lia.
Qed.

Lemma valueOfDigits_cons radix c (s : jsstring) :
  valueOfDigits radix (c :: s)
  = digitValue c * radix ^ N.of_nat (length s) + valueOfDigits radix s.
Proof.
  unfold valueOfDigits at 1. simpl foldl. rewrite valueOfDigits_foldl. lia.
Qed.

Lemma digitValue_digitChar d : d < 36 → digitValue (digitChar d) = d.
Proof.
  intros H. unfold digitValue, digitChar.
  destruct (d <? 10) eqn:E.
  - apply N.ltb_lt in E.
    replace (48 + d <? 58) with true by (symmetry; apply N.ltb_lt; lia). lia.
  - apply N.ltb_ge in E.
    replace (87 + d <? 58) with false by (symmetry; apply N.ltb_ge; lia). lia.
Qed.

(** With fuel for every bit of [n], the digits written in front of [acc]
    denote [n]. *)
Lemma toRadixAux_value radix fuel n acc :
  2 ≤ radix → radix ≤ 36 → n < 2 ^ N.of_nat fuel →
  valueOfDigits radix (toRadixAux radix fuel n acc)
  = n * radix ^ N.of_nat (length acc) + valueOfDigits radix acc.
Proof.
  intros Hr Hr'. revert n acc.
  induction fuel as [|fuel IH]; intros n acc Hn; simpl toRadixAux.
  - simpl in Hn. assert (n = 0) as -> by lia. lia.
  - assert (Hdm : n = radix * (n / radix) + n mod radix)
      by (apply N.div_mod; lia).
    assert (Hm : n mod radix < radix) by (apply N.mod_lt; lia).
    destruct (n / radix =? 0) eqn:E.
    + apply N.eqb_eq in E. rewrite valueOfDigits_cons.
      rewrite digitValue_digitChar by lia.
      rewrite E in Hdm. assert (Hnm : n mod radix = n) by lia.
      rewrite Hnm. lia.
    + apply N.eqb_neq in E. rewrite IH.
      * rewrite valueOfDigits_cons, digitValue_digitChar by lia.
        replace (N.of_nat (length (digitChar (n mod radix) :: acc)))
          with (N.succ (N.of_nat (length acc))) by (simpl; lia).
        rewrite N.pow_succ_r'.
        rewrite Hdm at 3. lia.
      * replace (N.of_nat (S fuel)) with (N.succ (N.of_nat fuel)) in Hn by lia.
        rewrite N.pow_succ_r' in Hn.
        assert (n / radix ≤ n / 2).
        { apply N.div_le_compat_l. lia. }
        assert (n / 2 < 2 ^ N.of_nat fuel).
        { apply N.Div0.div_lt_upper_bound. lia. }
        lia.
Qed.

Lemma toStringRadix_value radix n :
  2 ≤ radix → radix ≤ 36 → valueOfDigits radix (toStringRadix radix n) = n.
Proof.
  intros Hr Hr'. unfold toStringRadix. rewrite toRadixAux_value; [| done | done |].
  - simpl. unfold valueOfDigits. simpl. lia.
  - destruct (decide (n = 0)) as [->|Hn]; [simpl; lia|].
    replace (N.of_nat (S (N.to_nat (N.log2 n)))) with (N.succ (N.log2 n)) by lia.
    apply N.log2_spec. lia.
Qed.

Lemma toDecimal_inj n m : toDecimal n = toDecimal m → n = m.
Proof.
  intros H. apply (f_equal (valueOfDigits 10)) in H.
  unfold toDecimal in H. by rewrite !toStringRadix_value in H by lia.
Qed.

Lemma toRadixAux_length radix fuel n acc k :
  2 ≤ radix → n < radix ^ N.of_nat k → (1 ≤ k)%nat →
  (length (toRadixAux radix fuel n acc) ≤ k + length acc)%nat.
Proof.
  intros Hr. revert n acc k.
  induction fuel as [|fuel IH]; intros n acc k Hn Hk; simpl toRadixAux; [lia|].
  destruct (n / radix =? 0) eqn:E; [simpl; lia|].
  apply N.eqb_neq in E.
  destruct k as [|[|k]]; [lia| |].
  - simpl in Hn. rewrite N.pow_1_r in Hn.
    rewrite N.div_small in E by done. done.
  - etransitivity; [apply (IH _ _ (S k))|simpl; lia]; [|lia].
    replace (N.of_nat (S (S k))) with (N.succ (N.of_nat (S k))) in Hn by lia.
    rewrite N.pow_succ_r' in Hn.
    apply N.Div0.div_lt_upper_bound. lia.
Qed.

Lemma toRadixAux_digits radix fuel n acc :
  2 ≤ radix → radix ≤ 10 →
  Forall (isDigitOf radix) acc →
  Forall (isDigitOf radix) (toRadixAux radix fuel n acc).
Proof.
  intros Hr Hr'. revert n acc.
  induction fuel as [|fuel IH]; intros n acc Hacc; simpl toRadixAux; [done|].
  assert (Hd : isDigitOf radix (digitChar (n mod radix))).
  { assert (n mod radix < radix) by (apply N.mod_lt; lia).
    unfold isDigitOf, digitChar.
    replace (n mod radix <? 10) with true by (symmetry; apply N.ltb_lt; lia).
    cbv iota. generalize dependent (n mod radix). intros m Hm. lia. }
  destruct (n / radix =? 0); [by constructor|].
  apply IH. by constructor.
Qed.

Lemma padStart_length k c (s : jsstring) :
  length (padStart k c s) = (k `max` length s)%nat.
Proof. unfold padStart. rewrite length_app, length_replicate. lia. Qed.

Lemma valueOfDigits_zeros radix k (s : jsstring) :
  valueOfDigits radix (replicate k 48 ++ s) = valueOfDigits radix s.
Proof.
  induction k as [|k IH]; [done|]. simpl replicate. simpl app.
  rewrite valueOfDigits_cons, IH. unfold digitValue. simpl. lia.
Qed.

(** [n.toString(8).padStart(k, '0')] for [n < 8^k]: exactly [k] octal digits
    that denote [n]. *)
Lemma octal_padded (k : nat) (n : N) :
  (1 ≤ k)%nat → n < 8 ^ N.of_nat k →
  let s := padStart k 48 (toStringRadix 8 n) in
  length s = k ∧ Forall (isDigitOf 8) s ∧ valueOfDigits 8 s = n.
Proof.
  intros Hk Hn s. subst s. split_and!.
  - rewrite padStart_length.
    assert (2 ≤ 8) as H2 by lia.
    pose proof (toRadixAux_length 8 (S (N.to_nat (N.log2 n))) n [] k H2 Hn Hk) as H.
    unfold toStringRadix. rewrite Nat.add_0_r in H. lia.
  - unfold padStart. apply Forall_app. split.
    + apply Forall_replicate. unfold isDigitOf. lia.
    + apply toRadixAux_digits; [lia|lia|constructor].
  - unfold padStart. rewrite valueOfDigits_zeros.
    apply toStringRadix_value; lia.
Qed.

End DigitFacts.

(** ** The header and its checksum *)

Module HeaderFacts.
Import JS Text Tar Download DigitFacts.

Lemma blit_length buf offset data : length (blit buf offset data) = length buf.
Proof.
  unfold blit. rewrite !length_app, length_drop, !length_take. lia.
Qed.

Lemma blit_lookup_out buf offset data i :
  (i < offset ∨ offset + length data ≤ i)%nat →
  blit buf offset data !! i = buf !! i.
Proof.
  intros H.
  destruct (decide (i < length buf)%nat) as [Hi|Hi].
  2:{ rewrite !lookup_ge_None_2; [done|lia|rewrite blit_length; lia]. }
  unfold blit.
  set (d := take (length buf - offset) data).
  assert (Hd : length d = ((length buf - offset) `min` length data)%nat)
    by (unfold d; by rewrite length_take).
  destruct H as [H|H].
  - rewrite lookup_app_l by (rewrite length_take; lia).
    by rewrite lookup_take_lt.
  - rewrite lookup_app_r by (rewrite length_take; lia).
    rewrite lookup_app_r by (rewrite length_take; lia).
    rewrite lookup_drop, length_take. f_equal. lia.
Qed.

Lemma blit_Forall (P : N → Prop) buf offset data :
  Forall P buf → Forall P data → Forall P (blit buf offset data).
Proof.
  intros Hb Hd. unfold blit. rewrite !Forall_app. split_and!.
  - by apply Forall_take.
  - by apply Forall_take.
  - by apply Forall_drop.
Qed.

(** A block that fits is written whole. *)
Lemma blit_fits buf offset data :
  (offset + length data ≤ length buf)%nat →
  blit buf offset data
  = take offset buf ++ data ++ drop (offset + length data) buf.
Proof.
  intros H. unfold blit. by rewrite (take_ge data) by lia.
Qed.

(** A string has at least as many UTF-8 bytes as code units. *)
Lemma byteLength_ge (s : jsstring) : (length s ≤ byteLength s)%nat.
Proof.
  unfold byteLength.
  assert (∀ n (s : jsstring), (length s ≤ n)%nat → (length s ≤ length (utf8 s))%nat)
    as H; [|by apply (H (length s))].
  clear s. induction n as [|n IH]; intros s Hn.
  - destruct s; simpl in *; lia.
  - destruct s as [|c s]; [simpl; lia|].
    assert (Hs : (length s ≤ length (utf8 s))%nat) by (apply IH; simpl in Hn; lia).
    simpl utf8.
    destruct (c <? 128); [simpl; lia|].
    destruct (c <? 2048); [simpl; lia|].
    destruct (isHighSurrogate c).
    + destruct s as [|d s]; [simpl; lia|].
      destruct (isLowSurrogate d).
      * assert ((length s ≤ length (utf8 s))%nat)
          by (apply IH; simpl in Hn; lia).
        simpl. lia.
      * unfold replacementBytes. simpl length in *. lia.
    + destruct (isLowSurrogate c); unfold replacementBytes; simpl length; lia.
Qed.

(** [writeString] copies the low bytes of the first [len] code units. *)
Lemma writeString_blit buf offset len value :
  writeString buf offset len value
  = blit buf offset (map (fun c => c mod 256) (take len value)).
Proof.
  unfold writeString, bufferWriteAscii. f_equal.
  apply take_ge. rewrite length_map.
  pose proof (byteLength_ge (take len value)).
  rewrite length_take in *. lia.
Qed.

Lemma writeString_length buf offset len value :
  length (writeString buf offset len value) = length buf.
Proof. rewrite writeString_blit. apply blit_length. Qed.

Lemma writeString_lookup_out buf offset len value i :
  (i < offset ∨ offset + len ≤ i)%nat →
  writeString buf offset len value !! i = buf !! i.
Proof.
  intros H. rewrite writeString_blit. apply blit_lookup_out.
  rewrite length_map, length_take. lia.
Qed.

Lemma writeString_bytes buf offset len value :
  Forall isByte buf → Forall isByte (writeString buf offset len value).
Proof.
  intros H. rewrite writeString_blit. apply blit_Forall; [done|].
  apply Forall_fmap, Forall_true. intros c. unfold isByte. simpl.
  apply N.mod_lt. lia.
Qed.

Lemma writeOctal_length buf offset len value :
  length (writeOctal buf offset len value) = length buf.
Proof. unfold writeOctal. by rewrite length_insert, writeString_length. Qed.

Lemma writeOctal_lookup_out buf offset len value i :
  (i < offset ∨ offset + len ≤ i)%nat → (0 < len)%nat →
  writeOctal buf offset len value !! i = buf !! i.
Proof.
  intros H Hl. unfold writeOctal.
  rewrite list_lookup_insert_ne by lia.
  apply writeString_lookup_out. lia.
Qed.

Lemma insert_bytes (buf : buffer) i b :
  isByte b → Forall isByte buf → Forall isByte (<[i := b]> buf).
Proof. intros Hb H. by apply Forall_insert. Qed.

Lemma writeOctal_bytes buf offset len value :
  Forall isByte buf → Forall isByte (writeOctal buf offset len value).
Proof.
  intros H. unfold writeOctal. apply insert_bytes; [by compute|].
  by apply writeString_bytes.
Qed.

Lemma bufferFill_length buf value start stop :
  length (bufferFill buf value start stop) = length buf.
Proof. apply blit_length. Qed.

Lemma bufferFill_lookup_in buf value start stop i :
  (start ≤ i < stop)%nat → (stop ≤ length buf)%nat →
  bufferFill buf value start stop !! i = Some value.
Proof.
  intros Hi Hs. unfold bufferFill.
  rewrite blit_fits by (rewrite length_replicate; lia).
  rewrite lookup_app_r by (rewrite length_take; lia).
  rewrite length_take, lookup_app_l by (rewrite length_replicate; lia).
  apply lookup_replicate_2. lia.
Qed.

Lemma bufferFill_bytes buf value start stop :
  isByte value → Forall isByte buf →
  Forall isByte (bufferFill buf value start stop).
Proof.
  intros Hv H. apply blit_Forall; [done|]. by apply Forall_replicate.
Qed.

Ltac through_writes :=
  repeat first
    [ rewrite writeString_lookup_out by lia
    | rewrite writeOctal_lookup_out by lia
    | rewrite list_lookup_insert_ne by lia ].

Ltac write_lengths :=
  repeat first
    [ rewrite writeString_length
    | rewrite writeOctal_length
    | rewrite length_insert
    | rewrite bufferFill_length ];
  rewrite ?length_replicate.

Section Header.
Variables (path : jsstring) (size mode mtime : Z) (typeflag : TypeFlag).

Let H := headerBeforeChecksum path size mode mtime typeflag.

Lemma headerBeforeChecksum_length : length H = 512%nat.
Proof.
  unfold H, headerBeforeChecksum. destruct (splitTarPath path).
  write_lengths. done.
Qed.

(** When the sum is taken the checksum field holds eight spaces. *)
Lemma headerBeforeChecksum_field i :
  (148 ≤ i < 156)%nat → H !! i = Some 32.
Proof.
  intros Hi. unfold H, headerBeforeChecksum. destruct (splitTarPath path).
  through_writes. apply bufferFill_lookup_in; [lia|].
  write_lengths. lia.
Qed.

Lemma headerBeforeChecksum_bytes : Forall isByte H.
Proof.
  assert (isByte (charCode typeflag)) by (destruct typeflag; by compute).
  unfold H, headerBeforeChecksum. destruct (splitTarPath path).
  repeat first
    [ apply writeString_bytes
    | apply writeOctal_bytes
    | apply insert_bytes; [done || by compute|]
    | apply bufferFill_bytes; [by compute|] ].
  apply Forall_replicate. by compute.
Qed.

Lemma headerBeforeChecksum_shape :
  H = take 148 H ++ replicate 8 32 ++ drop 156 H.
Proof.
  rewrite <- (take_drop 148 H) at 1. f_equal.
  do 8 (erewrite drop_S; [|apply headerBeforeChecksum_field; lia]).
  reflexivity.
Qed.
End Header.

Lemma sumBytes_bound (l : buffer) :
  Forall isByte l → sumBytes l ≤ 255 * N.of_nat (length l).
Proof.
  induction 1 as [|b l Hb Hl IH]; simpl; [lia|].
  unfold isByte in Hb. unfold sumBytes in *. simpl. lia.
Qed.

(** The loop over the 512 indices adds up the bytes of the list. *)
Lemma foldl_nth_sum (pre l : buffer) (a : N) :
  foldl (fun sum i => sum + nth i (pre ++ l) 0) a (seq (length pre) (length l))
  = a + sumBytes l.
Proof.
  revert pre a. induction l as [|x l IH]; intros pre a; simpl.
  - unfold sumBytes. simpl. lia.
  - rewrite app_nth2, Nat.sub_diag by lia. simpl.
    specialize (IH (pre ++ [x]) (a + x)).
    rewrite <- app_assoc, length_app in IH. simpl in IH.
    rewrite Nat.add_1_r in IH. rewrite IH. unfold sumBytes. simpl. lia.
Qed.

Lemma byteSum_sumBytes (l : buffer) : length l = 512%nat → byteSum l = sumBytes l.
Proof.
  intros Hl. unfold byteSum. rewrite <- Hl.
  rewrite <- (N.add_0_l (sumBytes l)). exact (foldl_nth_sum [] l 0).
Qed.

(** The digits of the sum of a header of 512 bytes: six, octal. *)
Lemma checksum_digits (H : buffer) :
  length H = 512%nat → Forall isByte H →
  let chk := padStart 6 48 (toStringRadix 8 (byteSum H)) in
  length chk = 6%nat ∧ Forall (isDigitOf 8) chk ∧ valueOfDigits 8 chk = sumBytes H.
Proof.
  intros Hlen Hbytes chk.
  assert (Hsum : byteSum H = sumBytes H) by by apply byteSum_sumBytes.
  assert (Hlt : byteSum H < 8 ^ N.of_nat 6).
  { rewrite Hsum. pose proof (sumBytes_bound H Hbytes) as Hb.
    rewrite Hlen in Hb. change (8 ^ N.of_nat 6) with 262144.
    change (N.of_nat 512) with 512 in Hb. lia. }
  destruct (octal_padded 6 (byteSum H)) as (Hc1 & Hc2 & Hc3); [lia|done|].
  fold chk in Hc1, Hc2, Hc3.
  split_and!; [exact Hc1|exact Hc2|rewrite <- Hsum; exact Hc3].
Qed.

(** Six digits written over the placeholder, then the NUL and the space. *)
Lemma checksum_written (H chk : buffer) :
  length H = 512%nat →
  (∀ i, (148 ≤ i < 156)%nat → H !! i = Some 32) →
  length chk = 6%nat → Forall (isDigitOf 8) chk →
  <[155%nat := 32]> (<[154%nat := 0]> (writeString H 148 6 chk))
  = take 148 H ++ chk ++ [0; 32] ++ drop 156 H.
Proof.
  intros Hlen Hfield Hc1 Hc2.
  rewrite writeString_blit.
  rewrite (take_ge chk) by lia.
  assert (Hid : map (fun c => c mod 256) chk = chk).
  { rewrite <- (list_fmap_id chk) at 2. apply Forall_fmap_ext_1.
    eapply Forall_impl; [exact Hc2|]. intros c [? ?]. simpl.
    apply N.mod_small. lia. }
  rewrite Hid, blit_fits by lia. rewrite Hc1.
  change (148 + 6)%nat with 154%nat.
  rewrite (drop_S H 32 154) by (apply Hfield; lia).
  rewrite (drop_S H 32 155) by (apply Hfield; lia).
  assert (Htake : length (take 148 H) = 148%nat) by (rewrite length_take; lia).
  rewrite !insert_app_r_alt by (rewrite ?Htake, ?Hc1; lia).
  rewrite Htake, Hc1. reflexivity.
Qed.

(** A header whose checksum field holds eight spaces gets the six digits of
    its sum, a NUL and a space there, and keeps the rest. *)
Lemma writeChecksum_shape (H : buffer) :
  length H = 512%nat → Forall isByte H →
  (∀ i, (148 ≤ i < 156)%nat → H !! i = Some 32) →
  let chk := padStart 6 48 (toStringRadix 8 (byteSum H)) in
  (length chk = 6%nat ∧ Forall (isDigitOf 8) chk ∧ valueOfDigits 8 chk = sumBytes H)
  ∧ writeChecksum H = take 148 H ++ chk ++ [0; 32] ++ drop 156 H.
Proof.
  intros Hlen Hbytes Hfield chk.
  pose proof (checksum_digits H Hlen Hbytes) as Hd. fold chk in Hd.
  split; [exact Hd|].
  destruct Hd as (Hc1 & Hc2 & _).
  exact (checksum_written H chk Hlen Hfield Hc1 Hc2).
Qed.

Lemma writeChecksum_field (H : buffer) :
  length H = 512%nat → Forall isByte H →
  H = take 148 H ++ replicate 8 32 ++ drop 156 H →
  (∀ i, (148 ≤ i < 156)%nat → H !! i = Some 32) →
  let header := writeChecksum H in
  let digits := take 6 (drop 148 header) in
  length header = 512%nat
  ∧ length digits = 6%nat
  ∧ Forall (isDigitOf 8) digits
  ∧ valueOfDigits 8 digits = sumBytes (bufferFill header 32 148 156)
  ∧ header !! 154%nat = Some 0
  ∧ header !! 155%nat = Some 32.
Proof.
  intros Hlen Hbytes Hshape Hfield header digits. subst header digits.
  destruct (writeChecksum_shape H Hlen Hbytes Hfield) as ((Hc1 & Hc2 & Hc3) & ->).
  set (chk := padStart 6 48 (toStringRadix 8 (byteSum H))) in *.
  clearbody chk.
  assert (Htake : length (take 148 H) = 148%nat) by (rewrite length_take; lia).
  assert (Hdigits : take 6 (drop 148 (take 148 H ++ chk ++ [0; 32] ++ drop 156 H)) = chk).
  { rewrite <- Htake at 1. rewrite drop_app_length.
    rewrite <- Hc1 at 1. by rewrite take_app_length. }
  rewrite Hdigits. split_and!; try done.
  - rewrite !length_app, Htake, Hc1, length_drop. simpl. lia.
  - rewrite Hc3. f_equal. unfold bufferFill.
    rewrite blit_fits
      by (rewrite !length_app, Htake, Hc1, length_drop, length_replicate; simpl; lia).
    rewrite length_replicate. change (156 - 148)%nat with 8%nat.
    rewrite <- Htake at 1. rewrite take_app_length.
    replace (take 148 H ++ chk ++ [0; 32] ++ drop 156 H)
      with ((take 148 H ++ chk ++ [0; 32]) ++ drop 156 H)
      by (by rewrite <- !app_assoc).
    replace (148 + 8)%nat with (length (take 148 H ++ chk ++ [0; 32]))
      by (rewrite !length_app, Htake, Hc1; reflexivity).
    rewrite drop_app_length.
    exact Hshape.
  - rewrite lookup_app_r by lia. rewrite Htake.
    rewrite lookup_app_r by lia. rewrite Hc1. reflexivity.
  - rewrite lookup_app_r by lia. rewrite Htake.
    rewrite lookup_app_r by lia. rewrite Hc1. reflexivity.
Qed.

(** C1: in the header that [createHeader] returns, offsets 148 to 153 hold
    six octal digits that denote the sum of the 512 bytes of the header taken
    with offsets 148 to 155 as spaces; offset 154 holds NUL and offset 155 a
    space. *)
Theorem createHeader_checksum path size mode mtime typeflag :
  let header := createHeader path size mode mtime typeflag in
  let digits := take 6 (drop 148 header) in
  length header = 512%nat
  ∧ length digits = 6%nat
  ∧ Forall (isDigitOf 8) digits
  ∧ valueOfDigits 8 digits = sumBytes (bufferFill header 32 148 156)
  ∧ header !! 154%nat = Some 0
  ∧ header !! 155%nat = Some 32.
Proof.
  apply writeChecksum_field.
  - apply headerBeforeChecksum_length.
  - apply headerBeforeChecksum_bytes.
  - apply headerBeforeChecksum_shape.
  - apply headerBeforeChecksum_field.
Qed.

(** The header of [a/b.txt], five bytes, mode 644: the sum with the field
    blank is 0o12254, and the field reads [012254], NUL, space. *)
Example createHeader_checksum_example :
  take 8 (drop 148 (createHeader (js "a/b.txt") 5 420 1700000000 Flag0))
  = js "012254" ++ [0; 32].
Proof. vm_compute. reflexivity. Qed.

End HeaderFacts.

(** ** [dedupePath] *)

Module DedupeFacts.
Import JS Text Download DigitFacts.

Lemma base_ext path : baseOf path ++ extOf path = path.
Proof.
  unfold baseOf, extOf, sliceTo, sliceFrom.
  case_bool_decide; [apply take_drop|apply app_nil_r].
Qed.

Lemma candidate_inj base ext i j :
  candidate base ext i = candidate base ext j → i = j.
Proof.
  unfold candidate. intros H.
  apply app_inv_head, app_inv_head, app_inv_tail in H.
  by apply toDecimal_inj.
Qed.

Lemma candidate_ne_path path i : candidate (baseOf path) (extOf path) i ≠ path.
Proof.
  intros H. apply (f_equal length) in H.
  rewrite <- (base_ext path) in H at 3.
  unfold candidate in H. rewrite !length_app in H. simpl in H. lia.
Qed.

(** The loop gives up exactly when every candidate it tries is taken. *)
Lemma dedupeLoop_None base ext used i n :
  dedupeLoop base ext used i n = None
  ↔ ∀ k, (k < n)%nat → candidate base ext (i + N.of_nat k) ∈ used.
Proof.
  revert i. induction n as [|n IH]; intros i; simpl.
  - split; [intros _ k Hk; lia|done].
  - case_bool_decide as Hc.
    + split; [done|]. intros H. exfalso. apply Hc.
      specialize (H 0%nat). rewrite N.add_0_r in H. apply H. lia.
    + rewrite IH. split.
      * intros H [|k] Hk; [by rewrite N.add_0_r|].
        replace (i + N.of_nat (S k)) with (i + 1 + N.of_nat k) by lia.
        apply H. lia.
      * intros H k Hk.
        replace (i + 1 + N.of_nat k) with (i + N.of_nat (S k)) by lia.
        apply H. lia.
Qed.

(** What the loop returns is a candidate that is not taken. *)
Lemma dedupeLoop_Some base ext used i n c :
  dedupeLoop base ext used i n = Some c →
  (c ∉ used) ∧ ∃ k, (k < n)%nat ∧ c = candidate base ext (i + N.of_nat k).
Proof.
  revert i. induction n as [|n IH]; intros i; simpl; [done|].
  case_bool_decide as Hc.
  - intros [= <-]. split; [done|]. exists 0%nat. split; [lia|].
    by rewrite N.add_0_r.
  - intros H. destruct (IH _ H) as (Hn & k & Hk & ->). split; [done|].
    exists (S k). split; [lia|]. f_equal. lia.
Qed.

(** The loop returns the first candidate that is not taken. *)
Lemma dedupeLoop_first base ext used i n k :
  (k < n)%nat →
  (∀ k', (k' < k)%nat → candidate base ext (i + N.of_nat k') ∈ used) →
  candidate base ext (i + N.of_nat k) ∉ used →
  dedupeLoop base ext used i n = Some (candidate base ext (i + N.of_nat k)).
Proof.
  revert i n. induction k as [|k IH]; intros i n Hk Hbefore Hfree.
  - destruct n as [|n]; [lia|]. simpl. rewrite N.add_0_r in *.
    by rewrite bool_decide_eq_true_2.
  - destruct n as [|n]; [lia|]. simpl.
    rewrite bool_decide_eq_false_2.
    2:{ intros Hc. apply Hc. specialize (Hbefore 0%nat).
        rewrite N.add_0_r in Hbefore. apply Hbefore. lia. }
    replace (i + N.of_nat (S k)) with (i + 1 + N.of_nat k) in * by lia.
    apply IH; [lia| |done].
    intros k' Hk'.
    replace (i + 1 + N.of_nat k') with (i + N.of_nat (S k')) by lia.
    apply Hbefore. lia.
Qed.

#[local] Arguments dedupeLoop : simpl never.

(** The three ways out of [dedupePath]. *)
Lemma dedupePath_cases path used :
  ((path ∉ used) ∧ dedupePath path used = (path, {[path]} ∪ used))
  ∨ (path ∈ used
     ∧ ∃ c, dedupeLoop (baseOf path) (extOf path) used 2 998 = Some c
            ∧ dedupePath path used = (c, {[c]} ∪ used))
  ∨ (path ∈ used
     ∧ dedupeLoop (baseOf path) (extOf path) used 2 998 = None
     ∧ dedupePath path used
       = (baseOf path ++ [underscore] ++ shortHash path ++ extOf path,
          {[baseOf path ++ [underscore] ++ shortHash path ++ extOf path]} ∪ used)).
Proof.
  unfold dedupePath. case_bool_decide as Hp.
  - left. by split.
  - right.
    destruct (dedupeLoop (baseOf path) (extOf path) used 2 998) as [c|] eqn:E.
    + left. split; [done|]. by exists c.
    + right. by split.
Qed.

#[local] Arguments dedupePath : simpl never.

(** Every call adds the path it returns to the registry. *)
Lemma dedupePath_registry path used :
  (dedupePath path used).2 = {[(dedupePath path used).1]} ∪ used.
Proof.
  destruct (dedupePath_cases path used)
    as [[_ ->]|[(_ & c & _ & ->)|(_ & _ & ->)]]; reflexivity.
Qed.

(** Short of the hash-suffixed name, the path returned was not in the
    registry. *)
Lemma dedupePath_fresh path used :
  hasFreeCandidate path used = true → (dedupePath path used).1 ∉ used.
Proof.
  unfold hasFreeCandidate.
  destruct (dedupePath_cases path used)
    as [[Hp ->]|[(Hp & c & Hc & ->)|(Hp & Hc & ->)]].
  - done.
  - intros _. by apply dedupeLoop_Some in Hc as [? _].
  - rewrite Hc, bool_decide_eq_false_2 by (by intros ?).
    rewrite bool_decide_eq_false_2 by (by intros [? ?]). done.
Qed.

Lemma dedupeAll_cons p rest used :
  dedupeAll (p :: rest) used
  = ((dedupePath p used).1 :: (dedupeAll rest (dedupePath p used).2).1,
     (dedupeAll rest (dedupePath p used).2).2).
Proof.
  cbn [dedupeAll]. destruct (dedupePath p used) as [r u]. cbn [fst snd].
  by destruct (dedupeAll rest u).
Qed.

Lemma dedupeAll_app l1 l2 used :
  dedupeAll (l1 ++ l2) used
  = ((dedupeAll l1 used).1 ++ (dedupeAll l2 (dedupeAll l1 used).2).1,
     (dedupeAll l2 (dedupeAll l1 used).2).2).
Proof.
  revert used. induction l1 as [|p l1 IH]; intros used.
  - simpl. by destruct (dedupeAll l2 used).
  - rewrite <- app_comm_cons, !dedupeAll_cons, IH. reflexivity.
Qed.

(** A sequence of calls none of which reaches the hash-suffixed name returns
    paths that are new to the registry and pairwise distinct. *)
Lemma dedupeAll_distinct paths used :
  noFallback paths used = true →
  NoDup (dedupeAll paths used).1
  ∧ (∀ r, r ∈ (dedupeAll paths used).1 → r ∉ used).
Proof.
  revert used. induction paths as [|p rest IH]; intros used Hno.
  - simpl. split; [constructor|]. by intros r ?%elem_of_nil.
  - cbn [noFallback] in Hno. apply andb_true_iff in Hno as [Hfree Hrest].
    rewrite dedupeAll_cons. cbn [fst snd].
    rewrite (dedupePath_registry p used) in Hrest |- *.
    destruct (IH _ Hrest) as [Hnd Hnew].
    pose proof (dedupePath_fresh p used Hfree) as Hp.
    split.
    + constructor; [|done]. intros Hin. apply Hnew in Hin.
      apply Hin, elem_of_union_l. by apply elem_of_singleton.
    + intros r [->|Hin]%elem_of_cons; [done|].
      apply Hnew in Hin. intros Hu. by apply Hin, elem_of_union_r.
Qed.

Lemma elem_of_numbered path k c :
  c ∈ numbered path k
  ↔ ∃ i, (i < k)%nat ∧ c = candidate (baseOf path) (extOf path) (2 + N.of_nat i).
Proof.
  unfold numbered. rewrite list_elem_of_fmap. split.
  - intros (i & -> & Hi). apply elem_of_seq in Hi.
    exists (i - 2)%nat. split; [lia|]. f_equal. lia.
  - intros (i & Hi & ->). exists (2 + i)%nat. split; [f_equal; lia|].
    apply elem_of_seq. lia.
Qed.

(** The path and its numbered candidates are all different. *)
Lemma numbered_NoDup path k : NoDup (path :: numbered path k).
Proof.
  constructor.
  - intros (i & _ & H)%elem_of_numbered. symmetry in H.
    by apply candidate_ne_path in H.
  - unfold numbered. apply NoDup_fmap_2_strong; [|apply NoDup_seq].
    intros i j _ _ H. apply candidate_inj in H. lia.
Qed.

(** A registry of fewer than 999 paths leaves the path or one of its 998
    numbered candidates free. *)
Lemma hasFreeCandidate_small path used :
  (size used < 999)%nat → hasFreeCandidate path used = true.
Proof.
  intros Hsize. unfold hasFreeCandidate.
  case_bool_decide as Hp; [done|]. simpl.
  apply bool_decide_eq_true.
  destruct (dedupeLoop (baseOf path) (extOf path) used 2 998) as [c|] eqn:E;
    [by eexists|].
  exfalso.
  assert (Hsub : list_to_set (C := gset (list N)) (path :: numbered path 998) ⊆ used).
  { intros c Hc. apply elem_of_list_to_set in Hc.
    apply elem_of_cons in Hc as [->|Hc].
    - first [done|by apply dec_stable].
    - apply elem_of_numbered in Hc as (i & Hi & ->).
      by apply (proj1 (dedupeLoop_None _ _ _ _ _) E). }
  apply subseteq_size in Hsub.
  rewrite size_list_to_set in Hsub by apply numbered_NoDup.
  change (length (path :: numbered path 998))
    with (S (length (numbered path 998))) in Hsub.
  unfold numbered in Hsub. rewrite length_map, length_seq in Hsub. lia.
Qed.

Lemma noFallback_small paths used :
  (length paths + size used ≤ 999)%nat → noFallback paths used = true.
Proof.
  revert used. induction paths as [|p rest IH]; intros used H; [done|].
  cbn [noFallback]. simpl in H.
  assert (Hfree : hasFreeCandidate p used = true)
    by (apply hasFreeCandidate_small; lia).
  rewrite Hfree. simpl. apply IH.
  rewrite dedupePath_registry, size_union, size_singleton.
  - lia.
  - apply disjoint_singleton_l. by apply dedupePath_fresh.
Qed.

(** A call returns a name that was not in the registry unless the path, all
    its numbered candidates and its hash-suffixed name are taken. *)
Lemma findsNewName_spec path used :
  findsNewName path used = true ↔ (dedupePath path used).1 ∉ used.
Proof.
  unfold findsNewName. split.
  - intros [H|H]%orb_true_iff; [by apply dedupePath_fresh|].
    apply bool_decide_eq_true in H.
    destruct (dedupePath_cases path used)
      as [[Hp ->]|[(Hp & c & Hc & ->)|(Hp & Hc & ->)]]; cbn [fst].
    + done.
    + by apply dedupeLoop_Some in Hc as [? _].
    + exact H.
  - intros H. apply orb_true_iff. unfold hasFreeCandidate.
    destruct (dedupePath_cases path used)
      as [[Hp E]|[(Hp & c & Hc & E)|(Hp & Hc & E)]]; rewrite E in H; cbn [fst] in H.
    + left. by rewrite bool_decide_eq_true_2.
    + left. rewrite Hc. apply orb_true_iff. right.
      by apply bool_decide_eq_true_2.
    + right. by apply bool_decide_eq_true_2.
Qed.

Lemma noFallback_allFindNewNames paths used :
  noFallback paths used = true → allFindNewNames paths used = true.
Proof.
  revert used. induction paths as [|p rest IH]; intros used; [done|].
  cbn [noFallback allFindNewNames]. intros [Hp Hrest]%andb_true_iff.
  apply andb_true_iff. split; [|by apply IH].
  unfold findsNewName. by rewrite Hp.
Qed.

(** X24: calls of [dedupePath] one after the other on one registry
    return pairwise distinct paths, none of them in the registry before,
    exactly when every call finds a name that is not taken: the path, one of
    its candidates [_2] to [_999], or its hash-suffixed name.  This is so
    whenever the calls and the paths already registered are at most 999
    together. *)
Theorem dedupePath_distinct (paths : list jsstring) (used : gset jsstring) :
  (NoDup (dedupeAll paths used).1
   ∧ (∀ r, r ∈ (dedupeAll paths used).1 → r ∉ used)
   ↔ allFindNewNames paths used = true)
  ∧ ((length paths + size used ≤ 999)%nat → allFindNewNames paths used = true).
Proof.
  split; [|by intros H; apply noFallback_allFindNewNames, noFallback_small].
  revert used. induction paths as [|p rest IH]; intros used.
  - cbn [dedupeAll allFindNewNames fst]. split; [done|]. intros _.
    split; [constructor|]. by intros r ?%elem_of_nil.
  - rewrite dedupeAll_cons. cbn [fst allFindNewNames].
    rewrite andb_true_iff, findsNewName_spec, <- IH, dedupePath_registry.
    set (r0 := (dedupePath p used).1).
    set (rs := (dedupeAll rest ({[r0]} ∪ used)).1).
    rewrite NoDup_cons. split.
    + intros [[Hr0 Hnd] Hnew]. split_and!.
      * apply Hnew. by left.
      * done.
      * intros r Hr [->%elem_of_singleton|Hu]%elem_of_union; [done|].
        apply (Hnew r); [by right|done].
    + intros (Hr0 & Hnd & Hnew). split_and!.
      * intros Hin. apply (Hnew r0 Hin). apply elem_of_union_l.
        by apply elem_of_singleton.
      * done.
      * intros r [->|Hr]%elem_of_cons; [done|].
        intros Hu. apply (Hnew r Hr). by apply elem_of_union_r.
Qed.

Example dedupeAll_example :
  (dedupeAll [js "a.png"; js "b"; js "a.png"; js "a.png"] ∅).1
  = [js "a.png"; js "b"; js "a_2.png"; js "a_3.png"].
Proof. vm_compute. reflexivity. Qed.

#[local] Arguments numbered : simpl never.

(** A registry that holds the path and its candidates below [k], not the
    one at [k]: the call returns that one. *)
Lemma dedupePath_numbered path used k :
  (k < 998)%nat → path ∈ used →
  (∀ i, (i < k)%nat → candidate (baseOf path) (extOf path) (2 + N.of_nat i) ∈ used) →
  candidate (baseOf path) (extOf path) (2 + N.of_nat k) ∉ used →
  dedupePath path used
  = (candidate (baseOf path) (extOf path) (2 + N.of_nat k),
     {[candidate (baseOf path) (extOf path) (2 + N.of_nat k)]} ∪ used).
Proof.
  intros Hk Hin Hbelow Hfree.
  pose proof (dedupeLoop_first _ _ _ 2 998 k Hk Hbelow Hfree) as Hloop.
  destruct (dedupePath_cases path used)
    as [[Hp _]|[(_ & c & Hc & ->)|(_ & Hc & _)]]; [done| |congruence].
  rewrite Hloop in Hc. by injection Hc as <-.
Qed.

(** A registry that holds the path and all its candidates: the call returns
    the hash-suffixed name, whatever else the registry holds. *)
Lemma dedupePath_fallback path used :
  path ∈ used →
  (∀ i, (i < 998)%nat → candidate (baseOf path) (extOf path) (2 + N.of_nat i) ∈ used) →
  dedupePath path used
  = (baseOf path ++ [underscore] ++ shortHash path ++ extOf path,
     {[baseOf path ++ [underscore] ++ shortHash path ++ extOf path]} ∪ used).
Proof.
  intros Hin Hall.
  apply dedupeLoop_None in Hall.
  destruct (dedupePath_cases path used)
    as [[Hp _]|[(_ & c & Hc & _)|(_ & _ & ->)]]; [done|congruence|done].
Qed.

(** The same path passed [k + 1] times to an empty registry: the path, then
    its candidates in order. *)
Lemma dedupeAll_same path k :
  (k ≤ 998)%nat →
  dedupeAll (replicate (S k) path) ∅
  = (path :: numbered path k, list_to_set (path :: numbered path k)).
Proof.
  induction k as [|k IH]; intros Hk.
  - change (replicate 1 path) with [path]. rewrite dedupeAll_cons.
    destruct (dedupePath_cases path ∅)
      as [[_ ->]|[(Hp & _)|(Hp & _)]]; [|by apply not_elem_of_empty in Hp..].
    reflexivity.
  - rewrite replicate_S_end, dedupeAll_app, IH by lia. cbn [fst snd].
    rewrite dedupeAll_cons. cbn [dedupeAll fst snd].
    rewrite (dedupePath_numbered path _ k).
    + cbn [fst snd]. unfold numbered at 3 4. rewrite seq_S, map_app.
      fold (numbered path k). cbn [map].
      replace (N.of_nat (2 + k)) with (2 + N.of_nat k) by lia.
      f_equal.
      rewrite app_comm_cons, list_to_set_snoc_L. apply (comm_L (∪)).
    + lia.
    + apply elem_of_list_to_set, elem_of_cons. by left.
    + intros i Hi. apply elem_of_list_to_set, elem_of_cons. right.
      apply elem_of_numbered. by exists i.
    + intros [H|H]%elem_of_list_to_set%elem_of_cons.
      * by apply candidate_ne_path in H.
      * apply elem_of_numbered in H as (i & Hi & H).
        apply candidate_inj in H. lia.
Qed.

(** The same path passed 1001 times: the last two calls both return the
    hash-suffixed name. *)
Lemma dedupeAll_repeats path :
  (dedupeAll (replicate 1001 path) ∅).1
  = (path :: numbered path 998)
      ++ [baseOf path ++ [underscore] ++ shortHash path ++ extOf path;
          baseOf path ++ [underscore] ++ shortHash path ++ extOf path].
Proof.
  change 1001%nat with (999 + 2)%nat.
  rewrite replicate_add, dedupeAll_app, dedupeAll_same by lia.
  cbn [fst snd]. f_equal.
  change (replicate 2 path) with [path; path].
  set (U := list_to_set (path :: numbered path 998) : gset (list N)).
  assert (Hin : path ∈ U) by (apply elem_of_list_to_set, elem_of_cons; by left).
  assert (Hall : ∀ i, (i < 998)%nat →
            candidate (baseOf path) (extOf path) (2 + N.of_nat i) ∈ U).
  { intros i Hi. apply elem_of_list_to_set, elem_of_cons. right.
    apply elem_of_numbered. exists i. split; [exact Hi|reflexivity]. }
  rewrite dedupeAll_cons, (dedupePath_fallback path U Hin Hall). cbn [fst snd].
  rewrite dedupeAll_cons, dedupePath_fallback.
  - reflexivity.
  - by apply elem_of_union_r.
  - intros i Hi. by apply elem_of_union_r, Hall.
Qed.

(** C2: the returned paths are not always pairwise distinct.  The path
    [a.png] passed 1001 times to one registry comes back as
    [a_7f07123580.png] both the 1000th and the 1001st time: the last branch
    of [dedupePath] returns its hash-suffixed name without asking whether
    the registry holds it, which the two branches before it do. *)
Lemma dedupePath_repeats_fallback :
  (dedupeAll (replicate 1001 (js "a.png")) ∅).1 !! 999%nat
    = Some (js "a_7f07123580.png")
  ∧ (dedupeAll (replicate 1001 (js "a.png")) ∅).1 !! 1000%nat
    = Some (js "a_7f07123580.png")
  ∧ ¬ NoDup (dedupeAll (replicate 1001 (js "a.png")) ∅).1.
Proof.
  rewrite dedupeAll_repeats.
  assert (Hfb : baseOf (js "a.png") ++ [underscore] ++ shortHash (js "a.png")
                  ++ extOf (js "a.png") = js "a_7f07123580.png")
    by (vm_compute; reflexivity).
  rewrite Hfb. clear Hfb.
  assert (Hlen : length (js "a.png" :: numbered (js "a.png") 998) = 999%nat).
  { change (length (js "a.png" :: numbered (js "a.png") 998))
      with (S (length (numbered (js "a.png") 998))).
    unfold numbered. by rewrite length_map, length_seq. }
  generalize dependent (js "a.png" :: numbered (js "a.png") 998).
  generalize (js "a_7f07123580.png").
  intros fb l Hlen. split_and!.
  - rewrite lookup_app_r by lia. rewrite Hlen, Nat.sub_diag. reflexivity.
  - rewrite lookup_app_r by lia. rewrite Hlen.
    replace (1000 - 999)%nat with 1%nat by lia. reflexivity.
  - intros Hnd. apply NoDup_app in Hnd as (_ & _ & Hnd).
    apply NoDup_cons in Hnd as [Hnd _]. apply Hnd, elem_of_cons. by left.
Qed.

End DedupeFacts.

(** ** [replaceAll] and the rewriting of the text *)

Module RewriteFacts.
Import JS Text Download.

Lemma startsWith_app p s : startsWith p s = true → s = p ++ drop (length p) s.
Proof.
  revert s. induction p as [|a p IH]; intros s H; [done|].
  destruct s as [|b s]; [done|]. simpl in H.
  apply andb_true_iff in H as [Hab Hp]. apply N.eqb_eq in Hab as ->.
  simpl. f_equal. by apply IH.
Qed.

Lemma splitAux_nonempty sep skip cur s : splitAux sep skip cur s ≠ [].
Proof.
  revert skip cur. induction s as [|c s IH]; intros skip cur; simpl; [done|].
  destruct skip; [|apply IH].
  destruct (startsWith sep (c :: s)); [done|apply IH].
Qed.

Lemma join_cons sep p rest :
  rest ≠ [] → join sep (p :: rest) = p ++ sep ++ join sep rest.
Proof. intros H. by destruct rest. Qed.

(** Joining the pieces with the separator gives the string back. *)
Lemma splitAux_join sep skip cur s :
  sep ≠ [] →
  join sep (splitAux sep skip cur s) = reverse cur ++ drop skip s.
Proof.
  intros Hsep. revert skip cur.
  induction s as [|c s IH]; intros skip cur; simpl splitAux.
  - simpl. by rewrite drop_nil, app_nil_r.
  - destruct skip as [|k]; [|by rewrite IH].
    destruct (startsWith sep (c :: s)) eqn:E.
    + rewrite join_cons by apply splitAux_nonempty.
      rewrite IH. simpl reverse. simpl app.
      apply startsWith_app in E.
      destruct sep as [|a sep]; [done|].
      simpl in E. injection E as -> E. simpl. rewrite Nat.sub_0_r.
      by rewrite <- E.
    + rewrite IH, reverse_cons, <- app_assoc. done.
Qed.

Lemma split_join sep s : sep ≠ [] → join sep (split sep s) = s.
Proof. intros H. unfold split. by rewrite splitAux_join. Qed.

(** Where the needle does not occur there is one piece, the string. *)
Lemma splitAux_absent sep cur s :
  includesString sep s = false → splitAux sep 0 cur s = [reverse cur ++ s].
Proof.
  revert cur. induction s as [|c s IH]; intros cur H; simpl.
  - by rewrite app_nil_r.
  - simpl in H. apply orb_false_iff in H as [H1 H2].
    rewrite H1, IH by done. by rewrite reverse_cons, <- app_assoc.
Qed.

(** A text in which the URL does not occur is left as it is. *)
Lemma replaceAll_absent text search replacement :
  includesString search text = false →
  replaceAll text search replacement = text.
Proof.
  intros H. unfold replaceAll. destruct search as [|c search]; [done|].
  unfold split. by rewrite splitAux_absent.
Qed.

(** Replacing a string by itself changes nothing. *)
Lemma replaceAll_same text search : replaceAll text search search = text.
Proof.
  unfold replaceAll. destruct search as [|c search]; [done|].
  by apply split_join.
Qed.

(** C5: the code at the failing input.  The article names [http://h/a.png]
    and [http://h/a.png?v=2]; both are downloaded, to [assets/images/h/a.png]
    and [assets/images/h/a__c8ef17d874.png].  The first replacement also
    rewrites the head of the second URL, whose own path then never enters the
    text; and had the second download failed, its remote URL would be gone
    from the text all the same. *)
Theorem rewriteText_overlapping_urls :
  (mapLimit Examples.demoWorld 0 Examples.articleUrl
     [(Images, Examples.plainImage); (Images, Examples.queryImage)]
     [0; 1]%nat [None; None] {| usedPaths := ∅; totalBytes := 0 |} noLog).1
  = Normal (map Some Examples.demoAssets,
            {| usedPaths := {[js "assets/images/h/a__c8ef17d874.png"]}
                            ∪ ({[js "assets/images/h/a.png"]} ∪ ∅);
               totalBytes := 6 |})
  ∧ rewriteText Examples.demoText Examples.demoAssets
    = js "![a](assets/images/h/a.png) ![b](assets/images/h/a.png?v=2)"
  ∧ includesString (js "assets/images/h/a__c8ef17d874.png")
      (rewriteText Examples.demoText Examples.demoAssets) = false
  ∧ includesString Examples.queryImage
      (rewriteText Examples.demoText (take 1 Examples.demoAssets)) = false.
Proof. split_and!; vm_compute; reflexivity. Qed.

End RewriteFacts.

(** ** Folders and entry paths *)

Module FolderFacts.
Import JS Text Tar Download DigitFacts SanitizeFacts.

Lemma startsWith_prefix p s : startsWith p s = true ↔ p `prefix_of` s.
Proof.
  revert s. induction p as [|a p IH]; intros s; simpl.
  - split; [intros _; apply prefix_nil|done].
  - destruct s as [|b s].
    + split; [done|]. by intros ?%prefix_nil_not.
    + rewrite andb_true_iff, N.eqb_eq, IH. split.
      * intros [-> H]. by apply prefix_cons.
      * intros H. split; [by apply prefix_cons_inv_1 in H|
                          by apply prefix_cons_inv_2 in H].
Qed.

Lemma topFolder_app folder rest :
  slash ∉ folder → topFolder (folder ++ slash :: rest) = folder.
Proof.
  induction folder as [|c folder IH]; intros H; simpl.
  - reflexivity.
  - apply not_elem_of_cons in H as [Hc H].
    destruct (c =? slash) eqn:E; [by apply N.eqb_eq in E|].
    by rewrite IH.
Qed.

Lemma belowTopFolder_app folder rest :
  slash ∉ folder → belowTopFolder (folder ++ slash :: rest) = rest.
Proof.
  induction folder as [|c folder IH]; intros H; simpl.
  - reflexivity.
  - apply not_elem_of_cons in H as [Hc H].
    destruct (c =? slash) eqn:E; [by apply N.eqb_eq in E|].
    by rewrite IH.
Qed.

Lemma toDecimal_digits n : Forall (isDigitOf 10) (toDecimal n).
Proof. apply toRadixAux_digits; [lia|lia|constructor]. Qed.

Lemma indexPrefix_digits index : Forall (isDigitOf 10) (indexPrefix index).
Proof.
  unfold indexPrefix, padStart. apply Forall_app. split.
  - apply Forall_replicate. unfold isDigitOf. lia.
  - apply toDecimal_digits.
Qed.

Lemma indexPrefix_inj i j : indexPrefix i = indexPrefix j → i = j.
Proof.
  unfold indexPrefix, padStart. intros H.
  apply (f_equal (valueOfDigits 10)) in H.
  rewrite !valueOfDigits_zeros in H. unfold toDecimal in H.
  rewrite !toStringRadix_value in H by lia. lia.
Qed.

(** Digits, then an underscore: the digits are determined by the whole. *)
Lemma digits_then_underscore p1 p2 b1 b2 :
  Forall (isDigitOf 10) p1 → Forall (isDigitOf 10) p2 →
  p1 ++ underscore :: b1 = p2 ++ underscore :: b2 → p1 = p2.
Proof.
  intros H1. revert p2. induction H1 as [|c p1 Hc H1 IH]; intros p2 H2 E.
  - destruct H2 as [|d p2 Hd H2]; [done|].
    simpl in E. injection E as <- _. unfold isDigitOf, underscore in Hd. lia.
  - destruct H2 as [|d p2 Hd H2].
    + simpl in E. injection E as -> _. unfold isDigitOf, underscore in Hc. lia.
    + simpl in E. injection E as -> E. f_equal. by apply IH.
Qed.

Lemma digits_no_slash p : Forall (isDigitOf 10) p → slash ∉ p.
Proof.
  intros H Hin. rewrite Forall_forall in H. apply H in Hin.
  unfold isDigitOf, slash in Hin. lia.
Qed.

Lemma Normal_inj {A} (a b : A) : Normal a = Normal b → a = b.
Proof. congruence. Qed.

(** The folder of a job: its number, an underscore and a name without a
    slash. *)
Lemma safeArticleFolder_spec w url title index folder :
  safeArticleFolder w url title index = Normal folder →
  ∃ base, folder = indexPrefix index ++ [underscore] ++ base ∧ slash ∉ base.
Proof.
  unfold safeArticleFolder. fold (indexPrefix index).
  destruct (sanitizeSegment (default [] title)) as [|c s] eqn:E.
  - unfold newURL. destruct (parseURL w url) as [u|]; [|done].
    unfold mbind, Completion_bind. intros <-%Normal_inj.
    eexists. split; [reflexivity|].
    unfold orElse. destruct (sanitizeSegment (hostname u)) as [|c s] eqn:Eh.
    + assert (Ha : slash ∉ js "article_")
        by (apply (bool_decide_unpack _); vm_compute; exact I).
      apply not_elem_of_app. split; [done|].
      apply digits_no_slash, indexPrefix_digits.
    + rewrite <- Eh. apply sanitizeSegment_no_slash.
  - intros <-%Normal_inj. eexists. split; [reflexivity|].
    rewrite <- E. apply sanitizeSegment_no_slash.
Qed.

Lemma folder_no_slash index base :
  slash ∉ base → slash ∉ indexPrefix index ++ [underscore] ++ base.
Proof.
  intros Hb [H|[H|H]%elem_of_app]%elem_of_app.
  - by apply digits_no_slash in H; [|apply indexPrefix_digits].
  - apply list_elem_of_singleton in H. done.
  - done.
Qed.

Lemma digits_no_backslash (s : jsstring) :
  Forall (isDigitOf 10) s → backslash ∉ s.
Proof.
  intros H Hin. rewrite Forall_forall in H. destruct (H _ Hin) as [? ?].
  unfold backslash in *. lia.
Qed.

Lemma safeArticleFolder_no_backslash w url title index folder :
  safeArticleFolder w url title index = Normal folder → backslash ∉ folder.
Proof.
  unfold safeArticleFolder. fold (indexPrefix index).
  assert (Hprefix : backslash ∉ indexPrefix index ++ [underscore]).
  { apply not_elem_of_app. split.
    - apply digits_no_backslash, indexPrefix_digits.
    - by intros ?%list_elem_of_singleton. }
  destruct (sanitizeSegment (default [] title)) as [|c s] eqn:E.
  - unfold newURL. destruct (parseURL w url) as [u|]; [|done].
    unfold mbind, Completion_bind. intros <-%Normal_inj.
    rewrite app_assoc. apply not_elem_of_app. split; [done|].
    unfold orElse. destruct (sanitizeSegment (hostname u)) as [|c s] eqn:Eh.
    + apply not_elem_of_app. split.
      * apply (bool_decide_unpack _). vm_compute. exact I.
      * apply digits_no_backslash, indexPrefix_digits.
    + rewrite <- Eh. apply sanitizeSegment_no_slash.
  - intros <-%Normal_inj. rewrite app_assoc. apply not_elem_of_app.
    split; [done|]. rewrite <- E. apply sanitizeSegment_no_slash.
Qed.

(** Folders of different jobs differ. *)
Lemma folder_inj i j b1 b2 :
  indexPrefix i ++ [underscore] ++ b1 = indexPrefix j ++ [underscore] ++ b2 →
  i = j.
Proof.
  intros H. apply indexPrefix_inj.
  eapply digits_then_underscore; [apply indexPrefix_digits..|exact H].
Qed.

(** For a URL that passed the validation the folder is computed. *)
Lemma safeArticleFolder_valid w url title index :
  validUrl w url = true →
  ∃ folder, safeArticleFolder w url title index = Normal folder.
Proof.
  unfold validUrl, safeArticleFolder, newURL. intros H.
  destruct (sanitizeSegment (default [] title)); [|by eexists].
  destruct (parseURL w url); [by eexists|done].
Qed.

End FolderFacts.

(** ** One download, and the downloads of a job *)

Module AssetFacts.
Import JS Text Tar Download FolderFacts.

#[local] Arguments dedupePath : simpl never.
#[local] Arguments resolveFilename : simpl never.
#[local] Arguments buildRelativeAssetPath : simpl never.

(** A prefix without a dot stays in front when the name is cut at its last
    dot. *)
Lemma baseOf_prefix pre path :
  pre `prefix_of` path → dot ∉ pre → pre `prefix_of` baseOf path.
Proof.
  intros [k ->] Hdot. unfold baseOf, sliceTo.
  case_bool_decide as Hidx; [|by apply prefix_app_r].
  pose proof (SplitFacts.lastIndexOf_lookup dot (pre ++ k) Hidx) as Hl.
  set (n := Z.to_nat (lastIndexOf dot (pre ++ k))) in *.
  destruct (decide (n < length pre)%nat) as [Hn|Hn].
  - rewrite lookup_app_l in Hl by done.
    by apply list_elem_of_lookup_2 in Hl.
  - rewrite take_app_ge by lia. by apply prefix_app_r.
Qed.

(** [dedupePath] keeps such a prefix: the suffix goes before the extension. *)
Lemma dedupePath_prefix pre path used :
  pre `prefix_of` path → dot ∉ pre → pre `prefix_of` (dedupePath path used).1.
Proof.
  intros Hpre Hdot.
  pose proof (baseOf_prefix pre path Hpre Hdot) as Hbase.
  destruct (DedupeFacts.dedupePath_cases path used)
    as [[_ ->]|[(_ & c & Hc & ->)|(_ & _ & ->)]]; cbn [fst].
  - done.
  - apply DedupeFacts.dedupeLoop_Some in Hc as (_ & k & _ & ->).
    unfold candidate. by apply prefix_app_r.
  - by apply prefix_app_r.
Qed.

Lemma assetPrefix_no_dot kind : dot ∉ assetPrefix kind.
Proof. destruct kind; apply (bool_decide_unpack _); vm_compute; exact I. Qed.


Lemma assetPrefix_assets kind (s : jsstring) :
  assetPrefix kind `prefix_of` s → startsWith (js "assets/") s = true.
Proof.
  intros H. apply startsWith_prefix. etransitivity; [|exact H].
  unfold assetPrefix. by apply prefix_app_r.
Qed.

Lemma buildRelativeAssetPath_prefix w assetUrl kind filename p :
  buildRelativeAssetPath w assetUrl kind filename = Normal p →
  assetPrefix kind `prefix_of` p.
Proof.
  unfold buildRelativeAssetPath, newURL.
  destruct (parseURL w assetUrl) as [u|]; [|done].
  unfold mbind, Completion_bind. intros <-%Normal_inj.
  unfold assetPrefix. do 2 apply prefix_app. by apply prefix_app_r.
Qed.

(** What [downloadAsset] returns: nothing, with the shared state as it was;
    or an asset, whose bytes have been added to a counter that stays within
    the ceiling. *)
Lemma downloadAsset_spec w j i assetUrl referer kind st r st' :
  downloadAsset w j i assetUrl referer kind st = Normal (r, st') →
  match r with
  | None => st' = st
  | Some a =>
      originalUrl a = assetUrl
      ∧ assetPrefix kind `prefix_of` relativePath a
      ∧ totalBytes st' = (totalBytes st + Z.of_nat (length (content a)))%Z
      ∧ (totalBytes st' ≤ MAX_TOTAL_ASSET_BYTES)%Z
      ∧ (0 < Z.of_nat (length (content a)) ≤ MAX_ASSET_BYTES)%Z
  end.
Proof.
  unfold downloadAsset, afterFetch.
  destruct (fetch w j i assetUrl referer) as [response|];
    [|by intros [= <- <-]%Normal_inj].
  destruct (negb (ok response)); [by intros [= <- <-]%Normal_inj|].
  destruct (bool_decide (kind = Files) && _); [by intros [= <- <-]%Normal_inj|].
  destruct (body response) as [bytes|m]; [|done].
  unfold afterBody, countBytes.
  case_bool_decide as H0; [by intros [= <- <-]%Normal_inj|].
  case_bool_decide as H1; [by intros [= <- <-]%Normal_inj|].
  case_bool_decide as H2; [by intros [= <- <-]%Normal_inj|].
  unfold placeAsset. cbn [usedPaths totalBytes].
  destruct (buildRelativeAssetPath w assetUrl kind _) as [p|m] eqn:Ep; [|done].
  unfold mbind, Completion_bind.
  pose proof (dedupePath_prefix (assetPrefix kind) p (usedPaths st)
                (buildRelativeAssetPath_prefix _ _ _ _ _ Ep)
                (assetPrefix_no_dot kind)) as Hpre.
  destruct (dedupePath p (usedPaths st)) as [p' used'].
  intros [= <- <-]%Normal_inj. cbn [originalUrl relativePath content totalBytes].
  split_and!; first [done|lia].
Qed.

Lemma contentBytes_nonneg assets : (0 ≤ contentBytes assets)%Z.
Proof. induction assets as [|a l IH]; simpl; lia. Qed.

(** Storing a result at an index adds at most its bytes. *)
Lemma contentBytes_insert (results : list (option DownloadedAsset)) i r :
  (contentBytes (okAssetsOf (<[i := r]> results))
   ≤ contentBytes (okAssetsOf results) + resultBytes r)%Z.
Proof.
  assert (0 ≤ resultBytes r)%Z by (destruct r; simpl; lia).
  revert i. induction results as [|x results IH]; intros i; simpl; [lia|].
  destruct i as [|i]; simpl.
  - pose proof (contentBytes_nonneg (okAssetsOf results)).
    unfold okAssetsOf in *. destruct r, x; simpl in *; lia.
  - specialize (IH i). unfold okAssetsOf in *. destruct x; simpl in *; lia.
Qed.

Lemma elem_of_insert_inv {A} (l : list A) i x y :
  y ∈ <[i := x]> l → y = x ∨ y ∈ l.
Proof.
  revert i. induction l as [|a l IH]; intros i; simpl; [by right|].
  destruct i as [|i]; simpl.
  - intros [->|H]%elem_of_cons; [by left|right; by apply elem_of_cons; right].
  - intros [->|H]%elem_of_cons; [right; by apply elem_of_cons; left|].
    destruct (IH _ H) as [?|?]; [by left|right; by apply elem_of_cons; right].
Qed.

#[local] Arguments downloadAsset : simpl never.

(** What the workers request are items of the list. *)
Lemma startNext_spec items cursor log :
  extractions (startNext items cursor log) = extractions log
  ∧ ∃ extra, requests (startNext items cursor log) = requests log ++ extra
             ∧ Forall (fun x => x ∈ items) extra.
Proof.
  unfold startNext. destruct (items !! cursor) as [[kind assetUrl]|] eqn:E.
  - split; [done|]. exists [(kind, assetUrl)]. split; [done|].
    constructor; [by eapply list_elem_of_lookup_2|constructor].
  - split; [done|]. exists []. by rewrite app_nil_r.
Qed.

Lemma startWorkers_spec items workers cursor log :
  extractions (startWorkers items workers cursor log) = extractions log
  ∧ ∃ extra, requests (startWorkers items workers cursor log)
             = requests log ++ extra
             ∧ Forall (fun x => x ∈ items) extra.
Proof.
  revert cursor log.
  induction workers as [|workers IH]; intros cursor log; cbn [startWorkers].
  - split; [done|]. exists []. by rewrite app_nil_r.
  - destruct (IH (S cursor) (startNext items cursor log))
      as (Hex & extra & Hreq & Hall).
    destruct (startNext_spec items cursor log) as (Hex' & extra' & Hreq' & Hall').
    split; [congruence|]. exists (extra' ++ extra).
    rewrite Hreq, Hreq', app_assoc. split; [done|by apply Forall_app].
Qed.

(** The downloads of a job, in whatever order they complete: only items of
    the list are requested; every asset stored comes from an item; the
    counter grows, stays within the ceiling, and accounts for the bytes of
    the assets stored. *)
Lemma runWorkers_spec w j referer items order cursor results st log c
    cursor' log' :
  runWorkers w j referer items order cursor results st log = (c, cursor', log') →
  extractions log' = extractions log
  ∧ (∃ extra, requests log' = requests log ++ extra
              ∧ Forall (fun x => x ∈ items) extra)
  ∧ ∀ results' st', c = Normal (results', st') →
      (∀ a, Some a ∈ results' → Some a ∈ results ∨ fromItems items a)
      ∧ (totalBytes st ≤ totalBytes st')%Z
      ∧ ((totalBytes st ≤ MAX_TOTAL_ASSET_BYTES)%Z →
         (totalBytes st' ≤ MAX_TOTAL_ASSET_BYTES)%Z)
      ∧ (contentBytes (okAssetsOf results') + totalBytes st
         ≤ contentBytes (okAssetsOf results) + totalBytes st')%Z.
Proof.
  revert cursor results st log.
  induction order as [|index order IH]; intros cursor results st log;
    cbn [runWorkers].
  - intros [= <- <- <-]. split; [done|]. split.
    + exists []. by rewrite app_nil_r.
    + intros results' st' [= <- <-]. split_and!; [by left|lia|done|lia].
  - destruct (items !! index) as [[kind assetUrl]|] eqn:Ei; [|apply IH].
    destruct (cursor <=? index)%nat; [apply IH|].
    destruct (downloadAsset w j index assetUrl referer kind st)
      as [[r st1]|m] eqn:Ed.
    + intros Hrest. apply IH in Hrest as (Hex & (extra & Hreq & Hextra) & Hres).
      destruct (startNext_spec items cursor log)
        as (Hex' & extra' & Hreq' & Hextra').
      split; [congruence|]. split.
      * exists (extra' ++ extra). split; [|by apply Forall_app].
        by rewrite Hreq, Hreq', app_assoc.
      * intros results' st' Hc.
        destruct (Hres _ _ Hc) as (Hfrom & Hmono & Hmax & Hbytes).
        pose proof (downloadAsset_spec _ _ _ _ _ _ _ _ _ Ed) as Hd.
        pose proof (contentBytes_insert results index r) as Hins.
        assert (Hst : (totalBytes st1 = totalBytes st + resultBytes r)%Z
                      ∧ ((totalBytes st ≤ MAX_TOTAL_ASSET_BYTES)%Z →
                         (totalBytes st1 ≤ MAX_TOTAL_ASSET_BYTES)%Z)
                      ∧ (0 ≤ resultBytes r)%Z).
        { destruct r as [a|]; cbn [resultBytes].
          - destruct Hd as (_ & _ & -> & ? & ?). lia.
          - subst st1. lia. }
        destruct Hst as (Hst & Hmax1 & Hnn).
        split_and!.
        -- intros a Ha. destruct (Hfrom a Ha) as [Hin|?]; [|by right].
           apply elem_of_insert_inv in Hin as [<-|?]; [|by left].
           right. destruct Hd as (Hurl & Hpre & _).
           exists kind, assetUrl.
           split; [by eapply list_elem_of_lookup_2|done].
        -- lia.
        -- intros ?. by apply Hmax, Hmax1.
        -- lia.
    + intros [= <- <- <-]. split; [done|]. split; [|done].
      exists []. by rewrite app_nil_r.
Qed.

Lemma mapLimit_spec w j referer items order results st log c log' :
  mapLimit w j referer items order results st log = (c, log') →
  extractions log' = extractions log
  ∧ (∃ extra, requests log' = requests log ++ extra
              ∧ Forall (fun x => x ∈ items) extra)
  ∧ ∀ results' st', c = Normal (results', st') →
      (∀ a, Some a ∈ results' → Some a ∈ results ∨ fromItems items a)
      ∧ (totalBytes st ≤ totalBytes st')%Z
      ∧ ((totalBytes st ≤ MAX_TOTAL_ASSET_BYTES)%Z →
         (totalBytes st' ≤ MAX_TOTAL_ASSET_BYTES)%Z)
      ∧ (contentBytes (okAssetsOf results') + totalBytes st
         ≤ contentBytes (okAssetsOf results) + totalBytes st')%Z.
Proof.
  unfold mapLimit. cbv zeta.
  destruct (runWorkers w j referer items order _ results st _)
    as [[c0 cursor'] log0] eqn:H.
  intros [= <- <-].
  apply runWorkers_spec in H as (Hex & (extra & Hreq & Hextra) & Hres).
  destruct (startWorkers_spec items (Nat.max 1 ASSET_CONCURRENCY) 0 log)
    as (Hex' & extra' & Hreq' & Hextra').
  split; [congruence|]. split; [|done].
  exists (extra' ++ extra). split; [|by apply Forall_app].
  by rewrite Hreq, Hreq', app_assoc.
Qed.

(** The requests of a call are the items from the first on, in their order:
    a worker that takes the index at the cursor requests the next item. *)
Lemma startNext_take items cursor log base :
  requests log = base ++ take cursor items →
  requests (startNext items cursor log) = base ++ take (S cursor) items.
Proof.
  intros H. unfold startNext.
  destruct (items !! cursor) as [[kind assetUrl]|] eqn:E.
  - cbn [logRequest requests]. rewrite H, (take_S_r _ _ _ E).
    by rewrite app_assoc.
  - rewrite H. apply lookup_ge_None_1 in E. by rewrite !take_ge by lia.
Qed.

Lemma startWorkers_take items workers cursor log base :
  requests log = base ++ take cursor items →
  requests (startWorkers items workers cursor log)
  = base ++ take (cursor + workers) items.
Proof.
  revert cursor log.
  induction workers as [|workers IH]; intros cursor log H; cbn [startWorkers].
  - by rewrite Nat.add_0_r.
  - rewrite (IH (S cursor)); [f_equal; f_equal; lia|].
    by apply startNext_take.
Qed.

Lemma runWorkers_take w j referer items order cursor results st log base c
    cursor' log' :
  runWorkers w j referer items order cursor results st log = (c, cursor', log') →
  requests log = base ++ take cursor items →
  (cursor ≤ cursor' ≤ cursor + length order)%nat
  ∧ requests log' = base ++ take cursor' items.
Proof.
  revert cursor results st log.
  induction order as [|index order IH]; intros cursor results st log;
    cbn [runWorkers length].
  - intros [= <- <- <-] H. split; [lia|done].
  - assert (Hskip :
      runWorkers w j referer items order cursor results st log
      = (c, cursor', log') →
      requests log = base ++ take cursor items →
      (cursor ≤ cursor' ≤ cursor + S (length order))%nat
      ∧ requests log' = base ++ take cursor' items).
    { intros Hrun H. destruct (IH _ _ _ _ Hrun H) as (Hk & Hreq).
      split; [lia|done]. }
    destruct (items !! index) as [[kind assetUrl]|]; [|exact Hskip].
    destruct (cursor <=? index)%nat; [exact Hskip|].
    destruct (downloadAsset w j index assetUrl referer kind st) as [[r st1]|m].
    + intros Hrun H.
      destruct (IH _ _ _ _ Hrun (startNext_take _ _ _ _ H)) as (Hk & Hreq).
      split; [lia|done].
    + intros [= <- <- <-] H. split; [lia|done].
Qed.

(** [mapLimit] requests the items in their order, each at most once: the
    first six at once, and one more for every download that has returned. *)
Lemma mapLimit_requests w j referer items order results st log c log' :
  mapLimit w j referer items order results st log = (c, log') →
  ∃ k, (Nat.max 1 ASSET_CONCURRENCY ≤ k
        ≤ Nat.max 1 ASSET_CONCURRENCY + length order)%nat
       ∧ requests log' = requests log ++ take k items.
Proof.
  unfold mapLimit. cbv zeta.
  destruct (runWorkers w j referer items order _ results st _)
    as [[c0 cursor'] log0] eqn:H.
  intros [= <- <-]. exists cursor'.
  eapply runWorkers_take in H; [exact H|].
  rewrite (startWorkers_take items _ 0 log (requests log)); [done|].
  by rewrite take_0, app_nil_r.
Qed.

(** What a call stores was requested: an asset stands at the index of its
    item, below the cursor. *)
Lemma runWorkers_stored w j referer items order cursor results st log c
    cursor' log' :
  runWorkers w j referer items order cursor results st log = (c, cursor', log') →
  (∀ i a, results !! i = Some (Some a) →
     ∃ kind, items !! i = Some (kind, originalUrl a) ∧ (i < cursor)%nat) →
  ∀ results' st', c = Normal (results', st') →
    ∀ i a, results' !! i = Some (Some a) →
      ∃ kind, items !! i = Some (kind, originalUrl a) ∧ (i < cursor')%nat.
Proof.
  revert cursor results st log.
  induction order as [|index order IH]; intros cursor results st log;
    cbn [runWorkers].
  - intros [= <- <- <-] H results' st' [= <- <-]. exact H.
  - destruct (items !! index) as [[kind assetUrl]|] eqn:Ei; [|apply IH].
    destruct (Nat.leb_spec cursor index) as [_|Hlt]; [apply IH|].
    destruct (downloadAsset w j index assetUrl referer kind st)
      as [[r st1]|m] eqn:Ed.
    2:{ intros [= <- <- <-] _ results' st' Hc. discriminate Hc. }
    intros Hrun H. eapply IH; [exact Hrun|].
    intros i a [(<- & -> & _)|(Hne & Hi)]%list_lookup_insert_Some.
    + apply downloadAsset_spec in Ed as (-> & _). exists kind. split; [done|lia].
    + destruct (H i a Hi) as (k & Hk & ?). exists k. split; [done|lia].
Qed.

Lemma mapLimit_stored w j referer items order st log results' st' log' :
  mapLimit w j referer items order (replicate (length items) None) st log
  = (Normal (results', st'), log') →
  ∀ a, Some a ∈ results' → ∃ kind, (kind, originalUrl a) ∈ requests log'.
Proof.
  unfold mapLimit. cbv zeta.
  destruct (runWorkers w j referer items order _ _ st _)
    as [[c0 cursor'] log0] eqn:H.
  intros [= -> <-] a [i Hi]%list_elem_of_lookup_1.
  pose proof H as Hreq.
  eapply runWorkers_take in Hreq as [_ Hreq].
  2:{ rewrite (startWorkers_take items _ 0 log (requests log)); [done|].
      by rewrite take_0, app_nil_r. }
  eapply runWorkers_stored in H as (kind & Hk & Hlt); [| |reflexivity|exact Hi].
  - exists kind. rewrite Hreq. apply elem_of_app. right.
    apply (list_elem_of_lookup_2 _ i). by rewrite lookup_take_lt.
  - by intros k b [? _]%lookup_replicate.
Qed.

(** X26: the requests that a call of [mapLimit] over the assets of a
    job has issued when it ends are the first [k] items of the work list, in
    their order and each once, where [k] is at least the number of workers,
    six, so that a list of up to six items is requested whole, and at most
    six more than the downloads that have run on.  An asset that the call
    returns stands at the index of its item, and that item is among those
    requested. *)
Theorem mapLimit_requests_in_order w j referer items order st log c log' :
  mapLimit w j referer items order (replicate (length items) None) st log
  = (c, log') →
  ∃ k, (Nat.max 1 ASSET_CONCURRENCY ≤ k
        ≤ Nat.max 1 ASSET_CONCURRENCY + length order)%nat
       ∧ requests log' = requests log ++ take k items
       ∧ ∀ results' st', c = Normal (results', st') →
           ∀ i a, results' !! i = Some (Some a) →
             ∃ kind, items !! i = Some (kind, originalUrl a) ∧ (i < k)%nat.
Proof.
  unfold mapLimit. cbv zeta.
  destruct (runWorkers w j referer items order _ _ st _)
    as [[c0 cursor'] log0] eqn:H.
  intros [= <- <-]. exists cursor'.
  pose proof H as Hreq.
  eapply runWorkers_take in Hreq as [Hk Hreq].
  2:{ rewrite (startWorkers_take items _ 0 log (requests log)); [done|].
      by rewrite take_0, app_nil_r. }
  split_and!; [lia|lia|exact Hreq|].
  intros results' st' Hc i a Hi.
  eapply runWorkers_stored in H; [exact H| |exact Hc|exact Hi].
  by intros k b [? _]%lookup_replicate.
Qed.

Lemma mapLimit_requests_in_order_witness :
  let run :=
    mapLimit FailureExamples.secondBodyBroken 0 Examples.articleUrl
      FailureExamples.eightImages [2; 0; 1]%nat
      (replicate (length FailureExamples.eightImages) None)
      {| usedPaths := ∅; totalBytes := 0 |} noLog in
  ∃ k, (Nat.max 1 ASSET_CONCURRENCY ≤ k
        ≤ Nat.max 1 ASSET_CONCURRENCY + length [2; 0; 1]%nat)%nat
       ∧ requests run.2 = requests noLog ++ take k FailureExamples.eightImages
       ∧ ∀ results' st', run.1 = Normal (results', st') →
           ∀ i a, results' !! i = Some (Some a) →
             ∃ kind, FailureExamples.eightImages !! i
                     = Some (kind, originalUrl a) ∧ (i < k)%nat.
Proof.
  apply (mapLimit_requests_in_order FailureExamples.secondBodyBroken 0
           Examples.articleUrl FailureExamples.eightImages [2; 0; 1]%nat
           {| usedPaths := ∅; totalBytes := 0 |} noLog).
  apply surjective_pairing.
Defined.

(** Eight items, six workers.  When the second download is the first to
    end, and throws, six requests are out.  When two downloads have returned
    before it, their workers have requested the last two items. *)
Example mapLimit_requests_example :
  let run order :=
    mapLimit FailureExamples.secondBodyBroken 0 Examples.articleUrl
      FailureExamples.eightImages order (replicate 8 None)
      {| usedPaths := ∅; totalBytes := 0 |} noLog in
  (run [1; 0; 2]%nat).1 = Throw (js "terminated")
  ∧ requests (run [1; 0; 2]%nat).2 = take 6 FailureExamples.eightImages
  ∧ (run [2; 0; 1]%nat).1 = Throw (js "terminated")
  ∧ requests (run [2; 0; 1]%nat).2 = FailureExamples.eightImages.
Proof. vm_compute. done. Qed.

End AssetFacts.

(** ** The downloads of a job in any interleaving *)

Module PoolFacts.
Import JS Text Tar Download FolderFacts AssetFacts.

#[local] Arguments downloadAsset : simpl never.
#[local] Arguments afterFetch : simpl never.
#[local] Arguments countBytes : simpl never.
#[local] Arguments placeAsset : simpl never.

Lemma countBytes_spec content st st' :
  countBytes content st = Some st' →
  usedPaths st' = usedPaths st
  ∧ totalBytes st' = (totalBytes st + Z.of_nat (length content))%Z
  ∧ (totalBytes st' ≤ MAX_TOTAL_ASSET_BYTES)%Z
  ∧ (0 < Z.of_nat (length content) ≤ MAX_ASSET_BYTES)%Z.
Proof.
  unfold countBytes.
  repeat case_bool_decide; try done.
  intros [= <-]. cbn [usedPaths totalBytes]. split_and!; first [done|lia].
Qed.

Lemma placeAsset_spec w assetUrl kind response bytes st a st' :
  placeAsset w assetUrl kind response bytes st = Normal (a, st') →
  content a = bytes ∧ totalBytes st' = totalBytes st.
Proof.
  unfold placeAsset.
  destruct (buildRelativeAssetPath w assetUrl kind _) as [p|m]; [|done].
  unfold mbind, Completion_bind.
  destruct (dedupePath p (usedPaths st)) as [p' used'].
  by intros [= <- <-]%Normal_inj.
Qed.

Lemma poolResults_setTask i t st p :
  poolResults (setTask i t st p) = <[i := taskResult t]> (poolResults p).
Proof. unfold poolResults, setTask. cbn [tasks]. apply list_fmap_insert. Qed.

Lemma poolResults_idle i t st p t0 :
  tasks p !! i = Some t0 → taskResult t0 = None → taskResult t = None →
  poolResults (setTask i t st p) = poolResults p.
Proof.
  intros Hi H0 Ht. rewrite poolResults_setTask, Ht.
  apply list_insert_id. unfold poolResults. by rewrite list_lookup_fmap, Hi, <- H0.
Qed.


Lemma returnedBytes_insert ts i t :
  (contentBytes (okAssetsOf (map taskResult (<[i := t]> ts)))
   ≤ contentBytes (okAssetsOf (map taskResult ts)) + resultBytes (taskResult t))%Z.
Proof. rewrite list_fmap_insert. apply contentBytes_insert. Qed.

(** One step of the pool: the counter does not go down, stays within the
    ceiling, and grows by at least the bytes of what is returned. *)
Lemma step_counter w j referer items p p' :
  step w j referer items p p' →
  (totalBytes (shared p) ≤ totalBytes (shared p'))%Z
  ∧ ((totalBytes (shared p) ≤ MAX_TOTAL_ASSET_BYTES)%Z →
     (totalBytes (shared p') ≤ MAX_TOTAL_ASSET_BYTES)%Z)
  ∧ (returnedBytes p' + totalBytes (shared p)
     ≤ returnedBytes p + totalBytes (shared p'))%Z.
Proof.
  unfold returnedBytes, poolResults.
  destruct 1 as [p Hc Hw|p i kind assetUrl Ht Hi|p i kind assetUrl response Ht Hi].
  - cbn [tasks shared].
    pose proof (returnedBytes_insert (tasks p) (cursor p) Fetching).
    cbn [taskResult resultBytes] in *. lia.
  - unfold onResponse.
    destruct (afterFetch w kind _) as [response|]; cbn [setTask tasks shared].
    + pose proof (returnedBytes_insert (tasks p) i (Reading response)).
      cbn [taskResult resultBytes] in *. lia.
    + pose proof (returnedBytes_insert (tasks p) i (Returned None)).
      cbn [taskResult resultBytes] in *. lia.
  - unfold onBody. destruct (body response) as [bytes|m].
    + destruct (countBytes bytes (shared p)) as [st|] eqn:Ec.
      * apply countBytes_spec in Ec as (_ & Ht1 & Hmax & Hlen).
        destruct (placeAsset w assetUrl kind response bytes st)
          as [[a st']|m] eqn:Ep.
        -- apply placeAsset_spec in Ep as [Hb Ht2].
           cbn [setTask tasks shared].
           pose proof (returnedBytes_insert (tasks p) i (Returned (Some a))).
           cbn [taskResult resultBytes] in *. rewrite Hb in *. lia.
        -- cbn [reject tasks shared].
           pose proof (returnedBytes_insert (tasks p) i (Rejected m)).
           cbn [taskResult resultBytes] in *. lia.
      * cbn [setTask tasks shared].
        pose proof (returnedBytes_insert (tasks p) i (Returned None)).
        cbn [taskResult resultBytes] in *. lia.
    + cbn [reject tasks shared].
      pose proof (returnedBytes_insert (tasks p) i (Rejected m)).
      cbn [taskResult resultBytes] in *. lia.
Qed.

Lemma returnedBytes_initial n st : returnedBytes (initialPool n st) = 0%Z.
Proof.
  unfold returnedBytes, poolResults, initialPool. cbn [tasks].
  induction n as [|n IH]; [done|exact IH].
Qed.

(** Whatever the interleaving, the counter stays within the ceiling, and the
    bytes of the assets returned so far are part of what it has grown by. *)
Lemma pool_within_ceiling w j referer items st p :
  reachable w j referer items st p →
  (totalBytes st ≤ totalBytes (shared p))%Z
  ∧ ((totalBytes st ≤ MAX_TOTAL_ASSET_BYTES)%Z →
     (totalBytes (shared p) ≤ MAX_TOTAL_ASSET_BYTES)%Z)
  ∧ (returnedBytes p + totalBytes st ≤ totalBytes (shared p))%Z.
Proof.
  unfold reachable. intros H. pattern p.
  eapply rtc_ind_r; [|clear p H; intros p p' _ Hstep IH|exact H].
  - rewrite returnedBytes_initial. cbn [initialPool shared]. lia.
  - apply step_counter in Hstep. lia.
Qed.


(** What the call gives and the cursor do not depend on the log. *)
Lemma runWorkers_outcome w j referer items order cursor results st log log' :
  (runWorkers w j referer items order cursor results st log).1
  = (runWorkers w j referer items order cursor results st log').1.
Proof.
  revert cursor results st log log'.
  induction order as [|index order IH];
    intros cursor results st log log'; cbn [runWorkers]; [done|].
  destruct (items !! index) as [[kind assetUrl]|]; [|apply IH].
  destruct (cursor <=? index)%nat; [apply IH|].
  destruct (downloadAsset w j index assetUrl referer kind st) as [[r st']|m];
    [apply IH|done].
Qed.

Lemma mapLimit_outcome w j referer items order results st log :
  (mapLimit w j referer items order results st log).1
  = (runWorkers w j referer items order (Nat.max 1 ASSET_CONCURRENCY)
       results st noLog).1.1.
Proof.
  unfold mapLimit. cbv zeta.
  rewrite <- (runWorkers_outcome w j referer items order _ results st
                (startWorkers items (Nat.max 1 ASSET_CONCURRENCY) 0 log) noLog).
  by destruct (runWorkers w j referer items order _ results st _) as [[c k] l].
Qed.

(** One more continuation at the end of an order. *)
Lemma runWorkers_snoc w j referer items order i cursor results st log :
  runWorkers w j referer items (order ++ [i]) cursor results st log
  = match runWorkers w j referer items order cursor results st log with
    | (Throw m, cursor', log') => (Throw m, cursor', log')
    | (Normal (results', st'), cursor', log') =>
        runWorkers w j referer items [i] cursor' results' st' log'
    end.
Proof.
  revert cursor results st log.
  induction order as [|index order IH]; intros cursor results st log;
    cbn [app]; [done|].
  change (runWorkers w j referer items (index :: order ++ [i]) cursor results st log)
    with (match items !! index with
          | None => runWorkers w j referer items (order ++ [i]) cursor results st log
          | Some (kind, assetUrl) =>
              if (cursor <=? index)%nat
              then runWorkers w j referer items (order ++ [i]) cursor results st log
              else
                match downloadAsset w j index assetUrl referer kind st with
                | Throw m => (Throw m, cursor, log)
                | Normal (r, st) =>
                    runWorkers w j referer items (order ++ [i]) (S cursor)
                               (<[index := r]> results) st
                               (startNext items cursor log)
                end
          end).
  change (runWorkers w j referer items (index :: order) cursor results st log)
    with (match items !! index with
          | None => runWorkers w j referer items order cursor results st log
          | Some (kind, assetUrl) =>
              if (cursor <=? index)%nat
              then runWorkers w j referer items order cursor results st log
              else
                match downloadAsset w j index assetUrl referer kind st with
                | Throw m => (Throw m, cursor, log)
                | Normal (r, st) =>
                    runWorkers w j referer items order (S cursor)
                               (<[index := r]> results) st
                               (startNext items cursor log)
                end
          end).
  destruct (items !! index) as [[kind assetUrl]|]; [|apply IH].
  destruct (cursor <=? index)%nat; [apply IH|].
  destruct (downloadAsset w j index assetUrl referer kind st) as [[r st']|m];
    [apply IH|done].
Qed.

(** The run of a download that was started and returns. *)
Lemma runWorkers_returns w j referer items i kind assetUrl cursor results st log
    r st' :
  items !! i = Some (kind, assetUrl) → (i < cursor)%nat →
  downloadAsset w j i assetUrl referer kind st = Normal (r, st') →
  (runWorkers w j referer items [i] cursor results st log).1
  = (Normal (<[i := r]> results, st'), S cursor).
Proof.
  intros Hi Hlt Hd. cbn [runWorkers]. rewrite Hi.
  destruct (Nat.leb_spec cursor i) as [?|_]; [lia|]. by rewrite Hd.
Qed.

Lemma runWorkers_throws w j referer items i kind assetUrl cursor results st log
    m :
  items !! i = Some (kind, assetUrl) → (i < cursor)%nat →
  downloadAsset w j i assetUrl referer kind st = Throw m →
  (runWorkers w j referer items [i] cursor results st log).1.1 = Throw m.
Proof.
  intros Hi Hlt Hd. cbn [runWorkers]. rewrite Hi.
  destruct (Nat.leb_spec cursor i) as [?|_]; [lia|]. by rewrite Hd.
Qed.

(** Replacing one task changes a count by what the two tasks count. *)
Lemma count_insert (f : Task → bool) (l : list Task) i t t0 :
  l !! i = Some t0 →
  (length (filter (fun t => f t = true) (<[i := t]> l))
   + (if f t0 then 1 else 0)
   = length (filter (fun t => f t = true) l) + (if f t then 1 else 0))%nat.
Proof.
  revert i. induction l as [|x l IH]; intros i Hi; [done|].
  destruct i as [|i]; simpl in Hi.
  - injection Hi as ->. change (<[0%nat := t]> (t0 :: l)) with (t :: l).
    rewrite !filter_cons.
    destruct (decide (f t = true)) as [Ht|Ht%not_true_is_false];
      destruct (decide (f t0 = true)) as [Ht0|Ht0%not_true_is_false];
      rewrite Ht, Ht0; cbn [length]; lia.
  - change (<[S i := t]> (x :: l)) with (x :: <[i := t]> l).
    rewrite !filter_cons. specialize (IH i Hi).
    destruct (decide (f x = true)); cbn [length]; lia.
Qed.

Lemma wellFormed_initial w j referer items st :
  wellFormed w j referer items (initialPool (length items) st).
Proof.
  unfold wellFormed, initialPool. cbn [tasks cursor]. split_and!.
  - apply length_replicate.
  - by intros i t [-> _]%lookup_replicate.
  - by intros i response [? _]%lookup_replicate.
Qed.

Lemma wellFormed_insert w j referer items p i t c st f :
  wellFormed w j referer items p →
  (i < c)%nat → (cursor p ≤ c)%nat → t ≠ Queued →
  (∀ response, t = Reading response →
     ∃ kind assetUrl, items !! i = Some (kind, assetUrl)
       ∧ afterFetch w kind (fetch w j i assetUrl referer) = Some response) →
  wellFormed w j referer items
    {| tasks := <[i := t]> (tasks p); cursor := c; shared := st; failure := f |}.
Proof.
  intros (Hlen & Hq & Hr) Hi Hc Ht Hread. unfold wellFormed. cbn [tasks cursor].
  split_and!.
  - by rewrite length_insert.
  - intros i' t' [(<- & <- & _)|(Hne & Hl)]%list_lookup_insert_Some Hle; [lia|].
    apply (Hq _ _ Hl). lia.
  - intros i' r [(<- & -> & _)|(Hne & Hl)]%list_lookup_insert_Some.
    + by apply Hread.
    + by apply Hr.
Qed.


Lemma started w j referer items p i t :
  wellFormed w j referer items p → tasks p !! i = Some t → t ≠ Queued →
  (i < cursor p)%nat.
Proof.
  intros (_ & Hq & _) Hi Ht. destruct (decide (i < cursor p)%nat); [done|].
  destruct Ht. apply (Hq _ _ Hi). lia.
Qed.

Lemma step_wellFormed w j referer items p p' :
  wellFormed w j referer items p → step w j referer items p p' →
  wellFormed w j referer items p'.
Proof.
  intros Hwf.
  destruct 1 as [p Hc Hw|p i kind assetUrl Ht Hi|p i kind assetUrl response Ht Hi].
  - apply wellFormed_insert; [done|lia|lia|done|done].
  - pose proof (started _ _ _ _ _ _ _ Hwf Ht ltac:(done)) as Hlt.
    unfold onResponse.
    destruct (afterFetch w kind _) as [response|] eqn:Ea; unfold setTask.
    + apply wellFormed_insert; [done|lia|lia|done|].
      intros r [= <-]. by exists kind, assetUrl.
    + apply wellFormed_insert; [done|lia|lia|done|done].
  - pose proof (started _ _ _ _ _ _ _ Hwf Ht ltac:(done)) as Hlt.
    unfold onBody. destruct (body response) as [bytes|m].
    + destruct (countBytes bytes (shared p)) as [st|].
      * destruct (placeAsset w assetUrl kind response bytes st) as [[a st']|m];
          unfold setTask, reject;
          (apply wellFormed_insert; [done|lia|lia|done|done]).
      * unfold setTask. apply wellFormed_insert; [done|lia|lia|done|done].
    + unfold reject. apply wellFormed_insert; [done|lia|lia|done|done].
Qed.

Lemma reachable_wellFormed w j referer items st p :
  reachable w j referer items st p → wellFormed w j referer items p.
Proof.
  unfold reachable. intros H. pattern p.
  eapply rtc_ind_r; [|clear p H; intros p p' _ Hstep IH|exact H].
  - apply wellFormed_initial.
  - by eapply step_wellFormed.
Qed.

(** The first rejection stays. *)
Lemma step_failure w j referer items p p' m :
  step w j referer items p p' → failure p = Some m → failure p' = Some m.
Proof.
  destruct 1 as [p Hc Hw|p i kind assetUrl Ht Hi|p i kind assetUrl response Ht Hi];
    intros Hf.
  - done.
  - unfold onResponse. by destruct (afterFetch w kind _).
  - unfold onBody. destruct (body response) as [bytes|m'].
    + destruct (countBytes bytes (shared p)) as [st|]; [|done].
      destruct (placeAsset w assetUrl kind response bytes st) as [[a st']|m'];
        [done|].
      cbn [reject failure]. by rewrite Hf.
    + cbn [reject failure]. by rewrite Hf.
Qed.

Lemma count_queued (f : Task → bool) n :
  f Queued = false → filter (fun t => f t = true) (replicate n Queued) = [].
Proof.
  intros H. induction n as [|n IH]; [done|]. cbn [replicate].
  rewrite filter_cons_False; [done|]. by rewrite H.
Qed.

(** The cursor has passed as many items as have returned or hold a worker,
    and these are no more than the workers there are. *)
Lemma step_counted w j referer items p p' :
  wellFormed w j referer items p → step w j referer items p p' →
  (cursor p ≤ returnedCount p + workersTaken p)%nat
  ∧ (workersTaken p ≤ Nat.max 1 ASSET_CONCURRENCY)%nat →
  (cursor p' ≤ returnedCount p' + workersTaken p')%nat
  ∧ (workersTaken p' ≤ Nat.max 1 ASSET_CONCURRENCY)%nat.
Proof.
  intros (Hlen & Hq & _) Hstep [Hc Hw]. unfold returnedCount, workersTaken in *.
  assert (Hcount : ∀ i t t0 st f c,
            tasks p !! i = Some t0 →
            let p' := {| tasks := <[i := t]> (tasks p); cursor := c;
                         shared := st; failure := f |} in
            (length (filter (fun t => hasReturned t = true) (tasks p'))
             + (if hasReturned t0 then 1 else 0)
             = length (filter (fun t => hasReturned t = true) (tasks p))
               + (if hasReturned t then 1 else 0))%nat
            ∧ (length (filter (fun t => occupiesWorker t = true) (tasks p'))
               + (if occupiesWorker t0 then 1 else 0)
               = length (filter (fun t => occupiesWorker t = true) (tasks p))
                 + (if occupiesWorker t then 1 else 0))%nat).
  { intros i t t0 st f c Hi. cbn [tasks]. split; by apply count_insert. }
  destruct Hstep
    as [p Hcur Hfree|p i kind assetUrl Ht Hi|p i kind assetUrl response Ht Hi].
  - destruct (lookup_lt_is_Some_2 (tasks p) (cursor p)) as [t0 Ht0]; [lia|].
    assert (t0 = Queued) as -> by (by eapply Hq).
    destruct (Hcount _ Fetching _ (shared p) (failure p) (S (cursor p)) Ht0)
      as [H1 H2].
    cbn [hasReturned occupiesWorker tasks cursor] in *.
    unfold workersTaken in Hfree. lia.
  - unfold onResponse.
    destruct (afterFetch w kind _) as [response|]; unfold setTask;
      match goal with |- context [<[i := ?t]> (tasks p)] =>
        destruct (Hcount _ t _ (shared p) (failure p) (cursor p) Ht) as [H1 H2]
      end;
      cbn [hasReturned occupiesWorker tasks cursor] in *; lia.
  - unfold onBody. destruct (body response) as [bytes|m].
    + destruct (countBytes bytes (shared p)) as [st|].
      * destruct (placeAsset w assetUrl kind response bytes st) as [[a st']|m];
          unfold setTask, reject;
          match goal with |- context [{| tasks := <[i := ?t]> (tasks p);
                                         shared := ?s; failure := ?f |}] =>
            destruct (Hcount _ t _ s f (cursor p) Ht) as [H1 H2]
          end;
          cbn [hasReturned occupiesWorker tasks cursor] in *; lia.
      * unfold setTask.
        destruct (Hcount _ (Returned None) _ (shared p) (failure p) (cursor p) Ht)
          as [H1 H2].
        cbn [hasReturned occupiesWorker tasks cursor] in *. lia.
    + unfold reject.
      match goal with |- context [{| tasks := <[i := ?t]> (tasks p);
                                     shared := ?s; failure := ?f |}] =>
        destruct (Hcount _ t _ s f (cursor p) Ht) as [H1 H2]
      end.
      cbn [hasReturned occupiesWorker tasks cursor] in *. lia.
Qed.

Lemma reachable_counted w j referer items st p :
  reachable w j referer items st p →
  (cursor p ≤ returnedCount p + workersTaken p)%nat
  ∧ (workersTaken p ≤ Nat.max 1 ASSET_CONCURRENCY)%nat.
Proof.
  intros H. pose proof H as Hreach. unfold reachable in H. pattern p.
  eapply rtc_ind_r; [|clear p H Hreach; intros p p' Hp Hstep IH|exact H].
  - unfold initialPool, returnedCount, workersTaken. cbn [tasks cursor].
    rewrite !count_queued by done. cbn [length]. lia.
  - eapply step_counted; [|done|done]. by eapply reachable_wellFormed.
Qed.

(** A download that waits has been started by one of the workers of the
    order: its index is below their cursor. *)
Lemma waiting_started w j referer items p i t :
  wellFormed w j referer items p →
  (cursor p ≤ returnedCount p + workersTaken p)%nat
  ∧ (workersTaken p ≤ Nat.max 1 ASSET_CONCURRENCY)%nat →
  tasks p !! i = Some t → t ≠ Queued →
  (i < Nat.max 1 ASSET_CONCURRENCY + returnedCount p)%nat.
Proof.
  intros Hwf [Hc Hw] Hi Ht.
  pose proof (started _ _ _ _ _ _ _ Hwf Hi Ht). lia.
Qed.

(** A step of the pool is no step or one step of the order. *)
Lemma step_linearised w j referer items st p p' order :
  wellFormed w j referer items p →
  (cursor p ≤ returnedCount p + workersTaken p)%nat
  ∧ (workersTaken p ≤ Nat.max 1 ASSET_CONCURRENCY)%nat →
  step w j referer items p p' →
  scheduledBy w j referer items st order p →
  ∃ order', scheduledBy w j referer items st order' p'.
Proof.
  intros Hwf Hcounted Hstep Hrun. unfold scheduledBy in *. cbv zeta in *.
  set (W := Nat.max 1 ASSET_CONCURRENCY) in *.
  set (none := replicate (length items) None) in *.
  destruct (failure p) as [m|] eqn:Hf.
  { exists order. by rewrite (step_failure _ _ _ _ _ _ _ Hstep Hf). }
  assert (Hidle : ∀ i t t0 st1,
            tasks p !! i = Some t0 → hasReturned t0 = false →
            hasReturned t = false →
            returnedCount {| tasks := <[i := t]> (tasks p); cursor := cursor p;
                             shared := st1; failure := failure p |}
            = returnedCount p).
  { intros i t t0 st1 Hi H0 Ht. unfold returnedCount. cbn [tasks].
    pose proof (count_insert hasReturned (tasks p) i t t0 Hi) as Hn.
    rewrite H0, Ht in Hn. lia. }
  assert (Hdone : ∀ i t t0 st1,
            tasks p !! i = Some t0 → hasReturned t0 = false →
            hasReturned t = true →
            returnedCount {| tasks := <[i := t]> (tasks p); cursor := cursor p;
                             shared := st1; failure := failure p |}
            = S (returnedCount p)).
  { intros i t t0 st1 Hi H0 Ht. unfold returnedCount. cbn [tasks].
    pose proof (count_insert hasReturned (tasks p) i t t0 Hi) as Hn.
    rewrite H0, Ht in Hn. lia. }
  assert (Hone : ∀ i kind assetUrl t r st1,
            tasks p !! i = Some t → hasReturned t = false → t ≠ Queued →
            items !! i = Some (kind, assetUrl) →
            downloadAsset w j i assetUrl referer kind (shared p) = Normal (r, st1) →
            (runWorkers w j referer items (order ++ [i]) W none st noLog).1
            = (Normal (<[i := r]> (poolResults p), st1),
               (W + returnedCount (setTask i (Returned r) st1 p))%nat)).
  { intros i kind assetUrl t r st1 Ht Hnot Hq Hi Hd.
    rewrite runWorkers_snoc.
    destruct (runWorkers w j referer items order W none st noLog)
      as [[c k] l]. cbn [fst] in Hrun. injection Hrun as -> ->.
    erewrite runWorkers_returns; [|exact Hi| |exact Hd].
    - unfold setTask. rewrite (Hdone i (Returned r) t st1 Ht Hnot eq_refl).
      f_equal; lia.
    - by eapply waiting_started. }
  assert (Hthrow : ∀ i kind assetUrl t m,
            tasks p !! i = Some t → t ≠ Queued →
            items !! i = Some (kind, assetUrl) →
            downloadAsset w j i assetUrl referer kind (shared p) = Throw m →
            (runWorkers w j referer items (order ++ [i]) W none st noLog).1.1
            = Throw m).
  { intros i kind assetUrl t m Ht Hq Hi Hd.
    rewrite runWorkers_snoc.
    destruct (runWorkers w j referer items order W none st noLog)
      as [[c k] l]. cbn [fst] in Hrun. injection Hrun as -> ->.
    eapply runWorkers_throws; [exact Hi| |exact Hd].
    by eapply waiting_started. }
  destruct Hstep
    as [p Hc Hw|p i kind assetUrl Ht Hi|p i kind assetUrl response Ht Hi].
  - exists order. cbn [failure shared]. rewrite Hf, Hrun.
    destruct Hwf as (Hlen & Hq & _).
    destruct (lookup_lt_is_Some_2 (tasks p) (cursor p)) as [t Hcur]; [lia|].
    assert (t = Queued) as -> by (by eapply Hq).
    f_equal; [do 2 f_equal|f_equal].
    + unfold poolResults. cbn [tasks]. rewrite list_fmap_insert. symmetry.
      apply list_insert_id. by rewrite list_lookup_fmap, Hcur.
    + unfold returnedCount. cbn [tasks].
      pose proof (count_insert hasReturned (tasks p) (cursor p) Fetching Queued
                    Hcur) as Hn.
      cbn [hasReturned] in Hn. lia.
  - unfold onResponse.
    destruct (afterFetch w kind _) as [response|] eqn:Ea.
    + exists order. cbn [setTask failure shared]. rewrite Hf, Hrun.
      f_equal; [do 2 f_equal|f_equal].
      * symmetry. by eapply (poolResults_idle i (Reading response) (shared p) p).
      * symmetry. by apply (Hidle i (Reading response) Fetching (shared p)).
    + exists (order ++ [i]). cbn [setTask failure]. rewrite Hf.
      rewrite (Hone i kind assetUrl Fetching None (shared p)); try done.
      * by rewrite poolResults_setTask.
      * unfold downloadAsset. by rewrite Ea.
  - destruct Hwf as (_ & _ & Hr).
    destruct (Hr _ _ Ht) as (kind' & assetUrl' & Hi' & Ea).
    rewrite Hi in Hi'. injection Hi' as <- <-.
    exists (order ++ [i]). unfold onBody.
    destruct (body response) as [bytes|m] eqn:Eb.
    + destruct (countBytes bytes (shared p)) as [st1|] eqn:Ec.
      * destruct (placeAsset w assetUrl kind response bytes st1)
          as [[a st']|m] eqn:Ep.
        -- cbn [setTask failure]. rewrite Hf.
           rewrite (Hone i kind assetUrl (Reading response) (Some a) st');
             try done.
           ++ by rewrite poolResults_setTask.
           ++ unfold downloadAsset, afterBody. by rewrite Ea, Eb, Ec, Ep.
        -- cbn [reject failure]. rewrite Hf. cbn [default].
           eapply Hthrow; [exact Ht|done|exact Hi|].
           unfold downloadAsset, afterBody. by rewrite Ea, Eb, Ec, Ep.
      * cbn [setTask failure]. rewrite Hf.
        rewrite (Hone i kind assetUrl (Reading response) None (shared p));
          try done.
        -- by rewrite poolResults_setTask.
        -- unfold downloadAsset, afterBody. by rewrite Ea, Eb, Ec.
    + cbn [reject failure]. rewrite Hf. cbn [default].
      eapply Hthrow; [exact Ht|done|exact Hi|].
      unfold downloadAsset. by rewrite Ea, Eb.
Qed.

(** Whatever the interleaving of the downloads of a job, the pool stands
    where the workers of [runWorkers] stand for one order of whole
    continuations, each of a download that they have started. *)
Lemma pool_scheduled w j referer items st p :
  reachable w j referer items st p →
  ∃ order, scheduledBy w j referer items st order p.
Proof.
  intros H. pose proof H as Hreach. unfold reachable in H. pattern p.
  eapply rtc_ind_r; [|clear p H Hreach; intros p p' Hp Hstep [order IH]|exact H].
  - exists []. unfold scheduledBy, poolResults, initialPool, returnedCount.
    cbn [runWorkers fst failure tasks shared].
    f_equal; [do 2 f_equal|].
    + generalize (length items). clear. intros n.
      induction n as [|n IHn]; [done|]. cbn [replicate map taskResult].
      by rewrite <- IHn.
    + rewrite count_queued by done. cbn [length]. lia.
  - eapply step_linearised; [| |done|done].
    + by eapply reachable_wellFormed.
    + by eapply reachable_counted.
Qed.

(** Whatever the interleaving of the downloads of a job, what the pool gives
    is what [mapLimit] gives for one order of whole continuations. *)
Lemma pool_linearised w j referer items st p :
  reachable w j referer items st p →
  ∃ order,
    (mapLimit w j referer items order (replicate (length items) None) st noLog).1
    = poolOutcome p.
Proof.
  intros [order H]%pool_scheduled. exists order.
  rewrite mapLimit_outcome. unfold scheduledBy, poolOutcome in *. cbv zeta in H.
  destruct (failure p) as [m|]; [done|]. by rewrite H.
Qed.

(** A run on the twin work list in which the body of the second download
    arrives first: the second download gets the plain path and the first
    the numbered one. *)
Example twin_pool_run :
  ∃ p, reachable Examples.demoWorld 0 Examples.articleUrl Examples.twinItems
         {| usedPaths := ∅; totalBytes := 0 |} p
       ∧ map relativePath (okAssetsOf (poolResults p))
         = [js "assets/images/h/a_2.png"; js "assets/images/h/a.png"]
       ∧ totalBytes (shared p) = 6%Z
       ∧ failure p = None.
Proof.
  eexists. split.
  - unfold reachable.
    eapply rtc_l; [apply step_start; vm_compute; lia|].
    eapply rtc_l; [apply step_start; vm_compute; lia|].
    eapply rtc_l;
      [by eapply (step_response _ _ _ _ _ 0%nat Images Examples.plainImage)|].
    eapply rtc_l;
      [by eapply (step_response _ _ _ _ _ 1%nat Images Examples.plainImage)|].
    eapply rtc_l;
      [eapply (step_body _ _ _ _ _ 1%nat Images Examples.plainImage);
       vm_compute; reflexivity|].
    eapply rtc_l;
      [eapply (step_body _ _ _ _ _ 0%nat Images Examples.plainImage);
       vm_compute; reflexivity|].
    apply rtc_refl.
  - vm_compute. done.
Qed.

End PoolFacts.

(** ** The loop over the articles *)

Module LoopFacts.
Import JS Text Tar Download FolderFacts AssetFacts.

#[local] Arguments safeArticleFolder : simpl never.
#[local] Arguments buildArticleMarkdown : simpl never.
#[local] Arguments errorMarkdown : simpl never.
#[local] Arguments utf8 : simpl never.

Lemma assetBytes_app es1 es2 :
  assetBytes (es1 ++ es2) = (assetBytes es1 + assetBytes es2)%Z.
Proof. induction es1 as [|e es1 IH]; simpl; [done|]. rewrite IH. lia. Qed.

(** In a folder without a slash, the entries of assets below [assets/] weigh
    what the assets weigh. *)
Lemma assetBytes_assetEntries folder assets :
  slash ∉ folder →
  Forall (fun a => startsWith (js "assets/") (relativePath a) = true) assets →
  assetBytes (assetEntries folder assets) = contentBytes assets.
Proof.
  intros Hf. induction 1 as [|a assets Ha _ IH]; [done|].
  cbn [assetEntries map assetBytes contentBytes foldr].
  unfold assetEntries, assetBytes, contentBytes in IH. rewrite IH.
  unfold isAssetEntry. cbn [entryPath entrySize].
  change (folder ++ [slash] ++ relativePath a)
    with (folder ++ slash :: relativePath a).
  by rewrite belowTopFolder_app, Ha.
Qed.

(** A file directly in the folder is not an asset entry. *)
Lemma isAssetEntry_direct folder name content :
  slash ∉ folder → startsWith (js "assets/") name = false →
  isAssetEntry (File (folder ++ slash :: name) content None None) = false.
Proof.
  intros Hf Hn. unfold isAssetEntry. cbn [entryPath].
  by rewrite belowTopFolder_app.
Qed.

Lemma okAssetsOf_replicate n : okAssetsOf (replicate n None) = [].
Proof. induction n as [|n IH]; [done|]. exact IH. Qed.

Lemma elem_of_okAssetsOf a downloaded : a ∈ okAssetsOf downloaded → Some a ∈ downloaded.
Proof.
  unfold okAssetsOf. intros (y & Hy & E)%list_elem_of_omap.
  simpl in E. by subst y.
Qed.

(** The items of a job are of kinds that are enabled. *)
Lemma assetItems_enabled found options kind assetUrl :
  (kind, assetUrl) ∈ assetItems (pickAssets found options) →
  enabled options kind = true.
Proof.
  unfold assetItems, pickAssets. cbn [images files].
  intros [H|H]%elem_of_app; apply list_elem_of_fmap in H as (u & [= -> ->] & Hu);
    cbn [enabled].
  - destruct (downloadImages options); [done|by apply elem_of_nil in Hu].
  - destruct (downloadFiles options); [done|by apply elem_of_nil in Hu].
Qed.

Lemma extends_refl options log : extends options log log.
Proof. split; [done|]. exists []. by rewrite app_nil_r. Qed.

Lemma extends_trans options l1 l2 l3 :
  extends options l1 l2 → extends options l2 l3 → extends options l1 l3.
Proof.
  intros [E1 (x1 & R1 & F1)] [E2 (x2 & R2 & F2)]. split; [congruence|].
  exists (x1 ++ x2). split; [by rewrite R2, R1, <- app_assoc|].
  by apply Forall_app.
Qed.

Lemma processItem_spec w options item pkg log c log' :
  processItem w options item pkg log = (c, log') →
  extends options log log'
  ∧ ∀ pkg', c = Normal pkg' → ∃ out, turn options item pkg pkg' out.
Proof.
  unfold processItem.
  destruct (itemOutcome item) as [error|result found] eqn:Eo.
  - (* the extraction failed *)
    destruct (safeArticleFolder w (itemUrl item) None (itemIndex item))
      as [folder|m] eqn:Ef.
    2:{ intros [= <- <-]. split; [apply extends_refl|done]. }
    intros [= <- <-]. split; [apply extends_refl|].
    intros pkg' [= <-].
    pose proof (safeArticleFolder_no_backslash _ _ _ _ _ Ef) as Hback.
    apply safeArticleFolder_spec in Ef as (base & -> & Hbase).
    pose proof (folder_no_slash (itemIndex item) base Hbase) as Hslash.
    eexists (JobFailed _ _ _, [_]). unfold turn, jobOf. rewrite Eo.
    cbn [fst snd tarEntries manifest totalAssets recordFailure results total
         success failed recordUrl recordFolder jobEntries recordMatches].
    split_and!; try done; try lia.
    + by exists base.
    + cbn [assetBytes foldr].
      change (js "/error.md") with (slash :: js "error.md").
      rewrite isAssetEntry_direct by done. lia.
  - (* the extraction succeeded *)
    destruct (safeArticleFolder w (itemUrl item) (title result) (itemIndex item))
      as [folder|m] eqn:Ef.
    2:{ intros [= <- <-]. split; [apply extends_refl|done]. }
    pose proof (safeArticleFolder_no_backslash _ _ _ _ _ Ef) as Hback.
    apply safeArticleFolder_spec in Ef as (base & -> & Hbase).
    pose proof (folder_no_slash (itemIndex item) base Hbase) as Hslash.
    set (folder := indexPrefix (itemIndex item) ++ [underscore] ++ base) in *.
    set (items := assetItems (pickAssets found options)).
    destruct (mapLimit w (itemIndex item) (itemUrl item) items _ _ _ log)
      as [c0 log1] eqn:Em.
    apply mapLimit_spec in Em as (Hex & (extra & Hreq & Hextra) & Hres).
    assert (Hlog : extends options log log1).
    { split; [done|]. exists extra. split; [done|].
      eapply Forall_impl; [exact Hextra|]. intros [k u] Hin.
      by eapply assetItems_enabled. }
    destruct c0 as [[downloaded st]|m].
    2:{ intros [= <- <-]. split; [done|done]. }
    intros [= <- <-]. split; [done|]. intros pkg' [= <-].
    destruct (Hres _ _ eq_refl) as (Hfrom & Hmono & Hmax & Hbytes).
    cbn [totalBytes] in Hmono, Hmax, Hbytes.
    rewrite okAssetsOf_replicate in Hbytes. cbn [contentBytes foldr] in Hbytes.
    assert (Hassets : Forall (fun a => ∃ kind, enabled options kind = true
                        ∧ assetPrefix kind `prefix_of` relativePath a)
                      (okAssetsOf downloaded)).
    { apply Forall_forall. intros a Ha%elem_of_okAssetsOf.
      destruct (Hfrom a Ha) as [Hin|(kind & u & Hin & _ & Hpre)].
      - by apply elem_of_replicate in Hin as [? _].
      - exists kind. split; [|done]. by eapply assetItems_enabled. }
    eexists (JobOk _ _ _ _ _, _ ++ [_]). unfold turn, jobOf. rewrite Eo.
    cbn [fst snd tarEntries manifest totalAssets recordSuccess results total
         success failed recordUrl recordFolder jobEntries recordMatches].
    split_and!; try done; try lia.
    + exists base. split_and!; try done. by eexists _, _.
    + rewrite assetBytes_app, assetBytes_assetEntries; [|done|].
      * cbn [assetBytes foldr].
        change (js "/index.md") with (slash :: js "index.md").
        rewrite isAssetEntry_direct by done. lia.
      * eapply Forall_impl; [exact Hassets|].
        intros a (kind & _ & Hpre). by eapply assetPrefix_assets.
Qed.

Lemma processItems_spec w options items pkg log c log' :
  processItems w options items pkg log = (c, log') →
  extends options log log'
  ∧ ∀ pkg', c = Normal pkg' → ∃ outs, turns options items pkg pkg' outs.
Proof.
  revert pkg log. induction items as [|item items IH]; intros pkg log;
    cbn [processItems].
  - intros [= <- <-]. split; [apply extends_refl|].
    intros pkg' [= <-]. exists []. unfold turns.
    cbn [fmap list_fmap mjoin list_join length].
    rewrite !app_nil_r. split_and!; try done; try lia.
    cbn [assetBytes foldr]. lia.
  - destruct (processItem w options item pkg log) as [c1 log1] eqn:E1.
    apply processItem_spec in E1 as [Hlog1 Hturn].
    destruct c1 as [pkg1|m].
    2:{ intros [= <- <-]. split; [done|done]. }
    intros Hrest. apply IH in Hrest as [Hlog2 Hturns].
    split; [by eapply extends_trans|].
    intros pkg' Hc.
    destruct (Hturn _ eq_refl) as (out & He & Hr & Ht & Hn & Hjob & Hm & Hx & Hb).
    destruct (Hturns _ Hc) as (outs & HF & He' & Hr' & Ht' & Hn' & Hm' & Hx' & Hb').
    exists (out :: outs). unfold turns. rewrite !fmap_cons.
    change (mjoin (out.2 :: outs.*2)) with (out.2 ++ mjoin outs.*2).
    cbn [length]. split_and!.
    + by constructor.
    + by rewrite He', He, <- app_assoc.
    + by rewrite Hr', Hr, <- app_assoc.
    + congruence.
    + lia.
    + lia.
    + intros ?. by apply Hx', Hx.
    + rewrite assetBytes_app. lia.
Qed.

(** The items that [extractAll] makes: the URLs in order, numbered from
    [index], each with what the extractor returned for it. *)
Lemma extractAll_lookup w index urls k item :
  extractAll w index urls !! k = Some item →
  itemIndex item = (index + k)%nat
  ∧ urls !! k = Some (itemUrl item)
  ∧ itemOutcome item = extractArticleWithAssets w (index + k)%nat (itemUrl item).
Proof.
  revert index k. induction urls as [|url urls IH]; intros index k; [done|].
  cbn [extractAll]. destruct k as [|k]; simpl.
  - intros [= <-]. simpl. rewrite Nat.add_0_r. split_and!; [lia|done|done].
  - intros H. apply IH in H as (-> & ? & ->).
    replace (S index + k)%nat with (index + S k)%nat by lia.
    split_and!; [lia|done|done].
Qed.

Lemma extractAll_length w index urls :
  length (extractAll w index urls) = length urls.
Proof.
  revert index. induction urls as [|url urls IH]; intros index; [done|].
  cbn [extractAll length]. by rewrite IH.
Qed.

Lemma extractAll_urls w index urls :
  map itemUrl (extractAll w index urls) = urls.
Proof.
  revert index. induction urls as [|url urls IH]; intros index; [done|].
  cbn [extractAll map itemUrl]. by rewrite IH.
Qed.

(** *** When nothing throws *)

Lemma downloadAsset_returns w j i assetUrl referer kind st :
  noDownloadThrows w →
  ∃ r st', downloadAsset w j i assetUrl referer kind st = Normal (r, st').
Proof.
  intros Hw. unfold downloadAsset, afterFetch.
  destruct (fetch w j i assetUrl referer) as [response|] eqn:Ef; [|by eexists _, _].
  destruct (Hw _ _ _ _ _ Ef) as [[bytes Hb] [u Hu]].
  destruct (negb (ok response)); [by eexists _, _|].
  destruct (bool_decide (kind = Files) && _); [by eexists _, _|].
  rewrite Hb. unfold afterBody, countBytes.
  case_bool_decide; [by eexists _, _|].
  case_bool_decide; [by eexists _, _|].
  case_bool_decide; [by eexists _, _|].
  unfold placeAsset, buildRelativeAssetPath, newURL. rewrite Hu.
  unfold mbind, Completion_bind. cbn [usedPaths totalBytes].
  destruct (dedupePath _ (usedPaths st)) as [p used]. by eexists _, _.
Qed.

Lemma mapLimit_returns w j referer items order results st log :
  noDownloadThrows w →
  ∃ results' st' log',
    mapLimit w j referer items order results st log
    = (Normal (results', st'), log').
Proof.
  intros Hw. unfold mapLimit. cbv zeta.
  generalize (startWorkers items (Nat.max 1 ASSET_CONCURRENCY) 0 log).
  generalize (Nat.max 1 ASSET_CONCURRENCY).
  intros cursor log0.
  assert (H : ∃ results' st' cursor' log',
            runWorkers w j referer items order cursor results st log0
            = (Normal (results', st'), cursor', log')).
  { revert cursor results st log0.
    induction order as [|index order IH]; intros cursor results st log0;
      cbn [runWorkers].
    - by eexists _, _, _, _.
    - destruct (items !! index) as [[kind assetUrl]|]; [|apply IH].
      destruct (cursor <=? index)%nat; [apply IH|].
      destruct (downloadAsset_returns w j index assetUrl referer kind st Hw)
        as (r & st1 & ->).
      apply IH. }
  destruct H as (results' & st' & cursor' & log' & ->). by eexists _, _, _.
Qed.

Lemma processItem_returns w options item pkg log :
  noDownloadThrows w → validUrl w (itemUrl item) = true →
  ∃ pkg' log', processItem w options item pkg log = (Normal pkg', log').
Proof.
  intros Hw Hv. unfold processItem.
  destruct (itemOutcome item) as [error|result found].
  - destruct (safeArticleFolder_valid w (itemUrl item) None (itemIndex item) Hv)
      as [folder ->].
    by eexists _, _.
  - destruct (safeArticleFolder_valid w (itemUrl item) (title result)
                (itemIndex item) Hv) as [folder ->].
    edestruct (mapLimit_returns w (itemIndex item) (itemUrl item)) as (d & st & l & ->);
      [done|].
    by eexists _, _.
Qed.

Lemma processItems_returns w options items pkg log :
  noDownloadThrows w →
  Forall (fun item => validUrl w (itemUrl item) = true) items →
  ∃ pkg' log', processItems w options items pkg log = (Normal pkg', log').
Proof.
  intros Hw Hv. revert pkg log.
  induction Hv as [|item items Hitem _ IH]; intros pkg log; cbn [processItems].
  - by eexists _, _.
  - destruct (processItem_returns w options item pkg log Hw Hitem)
      as (pkg1 & log1 & ->).
    apply IH.
Qed.

End LoopFacts.

(** ** The run and the archive *)

Module RunFacts.
Import JS Text Tar Download FolderFacts AssetFacts PoolFacts LoopFacts.

#[local] Arguments processItems : simpl never.
#[local] Arguments extractAll : simpl never.

(** The run as the loop over the items of [extractAll], from an empty
    package. *)
Lemma packageRun_spec w options urls c log :
  packageRun w options urls = (c, log) →
  extractions log = urls
  ∧ (∀ x, x ∈ requests log → enabled options x.1 = true)
  ∧ ∀ pkg, c = Normal pkg →
      ∃ outs,
        Forall2 (jobOf options) (extractAll w 0 urls) outs
        ∧ tarEntries pkg = mjoin outs.*2
        ∧ results (manifest pkg) = outs.*1
        ∧ total (manifest pkg) = length urls
        ∧ (success (manifest pkg) + failed (manifest pkg))%nat = length urls
        ∧ (assetBytes (tarEntries pkg) ≤ totalAssets pkg ≤ MAX_TOTAL_ASSET_BYTES)%Z.
Proof.
  unfold packageRun. intros H.
  apply processItems_spec in H as [[Hex (extra & Hreq & Hextra)] Hturns].
  cbn [extractions requests] in Hex, Hreq. split; [done|]. split.
  - rewrite Hreq. cbn [app]. by apply Forall_forall.
  - intros pkg Hc.
    destruct (Hturns _ Hc) as (outs & HF & He & Hr & Ht & Hn & Hm & Hx & Hb).
    cbn [tarEntries manifest results total success failed totalAssets app]
      in He, Hr, Ht, Hn, Hm, Hx, Hb.
    rewrite extractAll_length in Hn.
    exists outs. rewrite He. split_and!; try done.
    + lia.
    + apply Hx. by vm_compute.
Qed.

(** C4: in a run that ends with an archive, the bytes of the asset entries
    are at most the counter, and the counter is at most 150 MiB; every single
    download leaves the counter within the ceiling, adding the bytes of the
    asset it returns, or nothing when it returns none; and in every
    interleaving of the downloads of a job, at every await, the counter is
    within the ceiling and covers the bytes of the assets returned so far. *)
Theorem total_bytes_within_ceiling w options urls pkg log :
  packageRun w options urls = (Normal pkg, log) →
  (assetBytes (tarEntries pkg) ≤ totalAssets pkg ≤ 150 * 1024 * 1024)%Z
  ∧ (∀ j i assetUrl referer kind st r st',
      downloadAsset w j i assetUrl referer kind st = Normal (r, st') →
      totalBytes st' = (totalBytes st + resultBytes r)%Z
      ∧ (r = None → st' = st)
      ∧ (r ≠ None ∨ (totalBytes st ≤ 150 * 1024 * 1024)%Z →
         (totalBytes st' ≤ 150 * 1024 * 1024)%Z))
  ∧ ∀ j referer items st p,
      reachable w j referer items st p →
      (totalBytes st ≤ 150 * 1024 * 1024)%Z →
      (returnedBytes p + totalBytes st ≤ totalBytes (shared p)
       ≤ 150 * 1024 * 1024)%Z.
Proof.
  intros H. split; [|split].
  - apply packageRun_spec in H as (_ & _ & H).
    destruct (H _ eq_refl) as (outs & _ & _ & _ & _ & _ & Hb). exact Hb.
  - intros j i assetUrl referer kind st r st' Hd.
    apply downloadAsset_spec in Hd. destruct r as [a|]; cbn [resultBytes].
    + destruct Hd as (_ & _ & Ht & Hmax & _). split_and!; [done|done|].
      intros _. exact Hmax.
    + subst st'. split_and!; [lia|done|]. by intros [?|?].
  - intros j referer items st p Hp Hst.
    apply pool_within_ceiling in Hp as (_ & Hmax & Hbytes).
    split; [exact Hbytes|]. apply Hmax. exact Hst.
Qed.

Lemma total_bytes_within_ceiling_witness :
  ∃ pkg log,
    packageRun Examples.demoWorld {| downloadImages := true; downloadFiles := true |}
      [Examples.articleUrl; Examples.brokenUrl] = (Normal pkg, log)
    ∧ (assetBytes (tarEntries pkg) ≤ totalAssets pkg ≤ 150 * 1024 * 1024)%Z
    ∧ totalAssets pkg = 9%Z.
Proof.
  eexists _, _. split; [vm_compute; reflexivity|].
  split; [|vm_compute; reflexivity].
  eapply proj1, (total_bytes_within_ceiling Examples.demoWorld
                   {| downloadImages := true; downloadFiles := true |}
                   [Examples.articleUrl; Examples.brokenUrl]).
  vm_compute. reflexivity.
Defined.

(** Every entry of a job lies in the job's folder: its [error.md], its
    [index.md], or an asset below the folder of an enabled kind. *)
Lemma jobEntries_path options r es e :
  jobEntries options r es → e ∈ es →
  ∃ rest, entryPath e = recordFolder r ++ slash :: rest
          ∧ (rest = js "error.md" ∨ rest = js "index.md"
             ∨ ∃ kind, enabled options kind = true
                       ∧ assetPrefix kind `prefix_of` rest).
Proof.
  destruct r as [url folder error|url folder ni nf nd]; cbn [jobEntries recordFolder].
  - intros -> ->%list_elem_of_singleton. exists (js "error.md").
    split; [reflexivity|by left].
  - intros (assets & markdown & -> & _ & Hassets) [He|He]%elem_of_app.
    + apply list_elem_of_fmap in He as (a & -> & Ha).
      rewrite Forall_forall in Hassets. destruct (Hassets a Ha) as (kind & ? & ?).
      exists (relativePath a). split; [reflexivity|]. right; right. by exists kind.
    + apply list_elem_of_singleton in He as ->. exists (js "index.md").
      split; [reflexivity|right; by left].
Qed.

Lemma jobOf_folder options item out :
  jobOf options item out →
  (slash ∉ recordFolder out.1) ∧ recordFolder out.1 ≠ [].
Proof.
  intros (base & _ & -> & Hbase & _). split; [by apply folder_no_slash|].
  intros H. apply (f_equal length) in H.
  rewrite !length_app in H. simpl in H. lia.
Qed.

(** An output of the loop belongs to an item. *)
Lemma output_item options items outs out :
  Forall2 (jobOf options) items outs → out ∈ outs →
  ∃ item, item ∈ items ∧ jobOf options item out.
Proof.
  intros HF Hout. apply list_elem_of_lookup_1 in Hout as [k Hk].
  destruct (Forall2_lookup_r _ _ _ _ _ HF Hk) as (item & Hi & Hjob).
  exists item. split; [by eapply list_elem_of_lookup_2|done].
Qed.

Lemma entry_output (outs : list (JobRecord * list TarEntry)) e :
  e ∈ mjoin outs.*2 → ∃ out, out ∈ outs ∧ e ∈ out.2.
Proof.
  intros (es & He & Hes)%list_elem_of_join.
  apply list_elem_of_fmap in Hes as (out & -> & Hout). by exists out.
Qed.


(** The run over the demo article with the files left out: the two images
    are requested, the paper is not. *)
Example files_left_out_example :
  (packageRun Examples.demoWorld {| downloadImages := true; downloadFiles := false |}
     [Examples.articleUrl]).2
  = {| extractions := [Examples.articleUrl];
       requests := [(Images, Examples.plainImage); (Images, Examples.queryImage)] |}.
Proof. vm_compute. reflexivity. Qed.

(** The output at position [k] belongs to the URL at position [k] and has
    the folder numbered [k + 1]. *)
Lemma output_at w options urls outs k out :
  Forall2 (jobOf options) (extractAll w 0 urls) outs →
  outs !! k = Some out →
  ∃ base,
    urls !! k = Some (recordUrl out.1)
    ∧ recordFolder out.1 = indexPrefix k ++ [underscore] ++ base
    ∧ (slash ∉ base)
    ∧ recordMatches (extractArticleWithAssets w k (recordUrl out.1)) out.1
    ∧ jobEntries options out.1 out.2.
Proof.
  intros HF Hk.
  destruct (Forall2_lookup_r _ _ _ _ _ HF Hk) as (item & Hi & Hjob).
  apply extractAll_lookup in Hi as (Hindex & Hurl & Houtcome).
  destruct Hjob as (base & Hu & Hf & Hb & Hm & Hes & _).
  exists base. rewrite Hu. rewrite Hindex in Hf. rewrite Houtcome in Hm.
  by split_and!.
Qed.

Lemma outputs_same_folder w options urls outs k1 k2 o1 o2 :
  Forall2 (jobOf options) (extractAll w 0 urls) outs →
  outs !! k1 = Some o1 → outs !! k2 = Some o2 →
  recordFolder o1.1 = recordFolder o2.1 → k1 = k2.
Proof.
  intros HF H1 H2 E.
  destruct (output_at _ _ _ _ _ _ HF H1) as (b1 & _ & E1 & _).
  destruct (output_at _ _ _ _ _ _ HF H2) as (b2 & _ & E2 & _).
  rewrite E1, E2 in E. by apply folder_inj in E.
Qed.

Lemma output_entry_folder options out e :
  (slash ∉ recordFolder out.1) → jobEntries options out.1 out.2 → e ∈ out.2 →
  topFolder (entryPath e) = recordFolder out.1.
Proof.
  intros Hslash Hes He.
  destruct (jobEntries_path _ _ _ _ Hes He) as (rest & -> & _).
  by apply topFolder_app.
Qed.

(** The handler on a request that passes the validation, when the run ends
    normally. *)
Lemma handler_sends w req pkg log :
  method req = js "POST" →
  passesValidation w (requestUrls (default emptyBody (reqBody req))) →
  packageRun w (requestOptions (default emptyBody (reqBody req)))
    (requestUrls (default emptyBody (reqBody req))) = (Normal pkg, log) →
  handler w req
  = (Send 200 (createTarGz w (tarEntries pkg ++ [manifestEntry w (manifest pkg)])),
     log).
Proof.
  intros Hm (Hne & Hmax & Hvalid) Hrun. unfold handler. rewrite Hm.
  change (eqb (js "POST") (js "OPTIONS")) with false.
  change (negb (eqb (js "POST") (js "POST"))) with false.
  cbv beta iota zeta.
  rewrite bool_decide_eq_false_2.
  2:{ intros H. by apply length_zero_iff_nil in H. }
  rewrite bool_decide_eq_false_2 by lia.
  by rewrite Hvalid, Hrun.
Qed.

(** X25: a POST of [n] URLs that passes the validation.  When no
    download throws, the run ends with an archive.  Whenever it ends with an
    archive, that is what the handler sends, with status 200; the manifest
    has [total = n], [success + failed = n] and one record per URL, in
    order; the folders of the records are single path segments, pairwise
    distinct; every entry handed to the encoder lies in the folder of a
    record; and every record has its entries: a failed job its [error.md]
    alone, whose text names the URL and the error that the extraction
    reported, a successful job an [index.md]. *)
Theorem every_url_has_its_folder w req :
  method req = js "POST" →
  let body := default emptyBody (reqBody req) in
  let urls := requestUrls body in
  let options := requestOptions body in
  passesValidation w urls →
  (noDownloadThrows w → ∃ pkg log, packageRun w options urls = (Normal pkg, log))
  ∧ ∀ pkg log,
      packageRun w options urls = (Normal pkg, log) →
      let m := manifest pkg in
      handler w req
      = (Send 200 (createTarGz w (tarEntries pkg ++ [manifestEntry w m])), log)
      ∧ total m = length urls
      ∧ (success m + failed m)%nat = length urls
      ∧ map recordUrl (results m) = urls
      ∧ NoDup (map recordFolder (results m))
      ∧ (∀ r, r ∈ results m → (slash ∉ recordFolder r) ∧ recordFolder r ≠ [])
      ∧ (∀ e, e ∈ tarEntries pkg →
              topFolder (entryPath e) ∈ map recordFolder (results m))
      ∧ (∀ k r, results m !! k = Some r → jobLeaves w (tarEntries pkg) k r).
Proof.
  intros Hm body urls options Hpass. split.
  - (* the run ends normally *)
    intros Hw. unfold packageRun. apply processItems_returns; [done|].
    destruct Hpass as (_ & _ & Hvalid).
    apply Forall_forall. intros item Hitem.
    apply (HandlerFacts.firstInvalid_None w urls Hvalid).
    rewrite <- (extractAll_urls w 0 urls).
    apply list_elem_of_fmap. by exists item.
  - intros pkg log Hrun m.
    pose proof (handler_sends w req pkg log Hm Hpass Hrun) as Hsend.
    apply packageRun_spec in Hrun as (_ & _ & Hrun).
    destruct (Hrun _ eq_refl) as (outs & HF & Hentries & Hresults & Htotal & Hcount & _).
    fold m in Hresults, Htotal, Hcount. split; [exact Hsend|].
    rewrite Hresults, Hentries.
    assert (Hlen : length outs = length urls).
    { rewrite <- (Forall2_length _ _ _ HF). apply extractAll_length. }
    split_and!; try done.
    + (* one record per URL, in order *)
      apply list_eq. intros k. rewrite !list_lookup_fmap.
      destruct (outs !! k) as [out|] eqn:Hk; cbn [fmap option_fmap option_map].
      * by destruct (output_at _ _ _ _ _ _ HF Hk) as (_ & -> & _).
      * symmetry. apply lookup_ge_None_2.
        apply lookup_ge_None_1 in Hk. lia.
    + (* the folders differ *)
      apply NoDup_alt. intros k1 k2 folder. rewrite !list_lookup_fmap.
      destruct (outs !! k1) as [o1|] eqn:H1; [|done].
      destruct (outs !! k2) as [o2|] eqn:H2; [|done].
      cbn [fmap option_fmap option_map]. intros [= <-] [= E].
      by eapply outputs_same_folder.
    + (* a folder is one segment *)
      intros r (out & -> & Hout)%list_elem_of_fmap.
      destruct (output_item _ _ _ _ HF Hout) as (item & _ & Hjob).
      by eapply jobOf_folder.
    + (* every entry is in a job's folder *)
      intros e (out & Hout & He)%entry_output.
      destruct (output_item _ _ _ _ HF Hout) as (item & _ & Hjob).
      destruct (jobOf_folder _ _ _ Hjob) as [Hslash _].
      destruct Hjob as (_ & _ & _ & _ & _ & Hes & _).
      rewrite (output_entry_folder _ _ _ Hslash Hes He).
      apply list_elem_of_fmap. exists out.1. split; [done|].
      apply list_elem_of_fmap. by exists out.
    + (* every job has its entries *)
      intros k r Hr. rewrite list_lookup_fmap in Hr.
      destruct (outs !! k) as [out|] eqn:Hk; [|done].
      cbn [fmap option_fmap option_map] in Hr. injection Hr as <-.
      destruct (output_at _ _ _ _ _ _ HF Hk) as (base & _ & Hfolder & Hbase & Hmatch & Hes).
      assert (Hslash : slash ∉ recordFolder out.1)
        by (rewrite Hfolder; by apply folder_no_slash).
      assert (Hsub : ∀ e, e ∈ out.2 → e ∈ mjoin outs.*2).
      { intros e He. apply list_elem_of_join. exists out.2. split; [done|].
        apply list_elem_of_fmap. exists out. split; [done|].
        by eapply list_elem_of_lookup_2. }
      destruct out as [[url folder error|url folder ni nf nd] es];
        cbn [fst snd recordFolder recordUrl jobLeaves jobEntries] in *.
      * (* a failed job *)
        destruct (extractArticleWithAssets w k url) as [error'|] eqn:Ex; [|done].
        cbn [recordMatches] in Hmatch. subst error es. split; [done|].
        exists [35; 32; 25552; 21462; 22833; 36133; 10; 10; 42; 42; 26469;
                28304; 42; 42; 58; 32],
               [10; 10; 42; 42; 38169; 35823; 42; 42; 58; 32].
        intros e. split.
        -- intros [(out' & Hout' & He)%entry_output Htop].
           apply list_elem_of_lookup_1 in Hout' as [k' Hk'].
           destruct (output_at _ _ _ _ _ _ HF Hk') as (b' & _ & Hf' & Hb' & _ & Hes').
           assert (Hslash' : slash ∉ recordFolder out'.1)
             by (rewrite Hf'; by apply folder_no_slash).
           rewrite (output_entry_folder _ _ _ Hslash' Hes' He) in Htop.
           assert (k' = k) as -> by by eapply (outputs_same_folder _ _ _ _ _ _ _ _ HF Hk' Hk).
           rewrite Hk in Hk'. injection Hk' as <-. cbn [snd] in He.
           by apply list_elem_of_singleton in He.
        -- intros ->. split.
           ++ apply Hsub. by apply list_elem_of_singleton.
           ++ cbn [entryPath]. change (js "/error.md") with (slash :: js "error.md").
              by apply topFolder_app.
      * (* a successful job *)
        destruct (extractArticleWithAssets w k url) as [|result found] eqn:Ex; [done|].
        split; [by eexists _, _|].
        destruct Hes as (assets & markdown & -> & _ & _).
        exists (utf8 markdown). apply Hsub, elem_of_app. right.
        by apply list_elem_of_singleton.
Qed.

Lemma demoWorld_noDownloadThrows : noDownloadThrows Examples.demoWorld.
Proof.
  intros j i assetUrl referer response. cbn [fetch parseURL Examples.demoWorld].
  unfold Examples.demoFetch.
  destruct (Examples.demoParseURL assetUrl) as [u|]; [|done].
  intros [= <-]. cbn [body]. split; by eexists.
Qed.

Lemma every_url_has_its_folder_witness :
  packageRun Examples.demoWorld {| downloadImages := true; downloadFiles := true |}
    [Examples.articleUrl; Examples.brokenUrl]
  = (Normal Examples.demoPackage, Examples.demoRun.2)
  ∧ handler Examples.demoWorld
      (Examples.post [Examples.articleUrl; Examples.brokenUrl] JSUndefined JSUndefined)
    = (Send 200 (createTarGz Examples.demoWorld
                   (tarEntries Examples.demoPackage
                      ++ [manifestEntry Examples.demoWorld
                            (manifest Examples.demoPackage)])),
       Examples.demoRun.2)
  ∧ total (manifest Examples.demoPackage) = 2%nat
  ∧ (success (manifest Examples.demoPackage)
     + failed (manifest Examples.demoPackage))%nat = 2%nat
  ∧ NoDup (map recordFolder (results (manifest Examples.demoPackage)))
  ∧ ∃ pkg log,
      packageRun Examples.demoWorld {| downloadImages := true; downloadFiles := true |}
        [Examples.articleUrl; Examples.brokenUrl] = (Normal pkg, log).
Proof.
  assert (Hrun : packageRun Examples.demoWorld
                   {| downloadImages := true; downloadFiles := true |}
                   [Examples.articleUrl; Examples.brokenUrl]
                 = (Normal Examples.demoPackage, Examples.demoRun.2))
    by (vm_compute; reflexivity).
  assert (Hpass : passesValidation Examples.demoWorld
                    [Examples.articleUrl; Examples.brokenUrl]).
  { split_and!; [discriminate|vm_compute; lia|vm_compute; reflexivity]. }
  destruct (every_url_has_its_folder Examples.demoWorld
              (Examples.post [Examples.articleUrl; Examples.brokenUrl]
                 JSUndefined JSUndefined) eq_refl Hpass) as [Hreturns Hprops].
  destruct (Hprops _ _ Hrun) as (Hsend & Htotal & Hcount & _ & Hfolders & _).
  split_and!; [exact Hrun|exact Hsend|exact Htotal|exact Hcount|exact Hfolders|].
  exact (Hreturns demoWorld_noDownloadThrows).
Defined.

(** The manifest and the paths of that run: two records, two folders. *)
Example demo_run_example :
  manifest Examples.demoPackage
  = {| total := 2; success := 1; failed := 1;
       results := [JobOk Examples.articleUrl (js "001_A post") 2 1 3;
                   JobFailed Examples.brokenUrl (js "002_down.example") (js "boom")] |}
  ∧ map entryPath (tarEntries Examples.demoPackage)
    = [js "001_A post/assets/images/h/a.png";
       js "001_A post/assets/images/h/a__c8ef17d874.png";
       js "001_A post/assets/files/h/docs/paper.pdf";
       js "001_A post/index.md";
       js "002_down.example/error.md"].
Proof. split; vm_compute; reflexivity. Qed.

(** What the handler has requested when a download throws: the workers are
    started together, so all three requests of the first job are out when
    the first body fails. *)
Example requests_at_a_throw_example :
  requests
    (handler FailureExamples.brokenBodies
       (Examples.post [Examples.articleUrl] JSUndefined JSUndefined)).2
  = [(Images, Examples.plainImage); (Images, Examples.queryImage);
     (Files, Examples.paper)].
Proof. vm_compute. reflexivity. Qed.

(** C6: the archive does not always reflect every requested URL.  Three
    URLs of which the second cannot be extracted pass the validation; on a
    network whose responses are ok but whose bodies cannot be read, the
    first download of the first job throws out of [downloadAsset], and the
    handler answers 400 with the message of that error and no archive.  The
    same request on a network whose bodies can be read is answered with the
    archive: two successes, one failure and three folders. *)
Theorem unreadable_body_no_archive :
  let urls := [Examples.articleUrl; Examples.brokenUrl; Examples.articleUrl] in
  let req := Examples.post urls JSUndefined JSUndefined in
  let everything := {| downloadImages := true; downloadFiles := true |} in
  passesValidation FailureExamples.brokenBodies urls
  ∧ (handler FailureExamples.brokenBodies req).1 = Json 400 (js "terminated")
  ∧ (∀ status bytes,
       (handler FailureExamples.brokenBodies req).1 ≠ Send status bytes)
  ∧ ∃ pkg log,
      packageRun Examples.demoWorld everything urls = (Normal pkg, log)
      ∧ handler Examples.demoWorld req
        = (Send 200 (createTarGz Examples.demoWorld
                       (tarEntries pkg
                          ++ [manifestEntry Examples.demoWorld (manifest pkg)])),
           log)
      ∧ success (manifest pkg) = 2%nat
      ∧ failed (manifest pkg) = 1%nat
      ∧ map recordFolder (results (manifest pkg))
        = [js "001_A post"; js "002_down.example"; js "003_A post"].
Proof.
  intros urls req everything.
  assert (Hanswer : (handler FailureExamples.brokenBodies req).1
                    = Json 400 (js "terminated"))
    by (vm_compute; reflexivity).
  split_and!.
  - split_and!; [discriminate|vm_compute; lia|vm_compute; reflexivity].
  - exact Hanswer.
  - intros status bytes H. rewrite Hanswer in H. discriminate.
  - destruct (packageRun Examples.demoWorld everything urls) as [c log] eqn:Hrun.
    assert (Hc : ∃ pkg, c = Normal pkg
                        ∧ success (manifest pkg) = 2%nat
                        ∧ failed (manifest pkg) = 1%nat
                        ∧ map recordFolder (results (manifest pkg))
                          = [js "001_A post"; js "002_down.example";
                             js "003_A post"]).
    { apply (f_equal fst) in Hrun. cbn [fst] in Hrun. subst c.
      vm_compute. eexists. split; [reflexivity|]. by split_and!. }
    destruct Hc as (pkg & -> & Hs & Hf & Hfolders).
    exists pkg, log. split_and!; [done| |done..].
    apply handler_sends; [done| |exact Hrun].
    split_and!; [discriminate|vm_compute; lia|vm_compute; reflexivity].
Qed.

(** A title of 60 CJK characters gives a folder of 184 bytes, which fits
    neither the name nor the prefix field: the header of the folder and the
    header of its [index.md] are both named [path_] and a hash, so the
    archive shows two entries at its top and no folder of that job. *)
Example long_title_loses_its_folder :
  let title := replicate 60 20013 in
  let folder := js "001_" ++ title in
  safeArticleFolder Examples.demoWorld Examples.articleUrl (Some title) 0
  = Normal folder
  ∧ splitTarPath (folder ++ js "/index.md")
    = {| name := js "path_bc4753487bf6953b"; prefix := [] |}
  ∧ splitTarPath (folder ++ js "/")
    = {| name := js "path_ef3102042a0b5ab0"; prefix := [] |}.
Proof. split_and!; vm_compute; reflexivity. Qed.

End RunFacts.

(** ** Paths, padding and octal fields of the encoder *)

Module TarFacts.
Import JS Text Tar Download DigitFacts HeaderFacts.

(** *** [toPosixPath] *)

Lemma stripLeadingSlashes_suffix s : stripLeadingSlashes s `suffix_of` s.
Proof.
  induction s as [|c s IH]; simpl; [done|].
  destruct (c =? slash); [by apply suffix_cons_r|done].
Qed.

Lemma stripLeadingSlashes_id s :
  head s ≠ Some slash → stripLeadingSlashes s = s.
Proof.
  destruct s as [|c s]; simpl; [done|]. intros H.
  destruct (c =? slash) eqn:E; [|done].
  apply N.eqb_eq in E. by subst c.
Qed.

Lemma unbackslash_elem (path : jsstring) :
  backslash ∉ map (fun c => if c =? backslash then slash else c) path.
Proof.
  intros (c & Hc & _)%list_elem_of_fmap.
  destruct (c =? backslash) eqn:E; [done|].
  apply N.eqb_neq in E. congruence.
Qed.

Lemma unbackslash_id (s : jsstring) :
  backslash ∉ s → map (fun c => if c =? backslash then slash else c) s = s.
Proof.
  intros H. rewrite <- (list_fmap_id s) at 2. apply list_fmap_ext.
  intros i c Hc. destruct (c =? backslash) eqn:E; [|done].
  apply N.eqb_eq in E. subst c. destruct H. by eapply list_elem_of_lookup_2.
Qed.

(** X1: [toPosixPath] returns a path without a backslash and without a
    slash in front that is no longer than its input; applying it again
    changes nothing, and a path that has neither is returned as it is. *)
Theorem toPosixPath_normal (path : jsstring) :
  let r := toPosixPath path in
  (backslash ∉ r)
  ∧ head r ≠ Some slash
  ∧ (length r ≤ length path)%nat
  ∧ toPosixPath r = r
  ∧ (backslash ∉ path → head path ≠ Some slash → r = path).
Proof.
  intros r. subst r. unfold toPosixPath.
  set (u := map (fun c => if c =? backslash then slash else c) path).
  assert (Hu : backslash ∉ u) by apply unbackslash_elem.
  assert (Hr : backslash ∉ stripLeadingSlashes u).
  { intros Hin. apply Hu. eapply elem_of_suffix; [exact Hin|].
    apply stripLeadingSlashes_suffix. }
  split_and!.
  - exact Hr.
  - apply SplitFacts.stripLeadingSlashes_head.
  - pose proof (suffix_length _ _ (stripLeadingSlashes_suffix u)) as Hl.
    unfold u in Hl at 2. rewrite length_map in Hl. lia.
  - rewrite (unbackslash_id _ Hr). apply stripLeadingSlashes_id.
    apply SplitFacts.stripLeadingSlashes_head.
  - intros Hb Hs. unfold u. rewrite (unbackslash_id _ Hb).
    by apply stripLeadingSlashes_id.
Qed.

(** *** [padTo512] *)

(** X2: [padTo512] only appends zero bytes, fewer than 512 of them, up
    to the next multiple of 512; a buffer whose length is a multiple of 512
    is returned as it is. *)
Theorem padTo512_aligned (buf : buffer) :
  let r := padTo512 buf in
  (length r mod 512 = 0)%nat
  ∧ (length buf ≤ length r < length buf + 512)%nat
  ∧ r = buf ++ replicate (length r - length buf) 0
  ∧ ((length buf mod 512 = 0)%nat → r = buf).
Proof.
  intros r. subst r. unfold padTo512. cbv zeta.
  pose proof (Nat.mod_upper_bound (length buf) 512 ltac:(lia)) as Hm.
  pose proof (Nat.div_mod_eq (length buf) 512) as Hd.
  destruct (Nat.eqb_spec (length buf mod 512) 0) as [E|E].
  - split; [done|]. split; [lia|]. split; [|done].
    by rewrite Nat.sub_diag, app_nil_r.
  - rewrite length_app, length_replicate. split; [|split; [|split]].
    + replace (length buf + (512 - length buf mod 512))%nat
        with ((length buf `div` 512 + 1) * 512)%nat by lia.
      apply Nat.Div0.mod_mul.
    + lia.
    + f_equal. f_equal. lia.
    + done.
Qed.


(** *** [writeOctal] *)

Lemma low_bytes_of_digits radix (s : jsstring) :
  radix ≤ 10 → Forall (isDigitOf radix) s → map (fun c => c mod 256) s = s.
Proof.
  intros Hr H. rewrite <- (list_fmap_id s) at 2. apply Forall_fmap_ext_1.
  eapply Forall_impl; [exact H|]. intros c [? ?]. simpl.
  apply N.mod_small. lia.
Qed.

(** A numeric field that fits: the digits, then the NUL. *)
Lemma writeOctal_fits buf offset len value :
  (2 ≤ len)%nat → (offset + len ≤ length buf)%nat →
  (value < 8 ^ Z.of_nat (len - 1))%Z →
  let digits := padStart (len - 1) 48 (toStringRadix 8 (Z.to_N (Z.max 0 value))) in
  (length digits = (len - 1)%nat ∧ Forall (isDigitOf 8) digits
   ∧ valueOfDigits 8 digits = Z.to_N (Z.max 0 value))
  ∧ writeOctal buf offset len value
    = take offset buf ++ digits ++ [0] ++ drop (offset + len) buf.
Proof.
  intros Hlen Hfit Hv digits.
  assert (Hn : Z.to_N (Z.max 0 value) < 8 ^ N.of_nat (len - 1)).
  { apply N2Z.inj_lt. rewrite N2Z.inj_pow, nat_N_Z, Z2N.id by lia.
    simpl Z.of_N. apply Z.max_lub_lt; [|done]. apply Z.pow_pos_nonneg; lia. }
  destruct (octal_padded (len - 1) (Z.to_N (Z.max 0 value))) as (H1 & H2 & H3);
    [lia|done|].
  fold digits in H1, H2, H3. split; [done|].
  unfold writeOctal. fold digits. rewrite writeString_blit.
  rewrite (take_ge digits) by lia.
  rewrite (low_bytes_of_digits 8) by (done || lia).
  rewrite blit_fits by lia. rewrite H1.
  assert (Hlt : (offset + (len - 1) < length buf)%nat) by lia.
  destruct (lookup_lt_is_Some_2 buf _ Hlt) as [b Hb].
  rewrite (drop_S buf b _ Hb).
  assert (Htake : length (take offset buf) = offset) by (rewrite length_take; lia).
  rewrite !insert_app_r_alt by (rewrite ?Htake, ?H1; lia).
  rewrite Htake, H1.
  replace (offset + len - 1 - offset - (len - 1))%nat with 0%nat by lia.
  replace (S (offset + (len - 1))) with (offset + len)%nat by lia.
  reflexivity.
Qed.

(** X3: for a field of at least two bytes that lies within the buffer
    and a value below 8^(len-1), [writeOctal] fills the field with len-1 octal
    digits that read back as the value (as zero for a negative one) and a
    closing NUL, and changes no byte outside the field. *)
Theorem writeOctal_reads_back buf offset len value :
  (2 ≤ len)%nat → (offset + len ≤ length buf)%nat →
  (value < 8 ^ Z.of_nat (len - 1))%Z →
  let r := writeOctal buf offset len value in
  let digits := take (len - 1) (drop offset r) in
  length r = length buf
  ∧ length digits = (len - 1)%nat
  ∧ Forall (isDigitOf 8) digits
  ∧ valueOfDigits 8 digits = Z.to_N (Z.max 0 value)
  ∧ r !! (offset + len - 1)%nat = Some 0
  ∧ (∀ i, (i < offset ∨ offset + len ≤ i)%nat → r !! i = buf !! i).
Proof.
  intros Hlen Hfit Hv r digits. subst r digits.
  destruct (writeOctal_fits buf offset len value Hlen Hfit Hv)
    as ((H1 & H2 & H3) & E).
  set (d := padStart (len - 1) 48 (toStringRadix 8 (Z.to_N (Z.max 0 value)))) in *.
  clearbody d.
  assert (Htake : length (take offset buf) = offset) by (rewrite length_take; lia).
  assert (Hd : take (len - 1) (drop offset (writeOctal buf offset len value)) = d).
  { rewrite E. rewrite <- Htake at 1. rewrite drop_app_length.
    rewrite <- H1 at 1. by rewrite take_app_length. }
  rewrite Hd. split_and!; try done.
  - apply writeOctal_length.
  - rewrite E. rewrite lookup_app_r by lia. rewrite Htake.
    rewrite lookup_app_r by lia. rewrite H1.
    by replace (offset + len - 1 - offset - (len - 1))%nat with 0%nat by lia.
  - intros i Hi. apply writeOctal_lookup_out; [done|lia].
Qed.

Lemma writeOctal_reads_back_witness :
  let r := writeOctal (replicate 20 7) 4 12 420 in
  let digits := take 11 (drop 4 r) in
  length r = 20%nat
  ∧ length digits = 11%nat
  ∧ Forall (isDigitOf 8) digits
  ∧ valueOfDigits 8 digits = 420
  ∧ r !! 15%nat = Some 0
  ∧ (∀ i, (i < 4 ∨ 4 + 12 ≤ i)%nat → r !! i = replicate 20 7 !! i).
Proof.
  apply (writeOctal_reads_back (replicate 20 7) 4 12 420); [lia|simpl; lia|reflexivity].
Defined.

End TarFacts.

(** ** Hashes in names *)

Module HashFacts.
Import JS Text Sha256 Tar Download Views.

Lemma bigEndian_length k x : length (bigEndian k x) = k.
Proof. induction k as [|k IH]; simpl; [done|]. by rewrite IH. Qed.

Lemma bigEndian_bytes k x : Forall isByte (bigEndian k x).
Proof.
  induction k as [|k IH]; simpl; constructor; [|done].
  unfold isByte. apply N.mod_lt. lia.
Qed.

Lemma round_length st kw : length st = 8%nat → length (round st kw) = 8%nat.
Proof.
  intros H. do 9 (destruct st as [|? st]; try discriminate H). reflexivity.
Qed.

Lemma rounds_length st kws :
  length st = 8%nat → length (foldl round st kws) = 8%nat.
Proof.
  revert st. induction kws as [|kw kws IH]; intros st H; simpl; [done|].
  apply IH. by apply round_length.
Qed.

Lemma compress_length h block : length h = 8%nat → length (compress h block) = 8%nat.
Proof.
  intros H. unfold compress. rewrite length_zip_with, rounds_length by done. lia.
Qed.

Lemma blocks_length fuel h ws : length h = 8%nat → length (blocks fuel h ws) = 8%nat.
Proof.
  revert h ws. induction fuel as [|fuel IH]; intros h ws H; simpl.
  - by destruct ws.
  - destruct ws; [done|]. apply IH. by apply compress_length.
Qed.

Lemma flat_map_bigEndian_length k (ws : list N) :
  length (flat_map (bigEndian k) ws) = (k * length ws)%nat.
Proof.
  induction ws as [|x ws IH]; simpl; [lia|].
  rewrite length_app, bigEndian_length, IH. lia.
Qed.

Lemma flat_map_bigEndian_bytes k (ws : list N) :
  Forall isByte (flat_map (bigEndian k) ws).
Proof.
  induction ws as [|x ws IH]; simpl; [constructor|].
  apply Forall_app. split; [apply bigEndian_bytes|done].
Qed.

(** The digest has 32 bytes. *)
Lemma digest_length msg : length (digest msg) = 32%nat.
Proof.
  unfold digest. rewrite flat_map_bigEndian_length, blocks_length; [done|reflexivity].
Qed.

Lemma digest_bytes msg : Forall isByte (digest msg).
Proof. apply flat_map_bigEndian_bytes. Qed.

Lemma digitChar_hex d : d < 16 → isHexDigit (digitChar d).
Proof.
  intros H. unfold isHexDigit, digitChar.
  destruct (d <? 10) eqn:E; [apply N.ltb_lt in E|apply N.ltb_ge in E]; lia.
Qed.

Lemma hexOfBytes_length bs : length (hexOfBytes bs) = (2 * length bs)%nat.
Proof.
  unfold hexOfBytes. induction bs as [|b bs IH]; simpl; [done|].
  simpl in IH. rewrite IH. lia.
Qed.

Lemma hexOfBytes_digits bs : Forall isByte bs → Forall isHexDigit (hexOfBytes bs).
Proof.
  unfold hexOfBytes. induction 1 as [|b bs Hb _ IH]; simpl; [constructor|].
  unfold isByte in Hb.
  constructor; [|constructor; [|done]]; apply digitChar_hex.
  - apply N.Div0.div_lt_upper_bound. lia.
  - apply N.mod_lt. lia.
Qed.

(** The hexadecimal digest: 64 digits. *)
Lemma sha256hex_shape s :
  length (sha256hex s) = 64%nat ∧ Forall isHexDigit (sha256hex s).
Proof.
  unfold sha256hex. split.
  - by rewrite hexOfBytes_length, digest_length.
  - apply hexOfBytes_digits, digest_bytes.
Qed.

(** Text below U+0080 is its own UTF-8 encoding. *)
Lemma utf8_ascii (s : jsstring) : Forall (fun c => c < 128) s → utf8 s = s.
Proof.
  induction 1 as [|c s Hc _ IH]; [done|]. simpl.
  replace (c <? 128) with true by (symmetry; by apply N.ltb_lt).
  by rewrite IH.
Qed.

Lemma hex_ascii (s : jsstring) : Forall isHexDigit s → Forall (fun c => c < 128) s.
Proof. intros H. eapply Forall_impl; [exact H|]. intros c [[? ?]|[? ?]]; lia. Qed.

(** A character that [sanitizeSegment] leaves alone wherever it stands. *)
Lemma hex_plain c :
  isHexDigit c → c ≠ 0 ∧ isPathUnsafe c = false ∧ isWhiteSpace c = false.
Proof.
  intros Hc. split; [destruct Hc as [[? ?]|[? ?]]; lia|].
  unfold isPathUnsafe, isWhiteSpace.
  split; rewrite !orb_false_iff, ?andb_false_iff, !N.eqb_neq, ?N.leb_gt;
    destruct Hc as [[? ?]|[? ?]]; repeat split; lia.
Qed.

Lemma collapseAux_plain b (s : jsstring) :
  Forall (fun c => isWhiteSpace c = false) s → collapseAux b s = s.
Proof.
  intros H. revert b. induction H as [|c s Hc _ IH]; intros b; simpl; [done|].
  by rewrite Hc, IH.
Qed.

Lemma trimStart_plain (s : jsstring) :
  Forall (fun c => isWhiteSpace c = false) s → trimStart s = s.
Proof. destruct 1 as [|c s Hc _]; simpl; [done|]. by rewrite Hc. Qed.

Lemma trim_plain (s : jsstring) :
  Forall (fun c => isWhiteSpace c = false) s → trim s = s.
Proof.
  intros H. unfold trim, trimEnd. rewrite (trimStart_plain s H).
  rewrite trimStart_plain; [apply reverse_involutive|].
  by apply Forall_reverse.
Qed.

(** A short string of characters that need no replacement is returned as it
    is. *)
Lemma sanitizeSegment_plain (s : jsstring) :
  Forall (fun c => c ≠ 0 ∧ isPathUnsafe c = false ∧ isWhiteSpace c = false) s →
  (length s ≤ 80)%nat → sanitizeSegment s = s.
Proof.
  intros H Hlen. unfold sanitizeSegment.
  assert (H0 : filter (fun c => c ≠ 0) s = s).
  { clear Hlen. induction H as [|c s (Hc & _) _ IH]; [done|].
    rewrite filter_cons_True by exact Hc. by rewrite IH. }
  assert (H1 : map (fun c => if isPathUnsafe c then underscore else c) s = s).
  { rewrite <- (list_fmap_id s) at 2. apply Forall_fmap_ext_1.
    eapply Forall_impl; [exact H|]. intros c (_ & -> & _). done. }
  assert (H2 : Forall (fun c => isWhiteSpace c = false) s).
  { eapply Forall_impl; [exact H|]. by intros c (_ & _ & ?). }
  rewrite H0, H1. unfold collapseWhiteSpace.
  rewrite collapseAux_plain, trim_plain by done. by apply take_ge.
Qed.

Lemma shortHash_hex (input : jsstring) : Forall isHexDigit (shortHash input).
Proof.
  unfold shortHash. apply Forall_take. by destruct (sha256hex_shape input).
Qed.

Lemma shortHash_length (input : jsstring) : length (shortHash input) = 10%nat.
Proof.
  unfold shortHash. rewrite length_take. destruct (sha256hex_shape input). lia.
Qed.

(** X10: [shortHash] returns 10 lower-case hexadecimal digits, which
    [sanitizeSegment] and the UTF-8 encoder leave as they are. *)
Theorem shortHash_shape (input : jsstring) :
  length (shortHash input) = 10%nat
  ∧ Forall isHexDigit (shortHash input)
  ∧ sanitizeSegment (shortHash input) = shortHash input
  ∧ utf8 (shortHash input) = shortHash input.
Proof.
  destruct (sha256hex_shape input) as [Hlen Hhex].
  assert (H10 : length (shortHash input) = 10%nat).
  { unfold shortHash. rewrite length_take. lia. }
  assert (Hh : Forall isHexDigit (shortHash input)).
  { unfold shortHash. by apply Forall_take. }
  split_and!; [done|done| |].
  - apply sanitizeSegment_plain; [|lia].
    eapply Forall_impl; [exact Hh|]. apply hex_plain.
  - by apply utf8_ascii, hex_ascii.
Qed.


(** No occurrence lies after the index that [lastIndexOfFrom] returns. *)
Lemma lastIndexOfFrom_last c s i found k :
  (found < i)%Z → s !! k = Some c →
  (i + Z.of_nat k ≤ lastIndexOfFrom c s i found)%Z.
Proof.
  revert i found k. induction s as [|x s IH]; intros i found k Hf Hk; [done|].
  simpl. destruct k as [|k]; simpl in Hk.
  - injection Hk as ->. rewrite N.eqb_refl.
    destruct (SplitFacts.lastIndexOfFrom_spec c s (i + 1) i) as [E|[Hle _]];
      simpl in *; lia.
  - specialize (IH (i + 1)%Z (if x =? c then i else found) k).
    destruct (x =? c); (etransitivity; [|apply IH; [lia|done]]); lia.
Qed.

Lemma lastIndexOf_last c s k :
  s !! k = Some c → (Z.of_nat k ≤ lastIndexOf c s)%Z.
Proof.
  intros H. unfold lastIndexOf.
  pose proof (lastIndexOfFrom_last c s 0 (-1) k ltac:(lia) H). lia.
Qed.

Lemma sliceFrom_after_last c (s : jsstring) :
  c ∉ sliceFrom (lastIndexOf c s + 1) s.
Proof.
  unfold sliceFrom. intros Hin.
  apply list_elem_of_lookup_1 in Hin as [k Hk]. rewrite lookup_drop in Hk.
  apply lastIndexOf_last in Hk. lia.
Qed.

(** X4: whatever the path, [splitTarPath] returns a name of at most
    100 bytes and a prefix of at most 155 bytes, in one of three ways: the
    whole normalised path as the name when it fits in 100 bytes; a prefix and
    a slash-free name that give the path back when joined by a slash; or no
    prefix and the name path_ followed by 16 hexadecimal digits. *)
Theorem splitTarPath_encodable (path : jsstring) :
  let normalized := toPosixPath path in
  let r := splitTarPath path in
  (byteLength (name r) ≤ 100)%nat
  ∧ (byteLength (prefix r) ≤ 155)%nat
  ∧ ((prefix r = [] ∧ name r = normalized ∧ (byteLength normalized ≤ 100)%nat)
     ∨ (prefix r ≠ [] ∧ normalized = prefix r ++ [slash] ++ name r
        ∧ (slash ∉ name r) ∧ (100 < byteLength normalized)%nat)
     ∨ (prefix r = [] ∧ (100 < byteLength normalized)%nat
        ∧ ∃ hash, name r = js "path_" ++ hash
                  ∧ length hash = 16%nat ∧ Forall isHexDigit hash)).
Proof.
  intros normalized r. subst r. unfold splitTarPath. fold normalized.
  case_bool_decide as Hshort.
  { cbn [name prefix]. split_and!; [done|vm_compute; lia|]. by left. }
  set (idx := lastIndexOf slash normalized).
  assert (Hfallback :
    let hash := take 16 (sha256hex normalized) in
    (byteLength (js "path_" ++ hash) ≤ 100)%nat
    ∧ length hash = 16%nat ∧ Forall isHexDigit hash).
  { intros hash. destruct (sha256hex_shape normalized) as [Hlen Hhex].
    assert (H16 : length hash = 16%nat) by (unfold hash; rewrite length_take; lia).
    assert (Hh : Forall isHexDigit hash) by (by apply Forall_take).
    split_and!; [|done|done].
    unfold byteLength. rewrite utf8_ascii.
    - rewrite length_app, H16. vm_compute. lia.
    - apply Forall_app. split; [|by apply hex_ascii].
      by repeat (constructor; [by vm_compute|]). }
  destruct Hfallback as (Hf1 & Hf2 & Hf3).
  case_bool_decide as Hidx.
  - destruct (bool_decide (byteLength (sliceFrom (idx + 1) normalized) ≤ 100)%nat
              && bool_decide (byteLength (sliceTo idx normalized) ≤ 155)%nat)
      eqn:Hfit.
    + apply andb_true_iff in Hfit as [Hn%bool_decide_eq_true Hp%bool_decide_eq_true].
      cbn [name prefix]. split_and!; [done|done|]. right; left.
      assert (Hl : normalized !! Z.to_nat idx = Some slash)
        by (apply SplitFacts.lastIndexOf_lookup; unfold idx in *; lia).
      split_and!.
      * unfold sliceTo. intros E. apply (f_equal length) in E.
        rewrite length_take in E. simpl in E.
        apply lookup_lt_Some in Hl. lia.
      * apply SplitFacts.split_at_index; [lia|done].
      * apply sliceFrom_after_last.
      * lia.
    + cbn [name prefix]. split_and!; [done|vm_compute; lia|]. right; right.
      split_and!; [done|lia|]. by eexists.
  - cbn [name prefix]. split_and!; [done|vm_compute; lia|]. right; right.
    split_and!; [done|lia|]. by eexists.
Qed.

End HashFacts.

(** ** The layout of a header *)

Module LayoutFacts.
Import JS Text Tar Download DigitFacts HeaderFacts TarFacts Views.

Lemma blit_lookup_in buf offset data i :
  (offset ≤ i < offset + length data)%nat → (offset + length data ≤ length buf)%nat →
  blit buf offset data !! i = data !! (i - offset)%nat.
Proof.
  intros Hi Hfit. rewrite blit_fits by done.
  rewrite lookup_app_r by (rewrite length_take; lia).
  rewrite length_take, lookup_app_l by lia. f_equal. lia.
Qed.

Lemma bufferFill_lookup_out buf value start stop i :
  (i < start ∨ stop ≤ i)%nat →
  bufferFill buf value start stop !! i = buf !! i.
Proof.
  intros H. unfold bufferFill. apply blit_lookup_out.
  rewrite length_replicate. lia.
Qed.

(** Two buffers that agree on a field have the same field. *)
Lemma field_ext offset len (a b : buffer) :
  (∀ i, (offset ≤ i < offset + len)%nat → a !! i = b !! i) →
  field offset len a = field offset len b.
Proof.
  intros H. unfold field. apply list_eq. intros k.
  destruct (decide (k < len)%nat) as [Hk|Hk].
  - rewrite !lookup_take_lt, !lookup_drop by done. apply H. lia.
  - by rewrite !lookup_take_ge by lia.
Qed.

Lemma field_lookups offset len (h l : buffer) :
  length l = len →
  (∀ k, (k < len)%nat → h !! (offset + k)%nat = l !! k) →
  field offset len h = l.
Proof.
  intros Hl H. unfold field. apply list_eq. intros k.
  destruct (decide (k < len)%nat) as [Hk|Hk].
  - rewrite lookup_take_lt, lookup_drop by done. by apply H.
  - rewrite lookup_take_ge by lia. symmetry. apply lookup_ge_None_2. lia.
Qed.

(** A text written into a field that held NULs. *)
Lemma writeString_field buf offset len value :
  (offset + len ≤ length buf)%nat →
  (∀ i, (offset ≤ i < offset + len)%nat → buf !! i = Some 0) →
  field offset len (writeString buf offset len value)
  = nulPadded len (lowBytes value).
Proof.
  intros Hfit Hzero. rewrite writeString_blit.
  set (data := map (fun c => c mod 256) (take len value)).
  assert (Hdata : data = take len (lowBytes value))
    by (unfold data, lowBytes; by rewrite fmap_take).
  assert (Hlen : (length data ≤ len)%nat)
    by (rewrite Hdata, length_take; lia).
  apply field_lookups.
  { unfold nulPadded. rewrite length_take, length_app, length_replicate. lia. }
  intros k Hk. unfold nulPadded. rewrite lookup_take_lt by done.
  destruct (decide (k < length data)%nat) as [Hin|Hout].
  - rewrite blit_lookup_in by lia.
    replace (offset + k - offset)%nat with k by lia.
    rewrite Hdata, lookup_take_lt by done.
    rewrite lookup_app_l; [done|].
    rewrite Hdata, length_take in Hin. lia.
  - rewrite blit_lookup_out by lia. rewrite Hzero by lia.
    symmetry.
    destruct (decide (k < length (lowBytes value))%nat) as [Hv|Hv].
    + rewrite Hdata, length_take in Hout. lia.
    + rewrite lookup_app_r by lia. apply lookup_replicate_2. lia.
Qed.


Ltac past_writes :=
  repeat first
    [ rewrite writeString_lookup_out by lia
    | rewrite writeOctal_lookup_out by lia
    | rewrite bufferFill_lookup_out by lia
    | rewrite list_lookup_insert_ne by lia ].

Ltac untouched :=
  intros; past_writes; apply lookup_replicate_2; lia.

Ltac open_header :=
  unfold createHeader, writeChecksum, headerBeforeChecksum; cbv zeta.


(** X5: the text fields of a header.  The name (offset 0, 100 bytes)
    and the prefix (offset 345, 155 bytes) hold the low bytes of the two
    parts of the split path, cut at the width of the field or padded with
    NULs; the type flag stands at 156; the link name is empty; the magic is
    ustar, a NUL and the version 00; owner and group are root; the last 12
    bytes are zero. *)
Theorem createHeader_text_fields path size mode mtime typeflag :
  let header := createHeader path size mode mtime typeflag in
  let r := splitTarPath path in
  field 0 100 header = nulPadded 100 (lowBytes (name r))
  ∧ field 156 1 header = [charCode typeflag]
  ∧ field 157 100 header = replicate 100 0
  ∧ field 257 8 header = js "ustar" ++ [0] ++ js "00"
  ∧ field 265 32 header = nulPadded 32 (js "root")
  ∧ field 297 32 header = nulPadded 32 (js "root")
  ∧ field 345 155 header = nulPadded 155 (lowBytes (prefix r))
  ∧ field 500 12 header = replicate 12 0.
Proof.
  intros header r. subst header r. open_header.
  destruct (splitTarPath path) as [n p]. cbn [name prefix].
  split_and!.
  - match goal with |- context [writeString ?b 0 100 n] =>
      transitivity (field 0 100 (writeString b 0 100 n)) end.
    + apply field_ext. intros i Hi. by past_writes.
    + apply writeString_field; [write_lengths; lia|untouched].
  - apply field_lookups; [done|]. intros k Hk.
    assert (k = 0%nat) as -> by lia. past_writes.
    cbn [lookup]. rewrite Nat.add_comm; apply list_lookup_insert_eq; write_lengths; lia.
  - apply field_lookups; [by rewrite length_replicate|]. intros k Hk.
    rewrite lookup_replicate_2 by done. untouched.
  - apply field_lookups; [done|]. intros k Hk.
    destruct k as [|[|[|[|[|[|[|[|k]]]]]]]]; [..|lia]; past_writes.
    1-5: rewrite writeString_blit, blit_lookup_in;
         [reflexivity|simpl; lia|write_lengths; simpl; lia].
    + rewrite Nat.add_comm; apply list_lookup_insert_eq; write_lengths; lia.
    + rewrite writeString_blit, blit_lookup_in;
        [reflexivity|simpl; lia|write_lengths; simpl; lia].
    + rewrite writeString_blit, blit_lookup_in;
        [reflexivity|simpl; lia|write_lengths; simpl; lia].
  - match goal with |- context [writeString ?b 265 32 ?v] =>
      transitivity (field 265 32 (writeString b 265 32 v)) end.
    + apply field_ext. intros i Hi. by past_writes.
    + apply writeString_field; [write_lengths; lia|untouched].
  - match goal with |- context [writeString ?b 297 32 ?v] =>
      transitivity (field 297 32 (writeString b 297 32 v)) end.
    + apply field_ext. intros i Hi. by past_writes.
    + apply writeString_field; [write_lengths; lia|untouched].
  - match goal with |- context [writeString ?b 345 155 p] =>
      transitivity (field 345 155 (writeString b 345 155 p)) end.
    + apply field_ext. intros i Hi. by past_writes.
    + apply writeString_field; [write_lengths; lia|untouched].
  - apply field_lookups; [by rewrite length_replicate|]. intros k Hk.
    rewrite lookup_replicate_2 by done. untouched.
Qed.


(** A numeric field read from the buffer that [writeOctal] returns. *)
Lemma writeOctal_field buf offset len value :
  (2 ≤ len)%nat → (offset + len ≤ length buf)%nat →
  (value < 8 ^ Z.of_nat (len - 1))%Z →
  readsOctal (field offset len (writeOctal buf offset len value))
             (Z.to_N (Z.max 0 value)).
Proof.
  intros Hlen Hfit Hv.
  destruct (writeOctal_fits buf offset len value Hlen Hfit Hv)
    as ((H1 & H2 & H3) & E).
  set (d := padStart (len - 1) 48 (toStringRadix 8 (Z.to_N (Z.max 0 value)))) in *.
  exists d. split_and!; [|done|done].
  rewrite E. unfold field.
  assert (Htake : length (take offset buf) = offset) by (rewrite length_take; lia).
  rewrite <- Htake at 1. rewrite drop_app_length.
  replace (d ++ [0] ++ drop (offset + len) buf)
    with ((d ++ [0]) ++ drop (offset + len) buf) by (by rewrite <- app_assoc).
  apply take_app_length'. rewrite length_app, H1. simpl. lia.
Qed.

Ltac numeric_field off len :=
  match goal with
  | |- readsOctal (field off len ?h) _ =>
      match h with
      | context [writeOctal ?b off len ?v] =>
          replace (field off len h) with (field off len (writeOctal b off len v));
          [ apply (writeOctal_field b off len v);
            [lia|write_lengths; lia|first [assumption|reflexivity]]
          | apply field_ext; intros; symmetry; by past_writes ]
      end
  end.

(** X6: the numeric fields of a header are octal digits closed by a
    NUL.  Owner id, group id and the two device numbers read 0; mode, size
    and modification time read back as the numbers given (0 for a negative
    one) whenever these fit their field. *)
Theorem createHeader_numeric_fields path size mode mtime typeflag :
  let header := createHeader path size mode mtime typeflag in
  readsOctal (field 108 8 header) 0
  ∧ readsOctal (field 116 8 header) 0
  ∧ readsOctal (field 329 8 header) 0
  ∧ readsOctal (field 337 8 header) 0
  ∧ ((mode < 8 ^ 7)%Z → readsOctal (field 100 8 header) (Z.to_N (Z.max 0 mode)))
  ∧ ((size < 8 ^ 11)%Z → readsOctal (field 124 12 header) (Z.to_N (Z.max 0 size)))
  ∧ ((mtime < 8 ^ 11)%Z →
     readsOctal (field 136 12 header) (Z.to_N (Z.max 0 mtime))).
Proof.
  intros header. subst header. open_header.
  destruct (splitTarPath path) as [n p].
  split_and!; [| | | |intros Hv|intros Hv|intros Hv].
  - numeric_field 108%nat 8%nat.
  - numeric_field 116%nat 8%nat.
  - numeric_field 329%nat 8%nat.
  - numeric_field 337%nat 8%nat.
  - numeric_field 100%nat 8%nat.
  - numeric_field 124%nat 12%nat.
  - numeric_field 136%nat 12%nat.
Qed.

(** The header of a file of 1234 bytes, mode 644. *)
Example createHeader_fields_example :
  let header := createHeader (js "dir/a.txt") 1234 420 1700000000 Flag0 in
  field 0 100 header = js "dir/a.txt" ++ replicate 91 0
  ∧ field 100 8 header = js "0000644" ++ [0]
  ∧ field 124 12 header = js "00000002322" ++ [0]
  ∧ field 136 12 header = js "14524770400" ++ [0]
  ∧ field 156 1 header = js "0".
Proof. vm_compute. done. Qed.

End LayoutFacts.

(** ** The blocks of an archive *)

Module ArchiveFacts.
Import JS Text Tar Download DigitFacts HeaderFacts TarFacts Views.

Lemma createHeader_length path size mode mtime typeflag :
  length (createHeader path size mode mtime typeflag) = 512%nat.
Proof.
  unfold createHeader, writeChecksum. cbv zeta.
  rewrite !length_insert, writeString_length.
  apply headerBeforeChecksum_length.
Qed.

Lemma padTo512_length (buf : buffer) :
  length (padTo512 buf) = (512 * ((length buf + 511) / 512))%nat.
Proof.
  unfold padTo512. cbv zeta.
  pose proof (Nat.mod_upper_bound (length buf) 512 ltac:(lia)) as Hm.
  pose proof (Nat.div_mod_eq (length buf) 512) as Hd.
  destruct (Nat.eqb_spec (length buf mod 512) 0) as [E|E].
  - replace ((length buf + 511) / 512)%nat with (length buf / 512)%nat; [lia|].
    apply (Nat.div_unique _ _ _ 511); lia.
  - rewrite length_app, length_replicate.
    replace ((length buf + 511) / 512)%nat with (length buf / 512 + 1)%nat; [lia|].
    apply (Nat.div_unique _ _ _ (length buf mod 512 - 1)); lia.
Qed.

Lemma padTo512_prefix (buf : buffer) : buf `prefix_of` padTo512 buf.
Proof.
  unfold padTo512. cbv zeta.
  destruct (length buf mod 512 =? 0)%nat; [done|by apply prefix_app_r].
Qed.

Lemma encodeEntry_length now e :
  length (concat (encodeEntry now e)) = (512 * blocksOf e)%nat.
Proof.
  destruct e as [p c m t|p m t]; cbn [encodeEntry concat blocksOf].
  - rewrite !length_app, createHeader_length, padTo512_length. cbn [length]. lia.
  - rewrite length_app, createHeader_length. cbn [length]. lia.
Qed.

Lemma encoded_length now es :
  length (concat (flat_map (encodeEntry now) es)) = (512 * blocksOfAll es)%nat.
Proof.
  induction es as [|e es IH]; [done|].
  cbn [flat_map blocksOfAll foldr]. rewrite concat_app, length_app.
  rewrite encodeEntry_length. unfold blocksOfAll in IH. rewrite IH. lia.
Qed.

Lemma createTar_archiveEntries now entries :
  createTar now entries
  = concat (flat_map (encodeEntry now) (archiveEntries entries))
      ++ replicate 1024 0.
Proof.
  unfold createTar, archiveEntries, keptEntries. cbv zeta.
  rewrite concat_app. f_equal.
Qed.

(** X8: an archive is a whole number of blocks of 512 bytes: those of
    the parent directories and of the entries whose normalised path is not
    empty, then two blocks of zeros.  When no entry is kept it is the two
    blocks of zeros alone. *)
Theorem createTar_blocks now entries :
  let tar := createTar now entries in
  length tar = (512 * (blocksOfAll (archiveEntries entries) + 2))%nat
  ∧ drop (length tar - 1024) tar = replicate 1024 0
  ∧ (keptEntries entries = [] → tar = replicate 1024 0).
Proof.
  intros tar. subst tar. rewrite createTar_archiveEntries.
  set (body := concat (flat_map (encodeEntry now) (archiveEntries entries))).
  assert (Hbody : length body = (512 * blocksOfAll (archiveEntries entries))%nat)
    by apply encoded_length.
  split_and!.
  - rewrite length_app, Hbody, length_replicate. lia.
  - rewrite length_app, length_replicate.
    replace (length body + 1024 - 1024)%nat with (length body) by lia.
    by rewrite drop_app_length.
  - intros E. unfold body, archiveEntries. rewrite E. reflexivity.
Qed.

(** X9: every entry of the archive starts right after the blocks of
    the entries before it.  A file has its header there, made from its path,
    the length of its content, mode 0o644 and the time of the call where none
    are given, and its content follows the header byte for byte, before the
    two closing blocks. *)
Theorem createTar_places_content now entries k path content mode mtime :
  archiveEntries entries !! k = Some (File path content mode mtime) →
  let tar := createTar now entries in
  let offset := (512 * blocksOfAll (take k (archiveEntries entries)))%nat in
  take 512 (drop offset tar)
  = createHeader path (Z.of_nat (length content)) (default 420%Z mode)
      (default now mtime) Flag0
  ∧ take (length content) (drop (offset + 512) tar) = content
  ∧ (offset + 512 + length content ≤ length tar - 1024)%nat.
Proof.
  intros Hk tar offset. subst tar offset. rewrite createTar_archiveEntries.
  set (all := archiveEntries entries) in *.
  set (before := concat (flat_map (encodeEntry now) (take k all))).
  set (after := concat (flat_map (encodeEntry now) (drop (S k) all))).
  set (header := createHeader _ _ _ _ _).
  assert (Henc : concat (flat_map (encodeEntry now) all)
                 = before ++ header ++ padTo512 content ++ after).
  { rewrite <- (take_drop_middle all k _ Hk) at 1.
    rewrite flat_map_app, concat_app. cbn [flat_map encodeEntry].
    rewrite concat_app. cbn [concat]. by rewrite <- !app_assoc. }
  assert (Hb : length before = (512 * blocksOfAll (take k all))%nat)
    by apply encoded_length.
  assert (Hh : length header = 512%nat) by apply createHeader_length.
  destruct (padTo512_prefix content) as [zeros Hz].
  rewrite Henc, <- Hb, <- !app_assoc.
  split_and!.
  - rewrite drop_app_length. rewrite <- Hh at 1. by rewrite take_app_length.
  - rewrite <- Hh at 1. rewrite <- length_app, app_assoc, drop_app_length.
    rewrite Hz, <- app_assoc. by rewrite take_app_length.
  - rewrite !length_app, Hh, length_replicate.
    pose proof (prefix_length _ _ (padTo512_prefix content)). lia.
Qed.

Lemma createTar_places_content_witness :
  let entries := [File (js "a/b.txt") [1; 2; 3] None None] in
  let tar := createTar 1700000000 entries in
  let offset := (512 * blocksOfAll (take 1 (archiveEntries entries)))%nat in
  take 512 (drop offset tar)
  = createHeader (js "a/b.txt") (Z.of_nat (length [1; 2; 3])) (default 420%Z None)
      (default 1700000000%Z None) Flag0
  ∧ take (length [1; 2; 3]) (drop (offset + 512) tar) = [1; 2; 3]
  ∧ (offset + 512 + length [1; 2; 3] ≤ length tar - 1024)%nat.
Proof.
  apply (createTar_places_content 1700000000
           [File (js "a/b.txt") [1; 2; 3] None None] 1 (js "a/b.txt") [1; 2; 3]
           None None).
  vm_compute. reflexivity.
Defined.

End ArchiveFacts.

(** ** Parent directories *)

Module DirFacts.
Import JS Text Tar Download TarFacts Views.

Lemma ltb_irrefl a : ltb a a = false.
Proof.
  induction a as [|x a IH]; [done|]. simpl.
  rewrite N.ltb_irrefl, N.eqb_refl, IH. done.
Qed.

Lemma ltb_trans a b c : ltb a b = true → ltb b c = true → ltb a c = true.
Proof.
  revert b c. induction a as [|x a IH]; intros [|y b] [|z c]; simpl; try done.
  rewrite !orb_true_iff, !andb_true_iff, !N.ltb_lt, !N.eqb_eq.
  intros [H1|[-> H1]] [H2|[-> H2]].
  - left. lia.
  - by left.
  - by left.
  - right. split; [done|]. by eapply IH.
Qed.

Lemma ltb_total a b : ltb a b = false → a ≠ b → ltb b a = true.
Proof.
  revert b. induction a as [|x a IH]; intros [|y b]; simpl; try done.
  rewrite orb_false_iff, andb_false_iff, orb_true_iff, andb_true_iff.
  rewrite !N.ltb_ge, !N.ltb_lt, !N.eqb_eq, N.eqb_neq.
  intros [H1 H2] Hne.
  destruct (decide (x = y)) as [->|Hxy].
  - right. split; [done|]. destruct H2 as [?|H2]; [done|].
    apply IH; [done|]. congruence.
  - left. lia.
Qed.

Lemma ltb_asym a b : ltb a b = true → ltb b a = false.
Proof.
  intros H. destruct (ltb b a) eqn:E; [|done].
  pose proof (ltb_trans _ _ _ H E) as Hc. by rewrite ltb_irrefl in Hc.
Qed.

(** A proper prefix comes first. *)
Lemma ltb_prefix a b : b ≠ [] → ltb a (a ++ b) = true.
Proof.
  intros Hb. induction a as [|x a IH]; simpl.
  - by destruct b.
  - by rewrite N.ltb_irrefl, N.eqb_refl, IH.
Qed.

Lemma elem_of_insertSorted x y l : y ∈ insertSorted x l ↔ y = x ∨ y ∈ l.
Proof.
  induction l as [|z l IH]; simpl.
  - rewrite list_elem_of_singleton. split; [by left|]. intros [?|?%elem_of_nil]; done.
  - destruct (ltb z x).
    + rewrite !elem_of_cons, IH. tauto.
    + rewrite !elem_of_cons. tauto.
Qed.

Lemma elem_of_sort y l : y ∈ sort l ↔ y ∈ l.
Proof.
  unfold sort. induction l as [|x l IH]; simpl; [done|].
  rewrite elem_of_insertSorted, elem_of_cons, IH. done.
Qed.

Lemma insertSorted_sorted x l :
  x ∉ l → StronglySorted before l → StronglySorted before (insertSorted x l).
Proof.
  intros Hx Hs. induction Hs as [|z l Hl IH Hz]; simpl.
  - by repeat constructor.
  - apply not_elem_of_cons in Hx as [Hxz Hx].
    destruct (ltb z x) eqn:E.
    + constructor; [by apply IH|].
      apply Forall_forall. intros y [->|Hy]%elem_of_insertSorted; [done|].
      rewrite Forall_forall in Hz. by apply Hz.
    + assert (Hxz' : before x z) by (apply ltb_total; [done|congruence]).
      constructor; [by constructor|].
      constructor; [done|].
      eapply Forall_impl; [exact Hz|]. intros y Hy. by eapply ltb_trans.
Qed.

Lemma sort_sorted l : NoDup l → StronglySorted before (sort l).
Proof.
  unfold sort. induction 1 as [|x l Hx Hl IH]; simpl; [constructor|].
  apply insertSorted_sorted; [|done]. by rewrite (elem_of_sort x l).
Qed.


Lemma StronglySorted_lookup_lt (l : list jsstring) i j a b :
  StronglySorted before l → l !! i = Some a → l !! j = Some b → (i < j)%nat →
  before a b.
Proof.
  intros Hs. revert i j. induction Hs as [|x l Hl IH Hx]; intros i j Hi Hj Hij.
  - done.
  - destruct j as [|j]; [lia|]. destruct i as [|i]; simpl in *.
    + injection Hi as <-. rewrite Forall_forall in Hx. apply Hx.
      by eapply list_elem_of_lookup_2.
    + eapply IH; [done|done|lia].
Qed.

Lemma elem_of_setAdd y l d : y ∈ setAdd l d ↔ y ∈ l ∨ y = d.
Proof.
  unfold setAdd. case_bool_decide as H.
  - split; [by left|]. by intros [?| ->].
  - rewrite elem_of_app, list_elem_of_singleton. done.
Qed.

Lemma setAdd_NoDup l d : NoDup l → NoDup (setAdd l d).
Proof.
  intros H. unfold setAdd. case_bool_decide as Hd; [done|].
  apply NoDup_app. split_and!; [done| |apply NoDup_singleton].
  intros x Hx ->%list_elem_of_singleton. done.
Qed.

Lemma elem_of_setAdds y l ds : y ∈ foldl setAdd l ds ↔ y ∈ l ∨ y ∈ ds.
Proof.
  revert l. induction ds as [|d ds IH]; intros l; simpl.
  - split; [by left|]. by intros [?|?%elem_of_nil].
  - rewrite IH, elem_of_setAdd, elem_of_cons. tauto.
Qed.

Lemma setAdds_NoDup l ds : NoDup l → NoDup (foldl setAdd l ds).
Proof.
  revert l. induction ds as [|d ds IH]; intros l H; simpl; [done|].
  by apply IH, setAdd_NoDup.
Qed.

(** The pieces of a split at a character do not hold the character. *)
Lemma splitAux_pieces c cur s x :
  c ∉ cur → x ∈ splitAux [c] 0 cur s → c ∉ x.
Proof.
  revert cur. induction s as [|y s IH]; intros cur Hcur; simpl.
  - intros ->%list_elem_of_singleton. by rewrite elem_of_reverse.
  - rewrite andb_true_r. destruct (c =? y) eqn:E.
    + intros [->|Hx]%elem_of_cons; [by rewrite elem_of_reverse|].
      eapply IH; [|exact Hx]. by intros ?%elem_of_nil.
    + apply N.eqb_neq in E. apply IH.
      by intros [?|?]%elem_of_cons.
Qed.

Lemma pathParts_pieces p x :
  x ∈ pathParts p → x ≠ [] ∧ (slash ∉ x).
Proof.
  unfold pathParts. intros [Hne Hx]%list_elem_of_filter. split.
  - by destruct x.
  - eapply splitAux_pieces; [|exact Hx]. by intros ?%elem_of_nil.
Qed.

Lemma join_snoc sep (l : list jsstring) p :
  l ≠ [] → join sep (l ++ [p]) = join sep l ++ sep ++ p.
Proof.
  induction l as [|x l IH]; [done|]. intros _.
  destruct l as [|y l]; [done|].
  change (join sep ((x :: y :: l) ++ [p]))
    with (x ++ sep ++ join sep ((y :: l) ++ [p])).
  rewrite IH by done.
  change (join sep (x :: y :: l)) with (x ++ sep ++ join sep (y :: l)).
  by rewrite <- !app_assoc.
Qed.

Lemma join_nonempty sep (l : list jsstring) :
  l ≠ [] → Forall (fun x => x ≠ []) l → join sep l ≠ [].
Proof.
  intros Hl H. destruct H as [|x l Hx _]; [done|].
  destruct l; simpl; [done|]. by destruct x.
Qed.


Lemma ensureTrailingSlash_part (t p : jsstring) :
  p ≠ [] → (slash ∉ p) → ensureTrailingSlash (t ++ p) = t ++ p ++ [slash].
Proof.
  intros Hp Hs. unfold ensureTrailingSlash, endsWith.
  destruct (reverse p) as [|c q] eqn:E.
  { apply (f_equal reverse) in E. rewrite reverse_involutive in E. done. }
  rewrite reverse_app, E. cbn [reverse app startsWith].
  assert (Hc : c ≠ slash).
  { intros ->. apply Hs. rewrite <- elem_of_reverse, E. by left. }
  change (reverse [slash]) with [slash]. cbn [startsWith].
  apply N.eqb_neq in Hc. rewrite N.eqb_sym, Hc. cbn. by rewrite <- app_assoc.
Qed.

(** The next value of [current] in the loop of [addParentDirs]. *)
Lemma current_snoc (pre : list jsstring) (p : jsstring) :
  Forall (fun x => x ≠ []) pre →
  match join [slash] pre with
  | [] => p
  | _ => join [slash] pre ++ [slash] ++ p
  end = join [slash] (pre ++ [p]).
Proof.
  intros H. destruct pre as [|x pre]; [done|].
  rewrite join_snoc by done.
  pose proof (join_nonempty [slash] (x :: pre) ltac:(done) H) as Hne.
  by destruct (join [slash] (x :: pre)).
Qed.

Lemma ancestors_dirs (pre parts : list jsstring) :
  Forall (fun x => x ≠ [] ∧ slash ∉ x) (pre ++ parts) →
  ancestors (join [slash] pre) parts
  = map (fun k => join [slash] (pre ++ take k parts) ++ [slash])
        (seq 1 (length parts - 1)).
Proof.
  revert pre. induction parts as [|p parts IH]; intros pre H; [done|].
  destruct parts as [|q rest]; [done|].
  change (ancestors (join [slash] pre) (p :: q :: rest))
    with (let current :=
            match join [slash] pre with
            | [] => p
            | _ => join [slash] pre ++ [slash] ++ p
            end in
          ensureTrailingSlash current :: ancestors current (q :: rest)).
  cbv zeta.
  apply Forall_app in H as [Hpre Hparts].
  assert (Hp : p ≠ [] ∧ slash ∉ p) by (by inversion Hparts).
  assert (Hrest : Forall (fun x => x ≠ [] ∧ slash ∉ x) (q :: rest))
    by (by inversion Hparts).
  rewrite current_snoc
    by (eapply Forall_impl; [exact Hpre|]; by intros x [? _]).
  rewrite IH.
  2:{ apply Forall_app. split; [|done]. apply Forall_app. split; [done|].
      by constructor. }
  replace (length (p :: q :: rest) - 1)%nat with (S (length (q :: rest) - 1))
    by (simpl; lia).
  cbn [seq map]. f_equal.
  - cbn [take]. destruct pre as [|x pre].
    + cbn [app join]. rewrite <- (app_nil_l p) at 1.
      rewrite ensureTrailingSlash_part by tauto. done.
    + rewrite join_snoc by done. rewrite !app_assoc.
      rewrite ensureTrailingSlash_part by tauto. by rewrite <- !app_assoc.
  - rewrite <- (seq_shift (length (q :: rest) - 1) 1), map_map.
    apply map_ext. intros k.
    cbn [take]. by rewrite <- app_assoc.
Qed.

Lemma elem_of_ancestors d (p : jsstring) :
  d ∈ ancestors [] (pathParts p)
  ↔ ∃ k, (1 ≤ k < length (pathParts p))%nat ∧ d = dirOf k (pathParts p).
Proof.
  change (ancestors [] (pathParts p))
    with (ancestors (join [slash] []) (pathParts p)).
  rewrite (ancestors_dirs [] (pathParts p)).
  2:{ apply Forall_forall. intros x Hx. by apply pathParts_pieces in Hx. }
  rewrite list_elem_of_fmap. unfold dirOf. cbn [app]. split.
  - intros (k & -> & Hk). apply elem_of_seq in Hk. exists k. split; [lia|done].
  - intros (k & Hk & ->). exists k. split; [done|]. apply elem_of_seq. lia.
Qed.

Lemma elem_of_dirs acc paths d :
  d ∈ foldl (fun dirs p => foldl setAdd dirs (ancestors [] (pathParts p))) acc paths
  ↔ d ∈ acc ∨ ∃ p, p ∈ paths ∧ d ∈ ancestors [] (pathParts p).
Proof.
  revert acc. induction paths as [|p paths IH]; intros acc; simpl.
  - split; [by left|]. intros [?|(p & ?%elem_of_nil & _)]; done.
  - rewrite IH, elem_of_setAdds. split.
    + intros [[?|?]|(q & ? & ?)]; [by left|right|right].
      * exists p. split; [by left|done].
      * exists q. split; [by right|done].
    + intros [?|(q & [->|?]%elem_of_cons & ?)]; [by left; left|by left; right|].
      right. by exists q.
Qed.

Lemma dirs_NoDup acc paths :
  NoDup acc →
  NoDup (foldl (fun dirs p => foldl setAdd dirs (ancestors [] (pathParts p))) acc paths).
Proof.
  revert acc. induction paths as [|p paths IH]; intros acc H; simpl; [done|].
  by apply IH, setAdds_NoDup.
Qed.

Lemma entryPath_dirs (l : list jsstring) :
  map entryPath (map (fun d => Dir d None None) l) = l.
Proof. induction l as [|d l IH]; [done|]. cbn. by rewrite IH. Qed.

(** X7: [addParentDirs] returns directory entries only, without mode
    or time, in strictly increasing order of their paths, so each once.  They
    are exactly the proper ancestors of the paths given, each closed by a
    slash, and a directory never comes after one that lies below it. *)
Theorem addParentDirs_ancestors (paths : list jsstring) :
  let dirs := map entryPath (addParentDirs paths) in
  addParentDirs paths = map (fun d => Dir d None None) dirs
  ∧ StronglySorted before dirs
  ∧ (∀ d, d ∈ dirs ↔
          ∃ p k, p ∈ paths ∧ (1 ≤ k < length (pathParts p))%nat
                 ∧ d = dirOf k (pathParts p))
  ∧ (∀ i j a b, dirs !! i = Some a → dirs !! j = Some b →
                a `prefix_of` b → (i ≤ j)%nat).
Proof.
  intros dirs. subst dirs. unfold addParentDirs. cbv zeta.
  fold pathParts.
  change (fun dirs p =>
            foldl setAdd dirs (ancestors []
              (filter (fun x => isNonEmpty x = true) (split [slash] (toPosixPath p)))))
    with (fun dirs p => foldl setAdd dirs (ancestors [] (pathParts p))).
  set (ds := foldl _ [] paths).
  rewrite entryPath_dirs.
  assert (Hsorted : StronglySorted before (sort ds)).
  { apply sort_sorted. apply dirs_NoDup. constructor. }
  split_and!; [done|done| |].
  - intros d. rewrite elem_of_sort. unfold ds. rewrite elem_of_dirs. split.
    + intros [?%elem_of_nil|(p & Hp & Hd)]; [done|].
      apply elem_of_ancestors in Hd as (k & Hk & ->). by exists p, k.
    + intros (p & k & Hp & Hk & ->). right. exists p. split; [done|].
      apply elem_of_ancestors. by exists k.
  - intros i j a b Hi Hj [t ->].
    destruct (decide (i ≤ j)%nat) as [|Hji]; [done|]. exfalso.
    assert (Hba : before (a ++ t) a)
      by (eapply (StronglySorted_lookup_lt _ j i); [done|done|done|lia]).
    destruct t as [|c t].
    + rewrite app_nil_r in Hba. unfold before in Hba. by rewrite ltb_irrefl in Hba.
    + pose proof (ltb_prefix a (c :: t) ltac:(done)) as Hab.
      apply ltb_asym in Hab. unfold before in Hba. congruence.
Qed.

Example addParentDirs_example :
  map entryPath (addParentDirs [js "b/c/d.txt"; js "a/x.png"; js "b/e.md"; js "top.md"])
  = [js "a/"; js "b/"; js "b/c/"].
Proof. vm_compute. reflexivity. Qed.

End DirFacts.

(** ** Sanitised segments and paths *)

Module SegmentFacts.
Import JS Text Tar Download StringFacts SanitizeFacts Views.

Lemma sanitizeSegment_tidy input : tidy (sanitizeSegment input).
Proof.
  split_and!.
  - intros c. apply sanitizeSegment_elem.
  - rewrite sanitizeSegment_unfold.
    eapply run_prefix; [apply prefix_take|].
    eapply run_prefix; [apply trimEnd_prefix|].
    eapply run_suffix; [apply trimStart_suffix|].
    apply (collapseAux_run false).
  - rewrite sanitizeSegment_unfold.
    eapply prefix_head; [apply prefix_take|].
    eapply prefix_head; [apply trimEnd_prefix|].
    apply trimStart_head.
  - apply sanitizeSegment_length.
Qed.

Lemma tidy_prefix (r s : jsstring) : r `prefix_of` s → tidy s → tidy r.
Proof.
  intros Hp (H1 & H2 & H3 & H4). split_and!.
  - intros c Hc. apply H1. by eapply elem_of_prefix.
  - by eapply run_prefix.
  - by eapply prefix_head.
  - apply prefix_length in Hp. lia.
Qed.

Lemma trimStart_id s : startsWithWhiteSpace s = false → trimStart s = s.
Proof. destruct s as [|c s]; simpl; [done|]. by intros ->. Qed.

Lemma trimEnd_id s : endsWithWhiteSpace s = false → trimEnd s = s.
Proof.
  unfold endsWithWhiteSpace, trimEnd. intros H.
  by rewrite trimStart_id, reverse_involutive.
Qed.

Lemma trimEnd_idemp s : trimEnd (trimEnd s) = trimEnd s.
Proof. apply trimEnd_id, trimEnd_last. Qed.

(** Single spaces are left as they are. *)
Lemma collapseAux_single (s : jsstring) :
  (∀ c, c ∈ s → isWhiteSpace c = true → c = 32) →
  hasWhiteSpaceRun s = false →
  collapseAux false s = s
  ∧ (startsWithWhiteSpace s = false → collapseAux true s = s).
Proof.
  induction s as [|c s IH]; intros Hc Hrun; [done|].
  simpl in Hrun. apply orb_false_iff in Hrun as [Hhead Hrun].
  destruct IH as [IH1 IH2]; [|done|].
  { intros d Hd. apply Hc. by right. }
  simpl. destruct (isWhiteSpace c) eqn:E.
  - simpl in Hhead. split; [|done].
    rewrite (Hc c) by (by left || done). by rewrite IH2.
  - split; [|intros _]; by rewrite IH1.
Qed.

(** On a tidy string only the white space at the end is left to remove. *)
Lemma sanitizeSegment_of_tidy s : tidy s → sanitizeSegment s = trimEnd s.
Proof.
  intros (H1 & H2 & H3 & H4). unfold sanitizeSegment.
  assert (H0 : filter (fun c => c ≠ 0) s = s).
  { clear H2 H3 H4. induction s as [|c s IH]; [done|].
    rewrite filter_cons_True by (apply H1; by left).
    rewrite IH; [done|]. intros d Hd. apply H1. by right. }
  assert (Hm : map (fun c => if isPathUnsafe c then underscore else c) s = s).
  { rewrite <- (list_fmap_id s) at 2. apply list_fmap_ext.
    intros i c Hc. apply list_elem_of_lookup_2 in Hc.
    destruct (H1 c Hc) as (_ & -> & _). done. }
  rewrite H0, Hm. unfold collapseWhiteSpace.
  destruct (collapseAux_single s) as [-> _]; [|done|].
  { intros c Hc. by apply H1. }
  unfold trim. rewrite (trimStart_id s H3). apply take_ge.
  pose proof (prefix_length _ _ (trimEnd_prefix s)). lia.
Qed.

(** X11: sanitising a segment twice gives what sanitising it once
    gives without the white space at its end, and from then on nothing
    changes.  On an input that is not truncated [sanitizeSegment] is
    idempotent. *)
Theorem sanitizeSegment_again (input : jsstring) :
  let once := sanitizeSegment input in
  let twice := sanitizeSegment once in
  twice = trimEnd once
  ∧ sanitizeSegment twice = twice
  ∧ ((length (trim (collapsed input)) ≤ 80)%nat → twice = once).
Proof.
  intros once twice. subst once twice.
  pose proof (sanitizeSegment_tidy input) as Ht.
  rewrite (sanitizeSegment_of_tidy _ Ht). split_and!; [done| |].
  - rewrite sanitizeSegment_of_tidy.
    + apply trimEnd_idemp.
    + eapply tidy_prefix; [apply trimEnd_prefix|done].
  - intros Hle. apply trimEnd_id. rewrite sanitizeSegment_unfold.
    rewrite take_ge by done. apply trimEnd_last.
Qed.


(** *** [sanitizePath] *)

Lemma splitAux_plain c cur (x s : jsstring) :
  c ∉ x → splitAux [c] 0 cur (x ++ s) = splitAux [c] 0 (reverse x ++ cur) s.
Proof.
  revert cur. induction x as [|y x IH]; intros cur Hx; [done|].
  apply not_elem_of_cons in Hx as [Hy Hx].
  cbn [app splitAux startsWith]. rewrite andb_true_r.
  apply N.eqb_neq in Hy. rewrite Hy.
  rewrite IH by done. by rewrite reverse_cons, <- app_assoc.
Qed.

(** Splitting what was joined gives the parts back. *)
Lemma split_of_join c (parts : list jsstring) :
  parts ≠ [] → Forall (fun x => c ∉ x) parts →
  split [c] (join [c] parts) = parts.
Proof.
  intros Hne H. induction H as [|p rest Hp Hrest IH]; [done|]. clear Hne.
  unfold split in *. destruct rest as [|q rest].
  - cbn [join]. rewrite <- (app_nil_r p) at 1.
    rewrite splitAux_plain by done. cbn [splitAux].
    by rewrite app_nil_r, reverse_involutive.
  - change (join [c] (p :: q :: rest)) with (p ++ c :: join [c] (q :: rest)).
    rewrite splitAux_plain by done. cbn [splitAux startsWith].
    rewrite N.eqb_refl. cbn [andb length Nat.sub].
    rewrite app_nil_r, reverse_involutive. f_equal. by apply IH.
Qed.

Lemma elem_of_join c (parts : list jsstring) x :
  x ∈ join [c] parts → x = c ∨ ∃ p, p ∈ parts ∧ x ∈ p.
Proof.
  induction parts as [|p rest IH]; [by intros ?%elem_of_nil|].
  destruct rest as [|q rest].
  - cbn [join]. intros Hx. right. exists p. split; [by left|done].
  - change (join [c] (p :: q :: rest)) with (p ++ [c] ++ join [c] (q :: rest)).
    rewrite !elem_of_app. intros [Hx|[Hx|Hx]].
    + right. exists p. split; [by left|done].
    + left. by apply list_elem_of_singleton in Hx.
    + destruct (IH Hx) as [?|(p' & ? & ?)]; [by left|].
      right. exists p'. split; [by right|done].
Qed.

(** [sanitizePath] joins parts that are not empty and tidy. *)
Lemma sanitizePath_parts (input : jsstring) :
  ∃ parts, sanitizePath input = join [slash] parts
           ∧ Forall (fun p => p ≠ [] ∧ tidy p) parts.
Proof.
  unfold sanitizePath. cbv zeta. eexists. split; [reflexivity|].
  apply Forall_forall. intros p [Hne Hp]%list_elem_of_filter.
  apply list_elem_of_fmap in Hp as (x & -> & _).
  split; [by destruct (sanitizeSegment x)|apply sanitizeSegment_tidy].
Qed.

Lemma sanitizePath_sanitizedParts (input : jsstring) :
  sanitizePath input = join [slash] (sanitizedParts input).
Proof. reflexivity. Qed.

Lemma sanitizedParts_tidy (input : jsstring) :
  Forall (fun p => p ≠ [] ∧ tidy p) (sanitizedParts input).
Proof.
  apply Forall_forall. intros p [Hne Hp]%list_elem_of_filter.
  apply list_elem_of_fmap in Hp as (x & -> & _).
  split; [by destruct (sanitizeSegment x)|apply sanitizeSegment_tidy].
Qed.

Lemma tidy_no_slash (p : jsstring) : tidy p → slash ∉ p.
Proof.
  intros (Hp & _) Hin. destruct (Hp _ Hin) as (_ & Hu & _). by vm_compute in Hu.
Qed.

Lemma tidy_parts_no_slash (parts : list jsstring) :
  Forall (fun p => p ≠ [] ∧ tidy p) parts → Forall (fun p => slash ∉ p) parts.
Proof.
  intros H. eapply Forall_impl; [exact H|]. intros p [_ Hp]. by apply tidy_no_slash.
Qed.

(** X12: [sanitizePath] returns segments joined by single slashes.  No
    character of the result is a NUL or one of the nine path-unsafe
    characters other than the joining slashes, and no segment is empty,
    starts with white space, holds white space other than single spaces or
    is longer than 80 code units. *)
Theorem sanitizePath_segments (input : jsstring) :
  let r := sanitizePath input in
  (∀ c, c ∈ r → c = slash ∨ (c ≠ 0 ∧ isPathUnsafe c = false))
  ∧ (r ≠ [] → Forall (fun seg => seg ≠ [] ∧ tidy seg) (split [slash] r)).
Proof.
  intros r. subst r.
  destruct (sanitizePath_parts input) as (parts & -> & Hparts).
  split.
  - intros c [->|(p & Hp & Hc)]%elem_of_join; [by left|right].
    rewrite Forall_forall in Hparts.
    destruct (Hparts p Hp) as [_ (Ht & _)]. destruct (Ht c Hc) as (? & ? & _). done.
  - intros Hne. destruct parts as [|p rest] eqn:E; [done|].
    rewrite split_of_join; [done|done|]. by apply tidy_parts_no_slash.
Qed.

Example sanitizePath_example :
  sanitizePath (js "/a b//c:d\e/  /f?/") = js "a b/c_d/e/f_".
Proof. vm_compute. reflexivity. Qed.

End SegmentFacts.

(** ** Extensions under de-duplication *)

Module NameFacts.
Import JS Text Tar Download DigitFacts DedupeFacts FolderFacts HashFacts.
Import Views.

#[local] Arguments dedupeLoop : simpl never.
#[local] Arguments dedupePath : simpl never.

Lemma lastIndexOf_absent c (s : jsstring) : c ∉ s → lastIndexOf c s = (-1)%Z.
Proof.
  intros H. unfold lastIndexOf.
  destruct (SplitFacts.lastIndexOfFrom_spec c s 0 (-1)) as [E|[_ Hl]]; [done|].
  destruct H. by eapply list_elem_of_lookup_2.
Qed.

Lemma lastIndexOf_present c (s : jsstring) : c ∈ s → (0 ≤ lastIndexOf c s)%Z.
Proof.
  intros [k Hk]%list_elem_of_lookup_1. apply lastIndexOf_last in Hk. lia.
Qed.

(** The last occurrence, when what follows it has none. *)
Lemma lastIndexOf_app c (a e : jsstring) :
  c ∉ e → lastIndexOf c (a ++ c :: e) = Z.of_nat (length a).
Proof.
  intros He.
  assert (Hat : (a ++ c :: e) !! length a = Some c)
    by (by rewrite lookup_app_r, Nat.sub_diag by lia).
  pose proof (lastIndexOf_last _ _ _ Hat) as Hge.
  pose proof (SplitFacts.lastIndexOf_lookup c (a ++ c :: e) ltac:(lia)) as Hl.
  destruct (decide (lastIndexOf c (a ++ c :: e) = Z.of_nat (length a))) as [|Hne];
    [done|].
  exfalso. apply He.
  rewrite lookup_app_r in Hl by lia.
  replace (Z.to_nat (lastIndexOf c (a ++ c :: e)) - length a)%nat
    with (S (Z.to_nat (lastIndexOf c (a ++ c :: e)) - length a - 1)) in Hl by lia.
  simpl in Hl. by eapply list_elem_of_lookup_2.
Qed.

(** What is put between the base and the extension of a name does not
    change its extension, as long as it has no dot. *)
Lemma extOf_between path (mid : jsstring) :
  dot ∉ mid → extOf (baseOf path ++ mid ++ extOf path) = extOf path.
Proof.
  intros Hmid. unfold baseOf, extOf at 2 3.
  case_bool_decide as Hidx.
  - pose proof (SplitFacts.lastIndexOf_lookup dot path Hidx) as Hl.
    pose proof (sliceFrom_after_last dot path) as Hafter.
    unfold sliceTo, sliceFrom in *.
    replace (Z.to_nat (lastIndexOf dot path + 1))
      with (S (Z.to_nat (lastIndexOf dot path))) in Hafter by lia.
    rewrite (drop_S _ _ _ Hl) in *.
    set (base := take _ path) in *. set (e := drop _ path) in *.
    unfold extOf.
    replace (base ++ mid ++ dot :: e) with ((base ++ mid) ++ dot :: e)
      by (by rewrite <- app_assoc).
    rewrite lastIndexOf_app by exact Hafter.
    rewrite bool_decide_eq_true_2 by lia.
    unfold sliceFrom. rewrite Nat2Z.id. by rewrite drop_app_length.
  - assert (Hno : dot ∉ path).
    { intros Hin. apply lastIndexOf_present in Hin. lia. }
    rewrite app_nil_r. unfold extOf.
    rewrite lastIndexOf_absent.
    + by rewrite bool_decide_eq_false_2 by lia.
    + by intros [?|?]%elem_of_app.
Qed.

Lemma digits_no_dot radix (s : jsstring) :
  radix ≤ 10 → Forall (isDigitOf radix) s → dot ∉ s.
Proof.
  intros Hr H Hin. rewrite Forall_forall in H.
  destruct (H _ Hin) as [? ?]. unfold dot in *. lia.
Qed.

Lemma hex_no_dot (s : jsstring) : Forall isHexDigit s → dot ∉ s.
Proof.
  intros H Hin. rewrite Forall_forall in H.
  destruct (H _ Hin) as [[? ?]|[? ?]]; unfold dot in *; lia.
Qed.

(** X15: [dedupePath] adds the path it returns to the registry and
    nothing else.  It returns the path asked for exactly when that is not
    taken yet, and otherwise a different one that has the same extension and
    starts with the same base. *)
Theorem dedupePath_keeps_extension path used :
  let r := (dedupePath path used).1 in
  (dedupePath path used).2 = {[r]} ∪ used
  ∧ (path ∉ used → r = path)
  ∧ (path ∈ used → r ≠ path)
  ∧ extOf r = extOf path
  ∧ baseOf path `prefix_of` r.
Proof.
  intros r. subst r. split; [apply dedupePath_registry|].
  destruct (dedupePath_cases path used)
    as [[Hp ->]|[(Hp & c & Hc & ->)|(Hp & Hc & ->)]]; cbn [fst].
  - split_and!; [done|done|done|].
    rewrite <- (base_ext path) at 2. by apply prefix_app_r.
  - apply dedupeLoop_Some in Hc as (_ & k & _ & ->).
    split_and!; [done|intros _; apply candidate_ne_path| |].
    + unfold candidate. rewrite (app_assoc [underscore]).
      apply extOf_between. intros [Hin|Hin]%elem_of_app.
      * by apply list_elem_of_singleton in Hin.
      * revert Hin. apply (digits_no_dot 10); [lia|]. apply toDecimal_digits.
    + unfold candidate. by apply prefix_app_r.
  - split_and!; [done| | |].
    + intros _ H. apply (f_equal length) in H.
      rewrite <- (base_ext path) in H at 4. rewrite !length_app in H.
      simpl in H. lia.
    + rewrite (app_assoc [underscore]).
      apply extOf_between. intros [Hin|Hin]%elem_of_app.
      * by apply list_elem_of_singleton in Hin.
      * revert Hin. apply hex_no_dot. apply shortHash_hex.
    + by apply prefix_app_r.
Qed.

End NameFacts.

(** ** The path of an asset *)

Module PathFacts.
Import JS Text Tar Download DigitFacts StringFacts SanitizeFacts FolderFacts.
Import HashFacts DirFacts SegmentFacts NameFacts.
Import Views.

#[local] Arguments sanitizeSegment : simpl never.
#[local] Arguments sanitizePath : simpl never.
#[local] Arguments shortHash : simpl never.

(** A character that [sanitizeSegment] neither removes nor replaces. *)
Lemma plain_tidy (s : jsstring) :
  Forall (fun c => c ≠ 0 ∧ isPathUnsafe c = false ∧ isWhiteSpace c = false) s →
  (length s ≤ 80)%nat → tidy s.
Proof.
  intros H Hlen. split_and!; [| | |done].
  - intros c Hc. rewrite Forall_forall in H. destruct (H c Hc) as (? & ? & Hw).
    split_and!; [done|done|]. by rewrite Hw.
  - clear Hlen. induction H as [|c s (_ & _ & Hc) _ IH]; [done|].
    simpl. by rewrite Hc, IH.
  - destruct H as [|c s (_ & _ & Hc) _]; [done|]. exact Hc.
Qed.

Lemma hex_tidy (s : jsstring) :
  Forall isHexDigit s → (length s ≤ 80)%nat → tidy s.
Proof.
  intros H Hlen. apply plain_tidy; [|done].
  eapply Forall_impl; [exact H|]. apply hex_plain.
Qed.

Lemma tidy_app_plain (a b : jsstring) :
  Forall (fun c => c ≠ 0 ∧ isPathUnsafe c = false ∧ isWhiteSpace c = false) a →
  Forall (fun c => c ≠ 0 ∧ isPathUnsafe c = false ∧ isWhiteSpace c = false) b →
  (length a + length b ≤ 80)%nat → tidy (a ++ b).
Proof.
  intros Ha Hb Hlen. apply plain_tidy; [by apply Forall_app|].
  rewrite length_app. lia.
Qed.

(** The name that stands in for an empty one: [images_] or [files_] and ten
    hexadecimal digits. *)
Lemma fallback_tidy kind assetUrl :
  let name := kindName kind ++ [underscore] ++ shortHash assetUrl in
  name ≠ [] ∧ tidy name.
Proof.
  intros name. subst name. split; [by destruct kind|].
  rewrite app_assoc. apply tidy_app_plain.
  - destruct kind; by repeat (constructor; [by vm_compute|]).
  - eapply Forall_impl; [apply shortHash_hex|]. apply hex_plain.
  - rewrite length_app. pose proof (shortHash_length assetUrl).
    destruct kind; simpl; lia.
Qed.

Lemma orElse_tidy (a b : jsstring) :
  tidy a → b ≠ [] → tidy b → orElse a b ≠ [] ∧ tidy (orElse a b).
Proof. intros Ha Hb Hb'. by destruct a. Qed.

(** X16: [buildRelativeAssetPath] throws only when the URL does not
    parse.  Otherwise its result is the segments assets, the kind, the host,
    the directories of the URL and the file name joined by slashes, where the
    directories are the pieces of the URL's path but the last, sanitised,
    without the empty ones; splitting the result at the slashes gives these
    segments back, none of them is empty and each is sanitised.  An empty
    host becomes host, an empty file name the kind, an underscore and the
    short hash of the URL. *)
Theorem buildRelativeAssetPath_segments w assetUrl kind filename :
  (parseURL w assetUrl = None →
   buildRelativeAssetPath w assetUrl kind filename = Throw invalidURL)
  ∧ ∀ u, parseURL w assetUrl = Some u →
      let host := orElse (sanitizeSegment (hostname u)) (js "host") in
      let dirs := sanitizedParts (directoryOf (pathname u)) in
      let file := orElse (sanitizeSegment filename)
                         (kindName kind ++ [underscore] ++ shortHash assetUrl) in
      let segments := [js "assets"; kindName kind; host] ++ dirs ++ [file] in
      buildRelativeAssetPath w assetUrl kind filename
      = Normal (join [slash] segments)
      ∧ split [slash] (join [slash] segments) = segments
      ∧ Forall (fun seg => seg ≠ [] ∧ tidy seg) segments.
Proof.
  unfold buildRelativeAssetPath, newURL. split.
  { by intros ->. }
  intros u ->. unfold mbind, Completion_bind. cbv zeta.
  set (host := orElse (sanitizeSegment (hostname u)) (js "host")).
  set (file := orElse (sanitizeSegment filename) _).
  fold (directoryOf (pathname u)).
  set (dir := sanitizePath _).
  pose proof (sanitizePath_sanitizedParts (directoryOf (pathname u))) as Hdir.
  pose proof (sanitizedParts_tidy (directoryOf (pathname u))) as Hdirs.
  fold dir in Hdir.
  set (dirs := sanitizedParts (directoryOf (pathname u))) in *.
  assert (Hhost : host ≠ [] ∧ tidy host).
  { apply orElse_tidy; [apply sanitizeSegment_tidy|done|].
    apply plain_tidy; [|simpl; lia]. by repeat (constructor; [by vm_compute|]). }
  assert (Hfile : file ≠ [] ∧ tidy file).
  { apply orElse_tidy; [apply sanitizeSegment_tidy|apply fallback_tidy..]. }
  assert (Hall : Forall (fun seg => seg ≠ [] ∧ tidy seg)
                   ([js "assets"; kindName kind; host] ++ dirs ++ [file])).
  { apply Forall_app. split; [|apply Forall_app; split; [done|by constructor]].
    constructor; [|constructor; [|by constructor]].
    - split; [done|]. apply plain_tidy; [|simpl; lia].
      by repeat (constructor; [by vm_compute|]).
    - split; [by destruct kind|]. apply plain_tidy; [|destruct kind; simpl; lia].
      destruct kind; by repeat (constructor; [by vm_compute|]). }
  split_and!; [|apply split_of_join; [done|by apply tidy_parts_no_slash]|done].
  f_equal. change (js "assets/") with (js "assets" ++ [slash]).
  clearbody dirs. destruct dirs as [|d dirs].
  - rewrite Hdir. cbn [join app]. by rewrite <- ?app_assoc.
  - assert (Hne : dir ≠ []).
    { rewrite Hdir. apply join_nonempty; [done|].
      eapply Forall_impl; [exact Hdirs|]. by intros x [? _]. }
    replace (match dir with [] => file | _ :: _ => dir ++ [slash] ++ file end)
      with (dir ++ [slash] ++ file) by (by destruct dir).
    rewrite Hdir, <- (join_snoc [slash] (d :: dirs) file) by done.
    cbn [join app]. by rewrite <- ?app_assoc.
Qed.

(** The paper of the demo article: the directory of its URL is kept. *)
Example buildRelativeAssetPath_example :
  buildRelativeAssetPath Examples.demoWorld (js "http://h/docs/2024/paper.pdf")
    Files (js "paper.pdf")
  = Normal (js "assets/files/h/docs/2024/paper.pdf")
  ∧ sanitizedParts (directoryOf (js "/docs/2024/paper.pdf"))
    = [js "docs"; js "2024"].
Proof. split; vm_compute; reflexivity. Qed.

End PathFacts.

(** ** Extensions from content types *)

Module TypeFacts.
Import JS Text Tar Download DigitFacts StringFacts SanitizeFacts FolderFacts.
Import HashFacts DirFacts SegmentFacts NameFacts PathFacts.
Import Views.

Lemma tableLookup_value key table v :
  tableLookup key table = Some v → v ∈ map snd table.
Proof.
  induction table as [|[k x] table IH]; simpl; [done|].
  destruct (eqb k key); [intros [= ->]; by left|].
  intros H. right. by apply IH.
Qed.

Lemma split_head c (s rest : jsstring) :
  c ∉ s → head (split [c] (s ++ c :: rest)) = Some s.
Proof.
  intros H. unfold split. rewrite splitAux_plain by done.
  cbn [splitAux startsWith]. rewrite N.eqb_refl. cbn [andb].
  by rewrite app_nil_r, reverse_involutive.
Qed.

Lemma split_whole c (s : jsstring) : c ∉ s → split [c] s = [s].
Proof.
  intros H. unfold split. rewrite <- (app_nil_r s) at 1.
  rewrite splitAux_plain by done. cbn [splitAux].
  by rewrite app_nil_r, reverse_involutive.
Qed.

(** X14: [guessExtFromContentType] returns the empty string, or a dot
    followed by a dot-free extension that needs no sanitising, or the text of
    one of the two properties that the table inherits.  What follows the
    first semicolon of the content type makes no difference. *)
Theorem guessExtFromContentType_shape (w : World) (contentType : jsstring) :
  let ext := guessExtFromContentType w contentType in
  (ext = [] ∨ (head ext = Some dot ∧ tidy ext ∧ (dot ∉ drop 1 ext))
   ∨ ext ∈ inheritedTexts)
  ∧ (∀ mime parameters,
       (59 ∉ mime) → contentType = mime ++ [59] ++ parameters →
       ext = guessExtFromContentType w mime).
Proof.
  intros ext. subst ext. split.
  - unfold guessExtFromContentType. cbv zeta.
    generalize (toLowerCase w (trim (default [] (head (split (js ";") contentType))))).
    intros ct. unfold mappingText.
    destruct (tableLookup ct extensionTable) as [v|] eqn:E.
    + right; left. apply tableLookup_value in E.
      assert (Hall : Forall (fun v => head v = Some dot
                                      ∧ (length v ≤ 80)%nat
                                      ∧ Forall (fun c => c ≠ 0 ∧ isPathUnsafe c = false
                                                         ∧ isWhiteSpace c = false) v
                                      ∧ dot ∉ drop 1 v)
                            (map snd extensionTable)).
      { repeat (constructor;
                [split_and!;
                 [reflexivity|vm_compute; lia
                 |by repeat (constructor; [by vm_compute|])
                 |apply (bool_decide_unpack _); by vm_compute]|]).
        constructor. }
      rewrite Forall_forall in Hall.
      destruct (Hall v E) as (H1 & H2 & H3 & H4).
      split_and!; [done|by apply plain_tidy|done].
    + destruct (eqb ct (js "constructor")); [right; right; by left|].
      destruct (eqb ct (js "__proto__")); [right; right; right; by left|by left].
  - intros mime parameters Hm ->. unfold guessExtFromContentType. cbv zeta.
    change (js ";") with [59]. cbn [app].
    by rewrite split_head, split_whole.
Qed.

End TypeFacts.

(** ** The folder of an article *)

Module TextFacts.
Import JS Text Tar Download DigitFacts StringFacts SanitizeFacts FolderFacts RewriteFacts.
Import HashFacts DirFacts SegmentFacts NameFacts PathFacts.
Import Views.

#[local] Arguments sanitizeSegment : simpl never.

(** *** [safeArticleFolder] *)

Lemma indexPrefix_length index :
  (3 ≤ length (indexPrefix index))%nat
  ∧ ((index < 999)%nat → length (indexPrefix index) = 3%nat).
Proof.
  unfold indexPrefix. rewrite padStart_length. split; [lia|]. intros Hi.
  assert (2 ≤ 10) as H2 by lia.
  assert (Hn : N.of_nat (index + 1) < 10 ^ N.of_nat 3) by (simpl; lia).
  pose proof (toRadixAux_length 10 (S (N.to_nat (N.log2 (N.of_nat (index + 1)))))
                (N.of_nat (index + 1)) [] 3 H2 Hn ltac:(lia)) as H.
  unfold toDecimal, toStringRadix. rewrite Nat.add_0_r in H. lia.
Qed.

Lemma digits_plain (s : jsstring) :
  Forall (isDigitOf 10) s →
  Forall (fun c => c ≠ 0 ∧ isPathUnsafe c = false ∧ isWhiteSpace c = false) s.
Proof.
  intros H. eapply Forall_impl; [exact H|]. intros c [? ?].
  apply hex_plain. left. lia.
Qed.

(** X13: [safeArticleFolder] throws only when the title sanitises to
    nothing and the URL does not parse.  Otherwise the folder is the index
    prefix, an underscore and a non-empty base, which is the sanitised title
    when there is one; it holds no NUL and none of the path-unsafe
    characters, so no slash; the prefix has three digits for the first 999
    articles. *)
Theorem safeArticleFolder_name w url title index :
  let named := sanitizeSegment (default [] title) in
  (∀ m, safeArticleFolder w url title index = Throw m
        ↔ named = [] ∧ parseURL w url = None ∧ m = invalidURL)
  ∧ ∀ folder, safeArticleFolder w url title index = Normal folder →
      ∃ base,
        folder = indexPrefix index ++ [underscore] ++ base
        ∧ base ≠ []
        ∧ (named ≠ [] → base = named)
        ∧ (∀ c, c ∈ folder → c ≠ 0 ∧ isPathUnsafe c = false)
        ∧ ((index < 999)%nat → length (indexPrefix index) = 3%nat).
Proof.
  intros named. subst named.
  unfold safeArticleFolder, newURL. fold (indexPrefix index).
  pose proof (sanitizeSegment_tidy (default [] title)) as Ht.
  assert (Hprefix : ∀ c, c ∈ indexPrefix index ++ [underscore] →
                         c ≠ 0 ∧ isPathUnsafe c = false).
  { intros c [Hc|Hc%list_elem_of_singleton]%elem_of_app; [|by subst c].
    pose proof (digits_plain _ (indexPrefix_digits index)) as Hd.
    rewrite Forall_forall in Hd. by destruct (Hd c Hc) as (? & ? & _). }
  destruct (sanitizeSegment (default [] title)) as [|c s] eqn:E.
  - destruct (parseURL w url) as [u|] eqn:Eu; unfold mbind, Completion_bind.
    + split; [intros m; split; [done|by intros (_ & ? & _)]|].
      intros folder <-%Normal_inj. eexists. split; [reflexivity|].
      pose proof (sanitizeSegment_tidy (hostname u)) as Hh.
      assert (Hbase : orElse (sanitizeSegment (hostname u))
                             (js "article_" ++ indexPrefix index) ≠ []
                      ∧ ∀ c, c ∈ orElse (sanitizeSegment (hostname u))
                                        (js "article_" ++ indexPrefix index) →
                             c ≠ 0 ∧ isPathUnsafe c = false).
      { destruct (sanitizeSegment (hostname u)) as [|h hs]; cbn [orElse].
        - split; [done|]. intros c [Hc|Hc]%elem_of_app.
          + revert c Hc. apply Forall_forall.
            by repeat (constructor; [by vm_compute|]).
          + pose proof (digits_plain _ (indexPrefix_digits index)) as Hd.
            rewrite Forall_forall in Hd. by destruct (Hd c Hc) as (? & ? & _).
        - split; [done|]. intros c Hc. destruct Hh as (Hh & _).
          by destruct (Hh c Hc) as (? & ? & _). }
      destruct Hbase as [Hne Hsafe].
      split_and!; [done|done| |apply indexPrefix_length].
      intros c. rewrite app_assoc. intros [Hc|Hc]%elem_of_app; [by apply Hprefix|].
      by apply Hsafe.
    + split; [intros m; split; [by intros [= <-]|by intros (_ & _ & ->)]|done].
  - split; [intros m; split; [done|by intros (? & _)]|].
    intros folder <-%Normal_inj. exists (c :: s).
    split_and!; [done|done|done| |apply indexPrefix_length].
    intros d. rewrite app_assoc. intros [Hd|Hd]%elem_of_app; [by apply Hprefix|].
    destruct Ht as (Ht & _). by destruct (Ht d Hd) as (? & ? & _).
Qed.

Example safeArticleFolder_examples :
  safeArticleFolder Examples.demoWorld Examples.articleUrl (Some (js " A/B:  c ")) 6
  = Normal (js "007_A_B_ c")
  ∧ safeArticleFolder Examples.demoWorld Examples.articleUrl (Some (js "   ")) 41
    = Normal (js "042_blog.example")
  ∧ safeArticleFolder Examples.demoWorld (js "nonsense") None 0
    = Throw invalidURL.
Proof. split_and!; vm_compute; reflexivity. Qed.

End TextFacts.

(** ** Replacing text *)

Module ReplaceFacts.
Import JS Text Tar Download StringFacts RewriteFacts DirFacts SegmentFacts.

Lemma join_length sep (parts : list jsstring) :
  (length (join sep parts) + length sep
   = foldr (fun p n => length p + length sep + n) 0 parts
     + (if parts is [] then length sep else 0))%nat.
Proof.
  induction parts as [|p rest IH]; [simpl; lia|].
  destruct rest as [|q rest].
  - simpl. lia.
  - rewrite join_cons by done. rewrite !length_app.
    cbn [foldr] in *. lia.
Qed.

(** The pieces are one more than the replacements; every replacement
    changes the length by the difference of the two strings. *)
Lemma replaceAll_length text search replacement :
  search ≠ [] →
  let k := (length (split search text) - 1)%nat in
  (length (replaceAll text search replacement) + k * length search
   = length text + k * length replacement)%nat.
Proof.
  intros Hs k. subst k. unfold replaceAll.
  destruct search as [|c tl] eqn:E; [done|]. rewrite <- E in *.
  pose proof (split_join search text Hs) as Hj.
  assert (Hne : split search text ≠ []) by apply splitAux_nonempty.
  pose proof (join_length search (split search text)) as H1.
  pose proof (join_length replacement (split search text)) as H2.
  rewrite Hj in H1.
  destruct (split search text) as [|p rest]; [done|]. clear Hne Hj.
  cbn [length] in *. replace (S (length rest) - 1)%nat with (length rest) by lia.
  revert H1 H2. generalize (length (join replacement (p :: rest))).
  generalize (length text). intros n m.
  assert (Hsum : ∀ (a : nat) l,
            foldr (fun (p : jsstring) n => (length p + a + n)%nat) 0%nat l
            = (foldr (fun (p : jsstring) n => (length p + n)%nat) 0%nat l
               + length l * a)%nat).
  { intros a l. induction l as [|x l IH]; simpl; [done|]. rewrite IH. lia. }
  rewrite !Hsum. cbn [length foldr]. nia.
Qed.

Lemma splitAux_skip sep k cur (s : jsstring) :
  (k ≤ length s)%nat → splitAux sep k cur s = splitAux sep 0 cur (drop k s).
Proof.
  revert k. induction s as [|c s IH]; intros k Hk.
  - by destruct k.
  - destruct k as [|k]; [done|]. cbn [splitAux drop]. apply IH. simpl in Hk. lia.
Qed.

Lemma startsWith_self (l rest : jsstring) : startsWith l (l ++ rest) = true.
Proof. induction l as [|y l IH]; [done|]. simpl. by rewrite N.eqb_refl, IH. Qed.

(** Up to the first occurrence the text is copied. *)
Lemma splitAux_first sep cur (a rest : jsstring) :
  sep ≠ [] →
  (∀ i, (i < length a)%nat → startsWith sep (drop i (a ++ sep ++ rest)) = false) →
  splitAux sep 0 cur (a ++ sep ++ rest)
  = (reverse cur ++ a) :: splitAux sep 0 [] rest.
Proof.
  intros Hsep. revert cur. induction a as [|c a IH]; intros cur Hfirst.
  - destruct sep as [|x sep]; [done|].
    cbn [app splitAux].
    assert (Hst : startsWith (x :: sep) (x :: sep ++ rest) = true)
      by apply (startsWith_self (x :: sep) rest).
    rewrite Hst, app_nil_r. f_equal. cbn [length].
    rewrite Nat.sub_succ, Nat.sub_0_r.
    rewrite splitAux_skip by (rewrite length_app; lia).
    by rewrite drop_app_length.
  - cbn [app splitAux].
    pose proof (Hfirst 0%nat ltac:(simpl; lia)) as H0. cbn [drop app] in H0.
    rewrite H0. rewrite IH.
    + by rewrite reverse_cons, <- app_assoc.
    + intros i Hi. apply (Hfirst (S i)). simpl. lia.
Qed.

(** X20: [replaceAll] returns the text as it is when the search
    string is empty, when it does not occur, and when it is its own
    replacement; the empty text stays empty.  Otherwise every occurrence
    replaced changes the length by the difference between the two
    strings. *)
Theorem replaceAll_edges (text search replacement : jsstring) :
  replaceAll text [] replacement = text
  ∧ replaceAll [] search replacement = []
  ∧ replaceAll text search search = text
  ∧ (includesString search text = false →
     replaceAll text search replacement = text)
  ∧ (search ≠ [] →
     let k := (length (split search text) - 1)%nat in
     (length (replaceAll text search replacement) + k * length search
      = length text + k * length replacement)%nat).
Proof.
  split_and!.
  - done.
  - by destruct search.
  - apply replaceAll_same.
  - apply replaceAll_absent.
  - apply replaceAll_length.
Qed.

(** X21: [replaceAll] goes from left to right.  The text before the
    first occurrence of the search string is kept, the occurrence is
    replaced, and the rest is treated on its own: what a replacement puts in
    is not searched again. *)
Theorem replaceAll_first (a rest search replacement : jsstring) :
  search ≠ [] →
  (∀ i, (i < length a)%nat →
        startsWith search (drop i (a ++ search ++ rest)) = false) →
  replaceAll (a ++ search ++ rest) search replacement
  = a ++ replacement ++ replaceAll rest search replacement.
Proof.
  intros Hs Hfirst. unfold replaceAll.
  destruct search as [|c tl] eqn:E; [done|]. rewrite <- E in *.
  unfold split. rewrite splitAux_first by done.
  rewrite join_cons by apply splitAux_nonempty. done.
Qed.

Lemma replaceAll_first_witness :
  replaceAll (js "see " ++ js "ab" ++ js "abab") (js "ab") (js "X")
  = js "see " ++ js "X" ++ replaceAll (js "abab") (js "ab") (js "X").
Proof.
  apply replaceAll_first; [done|].
  intros i Hi. do 4 (destruct i as [|i]; [reflexivity|]). simpl in Hi. lia.
Defined.

End ReplaceFacts.

(** ** The text of an article *)

Module MarkdownFacts.
Import JS Text Tar Download StringFacts RewriteFacts DirFacts SegmentFacts Views.

Lemma trimStart_app_stop (a b : jsstring) :
  startsWithWhiteSpace a = false → a ≠ [] → trimStart (a ++ b) = a ++ b.
Proof. destruct a as [|c a]; [done|]. simpl. by intros ->. Qed.

Lemma trimStart_app (a b : jsstring) :
  trimStart (a ++ b) = if trimStart a is [] then trimStart b else trimStart a ++ b.
Proof.
  induction a as [|c a IH]; [done|]. simpl.
  destruct (isWhiteSpace c); [exact IH|done].
Qed.

(** White space is removed from the end of what follows a part that ends
    in another character. *)
Lemma trimEnd_app (a b : jsstring) :
  endsWithWhiteSpace a = false → a ≠ [] → trimEnd (a ++ b) = a ++ trimEnd b.
Proof.
  intros Ha Hne. unfold trimEnd, endsWithWhiteSpace in *.
  rewrite reverse_app, trimStart_app.
  assert (Hra : reverse a ≠ []).
  { intros E. apply (f_equal reverse) in E. rewrite reverse_involutive in E. done. }
  destruct (trimStart (reverse b)) as [|c t] eqn:E.
  - rewrite trimStart_id by done. by rewrite reverse_involutive, app_nil_r.
  - by rewrite reverse_app, reverse_involutive.
Qed.

Lemma join_app sep (l1 l2 : list jsstring) :
  l1 ≠ [] → l2 ≠ [] → join sep (l1 ++ l2) = join sep l1 ++ sep ++ join sep l2.
Proof.
  intros H1 H2. induction l1 as [|x l1 IH]; [done|].
  destruct l1 as [|y l1].
  - cbn [app]. by rewrite join_cons.
  - change ((x :: y :: l1) ++ l2) with (x :: ((y :: l1) ++ l2)).
    rewrite !join_cons by done. rewrite IH by done. by rewrite <- !app_assoc.
Qed.

(** X22: the text of an article is its header lines joined by
    newlines, then two newlines and the content with the white space at the
    end removed, then one newline.  The header is never empty and has no
    white space at either end, so trimming never touches it. *)
Theorem buildArticleMarkdown_layout (result : ExtractResult) :
  let header := join [newline] (headerLines result) in
  buildArticleMarkdown result
  = header ++ trimEnd ([newline; newline] ++ resultContent result) ++ [newline]
  ∧ startsWithWhiteSpace header = false
  ∧ endsWithWhiteSpace header = false
  ∧ header ≠ [].
Proof.
  intros header. subst header. unfold buildArticleMarkdown, headerLines. cbv zeta.
  set (src := [42; 42; 26469; 28304; 42; 42; 58; 32] ++ resultUrl result).
  set (L1 := lineIf (js "# ") (title result)).
  set (L2 := lineIf _ (author result)).
  set (L3 := lineIf _ (date result)).
  set (lines := L1 ++ [src] ++ L2 ++ L3 ++ [[]; js "---"]).
  assert (Hlines : L1 ++ [src] ++ L2 ++ L3 ++ [[]; js "---"; []; resultContent result]
                   = lines ++ [[]; resultContent result]).
  { unfold lines. by rewrite <- !app_assoc. }
  rewrite Hlines.
  assert (Hne : lines ≠ []) by (unfold lines; by destruct L1).
  rewrite join_app by done.
  assert (Hstart : startsWithWhiteSpace (join [newline] lines) = false
                   ∧ join [newline] lines ≠ []).
  { assert (Hrest : L2 ++ L3 ++ [[]; js "---"] ≠ [])
      by (destruct L2; [by destruct L3|done]).
    unfold lines, L1, lineIf. destruct (title result) as [[|c t]|]; cbn [app].
    - rewrite join_cons by done. done.
    - rewrite join_cons by done. done.
    - rewrite join_cons by done. done. }
  assert (Hend : endsWithWhiteSpace (join [newline] lines) = false).
  { replace lines with ((L1 ++ [src] ++ L2 ++ L3 ++ [[]]) ++ [js "---"])
      by (unfold lines; by rewrite <- !app_assoc).
    rewrite join_snoc by (by destruct L1).
    unfold endsWithWhiteSpace. by rewrite !reverse_app. }
  destruct Hstart as [Hstart Hne'].
  split_and!; [|done|done|done].
  unfold trim. rewrite trimStart_app_stop by done.
  rewrite trimEnd_app by done. cbn [join]. by rewrite <- !app_assoc.
Qed.

Example buildArticleMarkdown_example :
  buildArticleMarkdown
    {| title := Some (js "T"); resultContent := js "text  "; author := None;
       date := Some (js "2024"); resultUrl := js "http://h/p" |}
  = js "# T" ++ [10] ++ [42; 42; 26469; 28304; 42; 42; 58; 32] ++ js "http://h/p"
      ++ [10] ++ [42; 42; 26085; 26399; 42; 42; 58; 32] ++ js "2024"
      ++ [10; 10] ++ js "---" ++ [10; 10] ++ js "text" ++ [10].
Proof. vm_compute. reflexivity. Qed.

End MarkdownFacts.

(** ** The answers of the handler *)

Module AnswerFacts.
Import JS Text Tar Download FolderFacts AssetFacts PoolFacts LoopFacts DedupeFacts.

#[local] Arguments dedupePath : simpl never.
#[local] Arguments resolveFilename : simpl never.
#[local] Arguments buildRelativeAssetPath : simpl never.
#[local] Arguments packageRun : simpl never.
#[local] Arguments createTarGz : simpl never.

(** X23: the handler has five answers.  A request with method OPTIONS
    gets status 200 without a body, any other method than POST gets 405;
    neither logs anything.  A POST gets 400 when its URLs fail validation,
    with nothing extracted or fetched, or when the run throws; and status 200
    with a body only when its URLs pass validation, the body being the
    compressed archive of the entries of the run followed by its manifest. *)
Theorem handler_answers (w : World) (req : Request) :
  let body := default emptyBody (reqBody req) in
  let urls := requestUrls body in
  let options := requestOptions body in
  (method req = js "OPTIONS" → handler w req = (End 200, noLog))
  ∧ (method req ≠ js "OPTIONS" → method req ≠ js "POST" →
     handler w req = (Json 405 (js "Method not allowed"), noLog))
  ∧ (∀ status log, handler w req = (End status, log) →
       status = 200%nat ∧ method req = js "OPTIONS")
  ∧ (∀ status error log, handler w req = (Json status error, log) →
       (status = 405%nat ∧ method req ≠ js "POST")
       ∨ (status = 400%nat ∧ method req = js "POST"
          ∧ (¬ passesValidation w urls ∧ log = noLog
             ∨ ∃ m, packageRun w options urls = (Throw m, log))))
  ∧ (∀ status bytes log, handler w req = (Send status bytes, log) →
       status = 200%nat ∧ method req = js "POST" ∧ passesValidation w urls
       ∧ ∃ pkg, packageRun w options urls = (Normal pkg, log)
                ∧ bytes = createTarGz w (tarEntries pkg
                                          ++ [manifestEntry w (manifest pkg)])).
Proof.
  intros body urls options. unfold handler. fold body. fold urls. fold options.
  unfold eqb.
  destruct (decide (method req = js "OPTIONS")) as [Ho|Ho].
  { rewrite bool_decide_eq_true_2 by done.
    split_and!; [done|done| |done|done]. by intros status log [= <- <-]. }
  rewrite (bool_decide_eq_false_2 _ Ho).
  destruct (decide (method req = js "POST")) as [Hp|Hp].
  2:{ rewrite (bool_decide_eq_false_2 _ Hp). cbn [negb].
      split_and!; [done|done|done| |done].
      intros status error log [= <- <- <-]. by left. }
  rewrite (bool_decide_eq_true_2 _ Hp). cbn [negb].
  split; [intros H; by destruct Ho|]. split; [intros _ H; by destruct H|].
  case_bool_decide as Hempty.
  { split_and!; [done| |done]. intros status error log [= <- <- <-]. right.
    split_and!; [done|done|]. left. split; [|done].
    intros (Hne & _). apply Hne. by apply length_zero_iff_nil. }
  case_bool_decide as Hmany.
  { split_and!; [done| |done]. intros status error log [= <- <- <-]. right.
    split_and!; [done|done|]. left. split; [|done].
    intros (_ & Hle & _). lia. }
  destruct (firstInvalid w urls) as [bad|] eqn:Ebad.
  { split_and!; [done| |done]. intros status error log [= <- <- <-]. right.
    split_and!; [done|done|]. left. split; [|done].
    intros (_ & _ & H). congruence. }
  assert (Hpass : passesValidation w urls).
  { split_and!; [|lia|done]. intros E. apply Hempty. by rewrite E. }
  destruct (packageRun w options urls) as [[pkg|m] log'] eqn:Erun.
  - split_and!; [done|done|]. intros status bytes log [= <- <- <-].
    split_and!; [done|done|done|]. by exists pkg.
  - split_and!; [done| |done]. intros status error log [= <- <- <-]. right.
    split_and!; [done|done|]. right. by exists m.
Qed.

End AnswerFacts.

(** ** What a download returns and throws *)

Module DownloadFacts.
Import JS Text Tar Download FolderFacts AssetFacts PoolFacts LoopFacts DedupeFacts.

#[local] Arguments dedupePath : simpl never.
#[local] Arguments resolveFilename : simpl never.
#[local] Arguments buildRelativeAssetPath : simpl never.

(** X17: [downloadAsset] returns an asset only for a response that is
    ok, for a file is not HTML, and whose body has at least one byte and at
    most [MAX_ASSET_BYTES].  The asset holds these bytes and the URL asked
    for; its path is added to the registry, and nothing else is; its size is
    added to the counter of the run. *)
Theorem downloadAsset_accepts w j i assetUrl referer kind st asset st' :
  downloadAsset w j i assetUrl referer kind st = Normal (Some asset, st') →
  ∃ response,
    fetch w j i assetUrl referer = Some response
    ∧ ok response = true
    ∧ (kind = Files →
       startsWith (js "text/html")
                  (toLowerCase w (default [] (contentType response))) = false)
    ∧ body response = BodyBytes (content asset)
    ∧ (0 < Z.of_nat (length (content asset)) ≤ MAX_ASSET_BYTES)%Z
    ∧ originalUrl asset = assetUrl
    ∧ usedPaths st' = {[relativePath asset]} ∪ usedPaths st
    ∧ totalBytes st' = (totalBytes st + Z.of_nat (length (content asset)))%Z.
Proof.
  unfold downloadAsset, afterFetch.
  destruct (fetch w j i assetUrl referer) as [response|]; [|done].
  destruct (ok response) eqn:Eok; cbn [negb]; [|done].
  destruct (bool_decide (kind = Files) && _) eqn:Ehtml; [done|].
  destruct (body response) as [bytes|m] eqn:Ebody; [|done].
  unfold afterBody.
  destruct (countBytes bytes st) as [st1|] eqn:Ec; [|by intros [=]%Normal_inj].
  apply countBytes_spec in Ec as (Hu1 & Ht1 & _ & Hlen).
  unfold placeAsset, mbind, Completion_bind.
  destruct (buildRelativeAssetPath w assetUrl kind _) as [p|m]; [|done].
  pose proof (dedupePath_registry p (usedPaths st1)) as Hreg.
  destruct (dedupePath p (usedPaths st1)) as [p' used']. cbn [fst snd] in Hreg.
  intros [= <- <-]%Normal_inj. exists response.
  cbn [content originalUrl relativePath usedPaths totalBytes].
  rewrite <- Hu1, <- Ht1.
  split_and!; try done; try lia.
  intros ->. rewrite bool_decide_eq_true_2 in Ehtml by done. exact Ehtml.
Qed.

Lemma downloadAsset_accepts_witness :
  ∃ asset st' response,
    downloadAsset Examples.demoWorld 0 0 Examples.plainImage Examples.articleUrl
      Images {| usedPaths := ∅; totalBytes := 0 |} = Normal (Some asset, st')
    ∧ fetch Examples.demoWorld 0 0 Examples.plainImage Examples.articleUrl
      = Some response
    ∧ body response = BodyBytes (content asset)
    ∧ usedPaths st' = {[relativePath asset]} ∪ ∅.
Proof.
  eexists _, _.
  assert (Hrun : downloadAsset Examples.demoWorld 0 0 Examples.plainImage
                   Examples.articleUrl Images {| usedPaths := ∅; totalBytes := 0 |}
                 = Normal (Some {| originalUrl := Examples.plainImage;
                                   relativePath := js "assets/images/h/a.png";
                                   content := [1; 2; 3] |},
                           {| usedPaths := {[js "assets/images/h/a.png"]} ∪ ∅;
                              totalBytes := 3 |}))
    by (vm_compute; reflexivity).
  destruct (downloadAsset_accepts _ _ _ _ _ _ _ _ _ Hrun)
    as (response & Hf & _ & _ & Hb & _ & _ & Hu & _).
  exists response. split_and!; [exact Hrun|exact Hf|exact Hb|exact Hu].
Defined.

(** X18: [downloadAsset] throws in two cases only, both after a
    response that is ok: its body cannot be read, or the bytes have passed
    the size checks and the URL of the asset does not parse. *)
Theorem downloadAsset_throws w j i assetUrl referer kind st m :
  downloadAsset w j i assetUrl referer kind st = Throw m →
  ∃ response,
    fetch w j i assetUrl referer = Some response
    ∧ ok response = true
    ∧ (body response = BodyError m
       ∨ ∃ bytes, body response = BodyBytes bytes
                  ∧ countBytes bytes st ≠ None
                  ∧ parseURL w assetUrl = None ∧ m = invalidURL).
Proof.
  unfold downloadAsset, afterFetch.
  destruct (fetch w j i assetUrl referer) as [response|]; [|done].
  destruct (ok response) eqn:Eok; cbn [negb]; [|done].
  destruct (bool_decide (kind = Files) && _) eqn:Ehtml; [done|].
  destruct (body response) as [bytes|m'] eqn:Ebody.
  - unfold afterBody.
    destruct (countBytes bytes st) as [st1|] eqn:Ec; [|done].
    unfold placeAsset, buildRelativeAssetPath, newURL.
    destruct (parseURL w assetUrl) as [u|] eqn:Eu.
    + unfold mbind, Completion_bind.
      by destruct (dedupePath _ (usedPaths st1)).
    + unfold mbind, Completion_bind. intros [= <-].
      exists response. split_and!; [done|done|]. right. exists bytes.
      split_and!; [done|by rewrite Ec|done|done].
  - intros [= <-]. exists response. split_and!; [done|done|by left].
Qed.

Lemma downloadAsset_throws_witness :
  ∃ response,
    fetch FailureExamples.brokenBodies 0 0 Examples.plainImage Examples.articleUrl
    = Some response
    ∧ ok response = true
    ∧ (body response = BodyError (js "terminated")
       ∨ ∃ bytes, body response = BodyBytes bytes
                  ∧ countBytes bytes {| usedPaths := ∅; totalBytes := 0 |} ≠ None
                  ∧ parseURL FailureExamples.brokenBodies Examples.plainImage = None
                  ∧ js "terminated" = invalidURL).
Proof.
  apply (downloadAsset_throws FailureExamples.brokenBodies 0 0 Examples.plainImage
           Examples.articleUrl Images {| usedPaths := ∅; totalBytes := 0 |}).
  reflexivity.
Defined.

End DownloadFacts.

(** ** The workers of a pool *)

Module WorkerFacts.
Import JS Text Tar Download FolderFacts AssetFacts PoolFacts Views.

#[local] Arguments dedupePath : simpl never.
#[local] Arguments buildRelativeAssetPath : simpl never.
#[local] Arguments afterFetch : simpl never.
#[local] Arguments countBytes : simpl never.
#[local] Arguments placeAsset : simpl never.

Lemma placeAsset_url w assetUrl kind response bytes st a st' :
  placeAsset w assetUrl kind response bytes st = Normal (a, st') →
  originalUrl a = assetUrl.
Proof.
  unfold placeAsset.
  destruct (buildRelativeAssetPath w assetUrl kind _) as [p|m]; [|done].
  unfold mbind, Completion_bind.
  destruct (dedupePath p (usedPaths st)) as [p' used'].
  by intros [= <- <-]%Normal_inj.
Qed.

(** Replacing one task changes the number of workers taken by what the two
    tasks take. *)
Lemma taken_insert (l : list Task) i t t0 :
  l !! i = Some t0 →
  (length (filter (fun t => occupiesWorker t = true) (<[i := t]> l))
   + (if occupiesWorker t0 then 1 else 0)
   = length (filter (fun t => occupiesWorker t = true) l)
     + (if occupiesWorker t then 1 else 0))%nat.
Proof.
  revert i. induction l as [|x l IH]; intros i Hi; [done|].
  destruct i as [|i]; simpl in Hi.
  - injection Hi as ->. change (<[0%nat := t]> (t0 :: l)) with (t :: l).
    rewrite !filter_cons.
    destruct (decide (occupiesWorker t = true)) as [->|Ht%not_true_is_false];
      destruct (decide (occupiesWorker t0 = true)) as [->|Ht0%not_true_is_false];
      rewrite ?Ht, ?Ht0; cbn [length]; lia.
  - change (<[S i := t]> (x :: l)) with (x :: <[i := t]> l).
    rewrite !filter_cons.
    specialize (IH i Hi).
    destruct (decide (occupiesWorker x = true)); cbn [length]; lia.
Qed.

Lemma orderly_initial items st : orderly items (initialPool (length items) st).
Proof.
  unfold orderly, initialPool, workersTaken. cbn [tasks cursor failure].
  split_and!.
  - lia.
  - intros i Hi. lia.
  - assert (H : filter (fun t => occupiesWorker t = true)
                  (replicate (length items) Queued) = []).
    { induction (length items) as [|n IH]; [done|]. cbn [replicate].
      by rewrite filter_cons_False. }
    rewrite H. cbn [length]. lia.
  - intros _ i m [? _]%lookup_replicate. done.
  - intros i asset [? _]%lookup_replicate. done.
Qed.

(** A task that is not waiting to start is replaced by one that is not
    either. *)
Lemma orderly_insert items p i t t0 st f :
  length (tasks p) = length items →
  orderly items p →
  tasks p !! i = Some t0 → t0 ≠ Queued → t ≠ Queued →
  (occupiesWorker t = true → occupiesWorker t0 = true) →
  (∀ m, t = Rejected m → f ≠ None) →
  (failure p ≠ None → f ≠ None) →
  (∀ asset, t = Returned (Some asset) →
            ∃ kind, items !! i = Some (kind, originalUrl asset)) →
  orderly items
    {| tasks := <[i := t]> (tasks p); cursor := cursor p; shared := st;
       failure := f |}.
Proof.
  intros Hlen (Hc & Hq & Hw & Hf & Ha) Hi Ht0 Ht Hocc Hrej Hfail Hasset.
  unfold orderly, workersTaken in *. cbn [tasks cursor failure].
  split_and!.
  - done.
  - intros k Hk [(_ & Heq & _)|(Hne & Hl)]%list_lookup_insert_Some; [done|].
    by eapply Hq.
  - pose proof (taken_insert (tasks p) i t t0 Hi) as Hcount.
    destruct (occupiesWorker t) eqn:Et.
    + rewrite Hocc in Hcount by done. lia.
    + destruct (occupiesWorker t0); lia.
  - intros Hnone k m [(<- & -> & _)|(Hne & Hl)]%list_lookup_insert_Some.
    + by eapply Hrej.
    + eapply Hf; [|exact Hl]. destruct (failure p); [|done].
      exfalso. by apply Hfail.
  - intros k asset [(<- & -> & _)|(Hne & Hl)]%list_lookup_insert_Some.
    + by apply Hasset.
    + by apply Ha.
Qed.

Lemma step_orderly w j referer items p p' :
  wellFormed w j referer items p → orderly items p →
  step w j referer items p p' → orderly items p'.
Proof.
  intros (Hlen & Hqueued & _) Hord.
  destruct 1 as [p Hc Hw|p i kind assetUrl Ht Hi|p i kind assetUrl response Ht Hi].
  - destruct Hord as (_ & Hq & Htaken & Hf & Ha).
    destruct (lookup_lt_is_Some_2 (tasks p) (cursor p)) as [t0 Ht0]; [lia|].
    assert (t0 = Queued) as -> by (by eapply Hqueued).
    unfold orderly, workersTaken in *. cbn [tasks cursor failure].
    split_and!.
    + lia.
    + intros k Hk [(_ & Heq & _)|(Hne & Hl)]%list_lookup_insert_Some; [done|].
      apply (Hq k); [lia|done].
    + pose proof (taken_insert (tasks p) (cursor p) Fetching Queued Ht0) as Hn.
      cbn [occupiesWorker] in Hn. lia.
    + intros Hnone k m [(_ & ? & _)|(Hne & Hl)]%list_lookup_insert_Some; [done|].
      by eapply Hf.
    + intros k asset [(_ & ? & _)|(Hne & Hl)]%list_lookup_insert_Some; [done|].
      by apply Ha.
  - unfold onResponse.
    destruct (afterFetch w kind _) as [response|]; unfold setTask;
      (eapply orderly_insert; [done|done|exact Ht|done..]).
  - unfold onBody. destruct (body response) as [bytes|m].
    + destruct (countBytes bytes (shared p)) as [st|].
      * destruct (placeAsset w assetUrl kind response bytes st) as [[a st']|m] eqn:Ep;
          unfold setTask, reject.
        -- eapply orderly_insert; [done|done|exact Ht|done|done|done|done|done|].
           intros asset [= <-]. exists kind.
           by rewrite (placeAsset_url _ _ _ _ _ _ _ _ Ep).
        -- eapply orderly_insert; [done|done|exact Ht|done..].
      * unfold setTask. eapply orderly_insert; [done|done|exact Ht|done..].
    + unfold reject. eapply orderly_insert; [done|done|exact Ht|done..].
Qed.

Lemma reachable_orderly w j referer items st p :
  reachable w j referer items st p → orderly items p.
Proof.
  intros H. pose proof H as Hreach. unfold reachable in H. pattern p.
  eapply rtc_ind_r; [|clear p H Hreach; intros p p' Hp Hstep IH|exact H].
  - apply orderly_initial.
  - eapply step_orderly; [|done|done]. by eapply reachable_wellFormed.
Qed.

(** What a list of tasks holds: one in flight, one that has thrown, one that
    waits while no worker is taken, or only returned ones. *)
Lemma tasks_cases (l : list Task) :
  (∃ i, l !! i = Some Fetching)
  ∨ (∃ i response, l !! i = Some (Reading response))
  ∨ (∃ i m, l !! i = Some (Rejected m))
  ∨ ((∃ i, l !! i = Some Queued)
     ∧ Forall (fun t => occupiesWorker t = false) l)
  ∨ Forall (fun t => ∃ r, t = Returned r) l.
Proof.
  induction l as [|x l IH].
  - do 4 right. constructor.
  - destruct IH as [[i H]|[(i & r & H)|[(i & m & H)|[([i H] & Hall)|Hall]]]].
    + left. by exists (S i).
    + right; left. by exists (S i), r.
    + do 2 right; left. by exists (S i), m.
    + destruct x as [| |response|r|m].
      * do 3 right; left. split; [by exists 0%nat|by constructor].
      * left. by exists 0%nat.
      * right; left. by exists 0%nat, response.
      * do 3 right; left. split; [by exists (S i)|by constructor].
      * do 2 right; left. by exists 0%nat, m.
    + destruct x as [| |response|r|m].
      * do 3 right; left. split; [by exists 0%nat|].
        constructor; [done|]. eapply Forall_impl; [exact Hall|].
        by intros t [r ->].
      * left. by exists 0%nat.
      * right; left. by exists 0%nat, response.
      * do 4 right. constructor; [by exists r|done].
      * do 2 right; left. by exists 0%nat, m.
Qed.

Lemma idle_taken (l : list Task) :
  Forall (fun t => occupiesWorker t = false) l →
  filter (fun t => occupiesWorker t = true) l = [].
Proof.
  induction 1 as [|x l Hx Hl IH]; [done|].
  rewrite filter_cons_False; [done|]. by rewrite Hx.
Qed.

(** X19: a pool that [mapLimit] has reached holds one task for each
    item, has started no more items than there are, has at most
    [ASSET_CONCURRENCY] workers taken, and keeps every returned asset at the
    index of the item it was downloaded for.  As long as no download has
    thrown, either every item has returned or the pool can take another
    step. *)
Theorem pool_never_stalls w j referer items st p :
  reachable w j referer items st p →
  length (tasks p) = length items
  ∧ (cursor p ≤ length items)%nat
  ∧ (workersTaken p ≤ 6)%nat
  ∧ (∀ i asset, tasks p !! i = Some (Returned (Some asset)) →
       ∃ kind, items !! i = Some (kind, originalUrl asset))
  ∧ (failure p = None →
       allReturned p ∨ ∃ p', step w j referer items p p').
Proof.
  intros Hreach.
  destruct (reachable_wellFormed _ _ _ _ _ _ Hreach) as (Hlen & Hqueued & _).
  destruct (reachable_orderly _ _ _ _ _ _ Hreach) as (Hc & Hq & Hw & Hf & Ha).
  split_and!; [done|done|exact Hw|done|].
  intros Hnone.
  destruct (tasks_cases (tasks p))
    as [[i H]|[(i & r & H)|[(i & m & H)|[([i H] & Hall)|Hall]]]].
  - right. destruct (lookup_lt_is_Some_2 items i) as [[kind assetUrl] Hi].
    { rewrite <- Hlen. by eapply lookup_lt_Some. }
    eexists. by eapply step_response.
  - right. destruct (lookup_lt_is_Some_2 items i) as [[kind assetUrl] Hi].
    { rewrite <- Hlen. by eapply lookup_lt_Some. }
    eexists. by eapply step_body.
  - by destruct (Hf Hnone i m).
  - right. eexists. apply step_start.
    + destruct (decide (i < cursor p)%nat) as [Hlt|Hge].
      * by destruct (Hq i Hlt).
      * apply lookup_lt_Some in H. lia.
    + unfold workersTaken. rewrite (idle_taken _ Hall). cbn [length].
      unfold ASSET_CONCURRENCY. lia.
  - by left.
Qed.

Lemma pool_never_stalls_witness :
  let items := Examples.twinItems in
  let p := {| tasks := [Fetching; Queued]; cursor := 1;
              shared := {| usedPaths := ∅; totalBytes := 0 |};
              failure := None |} in
  length (tasks p) = length items
  ∧ (cursor p ≤ length items)%nat
  ∧ (workersTaken p ≤ 6)%nat
  ∧ (∀ i asset, tasks p !! i = Some (Returned (Some asset)) →
       ∃ kind, items !! i = Some (kind, originalUrl asset))
  ∧ (failure p = None →
       allReturned p
       ∨ ∃ p', step Examples.demoWorld 0 Examples.articleUrl items p p').
Proof.
  apply (pool_never_stalls Examples.demoWorld 0 Examples.articleUrl
           Examples.twinItems {| usedPaths := ∅; totalBytes := 0 |}).
  unfold reachable.
  eapply rtc_l; [apply step_start; vm_compute; lia|].
  apply rtc_refl.
Defined.

End WorkerFacts.

(** ** A kind that is left out *)

Module KindFacts.
Import JS Text Tar Download StringFacts RewriteFacts FolderFacts AssetFacts.
Import PoolFacts LoopFacts RunFacts TarFacts LayoutFacts ArchiveFacts DirFacts.
Import SegmentFacts Views.



















(** The archive of that run: the folder of the job, its [assets] and image
    folders, the two images, the text and the manifest; no folder for files. *)
Example files_left_out_archive_example :
  map entryPath
    (archiveEntries
       (tarEntries
          (match (packageRun Examples.demoWorld
                    {| downloadImages := true; downloadFiles := false |}
                    [Examples.articleUrl]).1 with
           | Normal pkg => pkg
           | Throw _ => Examples.demoPackage
           end)
        ++ [File (js "manifest.json") [] None None]))
  = [js "001_A post/"; js "001_A post/assets/"; js "001_A post/assets/images/";
     js "001_A post/assets/images/h/";
     js "001_A post/assets/images/h/a.png";
     js "001_A post/assets/images/h/a__c8ef17d874.png";
     js "001_A post/index.md"; js "manifest.json"].
Proof. vm_compute. reflexivity. Qed.

End KindFacts.
